(** * fx/nnc_compile.py: lowering of traced FX graphs to NNC kernels

    A shallow embedding of [src/fx/nnc_compile.py].  Python exceptions are
    modelled by the [result] error monad, dictionaries by [gmap], FX graphs
    by the list of their nodes in definition order, and the tensor-expression
    objects of [torch._C._te] by symbolic terms. *)

From Stdlib Require Import ZArith QArith.QArith_base.
From stdpp Require Import gmap strings list pretty.

Set Warnings "-register-all".

(** ** Exceptions *)

Inductive exn : Type :=
  | RuntimeError (msg : string)
  | KeyError (key : string)
  | IndexError
  | TypeError (msg : string)
  | ValueError (msg : string)
  | AttributeError (attr : string).

Inductive result (A : Type) : Type :=
  | Ok (a : A)
  | Raise (e : exn).
Arguments Ok {A} a.
Arguments Raise {A} e.

#[global] Instance result_ret : MRet result := fun A a => Ok a.
#[global] Instance result_bind : MBind result := fun A B f m =>
  match m with
  | Ok a => f a
  | Raise e => Raise e
  end.

#[global] Instance result_fmap : FMap result := fun A B f m =>
  match m with
  | Ok a => Ok (f a)
  | Raise e => Raise e
  end.

Definition raises {A} (m : result A) : Prop := exists e, m = Raise e.

(** ** Scalars, element types and symbolic expressions *)

(** Python values reaching [to_expr]. *)
Inductive PyScalar : Type :=
  | PyInt (z : Z)
  | PyFloat (q : Q)
  | PyOther (type_name : string).

Inductive torch_dtype : Type :=
  | torch_float
  | torch_long
  | torch_float64
  | torch_half
  | torch_int32
  | torch_bool.

Inductive te_Dtype : Type :=
  | Dtype_Float
  | Dtype_Long
  | Dtype_Double.

(** [te.ExprHandle]: integer and float immediates, and the index variables
    that [te.Compute] hands to the body function.  [ExprFloat q] stands for
    the single-precision immediate that [te.ExprHandle.float] makes of the
    Python float [q]. *)
Inductive ExprHandle : Type :=
  | ExprInt (z : Z)
  | ExprFloat (q : Q)
  | ExprVar (name : string).

(** The values of a C [int]. *)
Definition int32 (z : Z) : Prop := (-2147483648 <= z <= 2147483647)%Z.

#[global] Instance int32_dec z : Decision (int32 z).
Proof. unfold int32. apply _. Defined.

(** [te.ExprHandle.int]: the binding takes a C [int] and refuses a Python
    integer that does not fit with [TypeError]. *)
Definition ExprHandle_int (z : Z) : result ExprHandle :=
  if decide (int32 z) then Ok (ExprInt z)
  else Raise (TypeError "int(): incompatible function arguments").

Definition to_expr (x : PyScalar) : result ExprHandle :=
  match x with
  | PyInt z => ExprHandle_int z
  | PyFloat q => Ok (ExprFloat q)
  | PyOther ty => Raise (RuntimeError ("type " +:+ ty +:+ " not supported"))
  end.

Definition get_nnc_type (dtype : torch_dtype) : result te_Dtype :=
  match dtype with
  | torch_float => Ok Dtype_Float
  | torch_long => Ok Dtype_Long
  | torch_float64 => Ok Dtype_Double
  | _ => Raise (RuntimeError "nyi")
  end.

Definition get_te_shapes (shape : list Z) : result (list ExprHandle) :=
  mapM ExprHandle_int shape.
Arguments get_te_shapes : simpl never.

Definition process_shape (x : list Z) : list Z :=
  if decide (length x = 0%nat) then [1%Z] else x.

(** ** The broadcast index helper *)

(** The body of the [for idx, arg in enumerate(args)] loop, with the
    running index and the output list as accumulators. *)
Fixpoint index_or_broadcast_loop (shape : list Z) (idx : nat)
    (args out : list ExprHandle) : result (list ExprHandle) :=
  match args with
  | [] => Ok out
  | arg :: rest =>
      if decide (length shape ≤ idx)%nat then
        index_or_broadcast_loop shape (S idx) rest out
      else
        match shape !! idx with
        | None => Raise IndexError
        | Some d =>
            if decide (d = 1%Z) then
              zero ← to_expr (PyInt 0%Z);
              index_or_broadcast_loop shape (S idx) rest (out ++ [zero])
            else
              index_or_broadcast_loop shape (S idx) rest (out ++ [arg])
        end
  end.

Definition index_or_broadcast (shape : list Z) (args : list ExprHandle)
    : result (list ExprHandle) :=
  index_or_broadcast_loop shape 0 args [].

(** What one output axis contributes: nothing past the operand's rank,
    index 0 on an axis of extent 1, the output index otherwise. *)
Definition broadcast_entry (shape : list Z) (args : list ExprHandle)
    (idx : nat) : option ExprHandle :=
  match shape !! idx, args !! idx with
  | Some d, Some arg => Some (if decide (d = 1%Z) then ExprInt 0%Z else arg)
  | _, _ => None
  end.

(** ** FX graphs *)

(** Nested argument structures ([tuple]s and [list]s of arguments), as
    traversed by [fx.node.map_aggregate]. *)
Inductive Aggregate (A : Type) : Type :=
  | Leaf (a : A)
  | Tuple (l : list (Aggregate A))
  | PyList (l : list (Aggregate A)).
Arguments Leaf {A} a.
Arguments Tuple {A} l.
Arguments PyList {A} l.

Fixpoint map_aggregate {A B} (fn : A -> result B) (a : Aggregate A)
    : result (Aggregate B) :=
  match a with
  | Leaf x => Leaf <$> fn x
  | Tuple l => Tuple <$> mapM (map_aggregate fn) l
  | PyList l => PyList <$> mapM (map_aggregate fn) l
  end.

(** A leaf of a node's arguments: a reference to another node of the same
    graph (modelled by that node's name, which is unique in its graph) or an
    immediate. *)
Inductive FxArg : Type :=
  | ArgNode (ref : string)
  | ArgImm (c : PyScalar).

Inductive opcode : Type :=
  | placeholder
  | call_function
  | call_method
  | call_module
  | get_attr
  | output.

#[global] Instance opcode_eq_dec : EqDecision opcode.
Proof. solve_decision. Defined.

(** [node.target]: the callables that the lowering tables mention, the
    operators under [torch.ops.aten], any other callable (carrying its
    [__name__]), and the string targets of the remaining node kinds. *)
Inductive Target : Type :=
  | builtin_getattr
  | operator_getitem
  | operator_add
  | operator_mul
  | torch_mul
  | torch_sin
  | torch_cos
  | torch_ops_aten (op_name : string)
  | other_callable (fn_name : string)
  | target_str (s : string).

#[global] Instance Target_eq_dec : EqDecision Target.
Proof. solve_decision. Defined.

Record TensorMeta : Type := mkTensorMeta {
  tm_shape : list Z;
  tm_dtype : torch_dtype }.

Record Node : Type := mkNode {
  node_name : string;
  node_op : opcode;
  node_target : Target;
  node_args : list (Aggregate FxArg);
  node_kwargs : list (string * Aggregate FxArg);
  node_meta : option TensorMeta }.

(** A graph is the list of its nodes in definition order. *)
Abbreviation Graph := (list Node).

Definition is_placeholder (n : Node) : Prop := node_op n = placeholder.
Definition is_get_attr (n : Node) : Prop := node_op n = get_attr.

#[global] Instance is_placeholder_dec n : Decision (is_placeholder n).
Proof. unfold is_placeholder. apply _. Defined.

#[global] Instance is_get_attr_dec n : Decision (is_get_attr n).
Proof. unfold is_get_attr. apply _. Defined.

Fixpoint arg_nodes (a : Aggregate FxArg) : list string :=
  match a with
  | Leaf (ArgNode ref) => [ref]
  | Leaf (ArgImm _) => []
  | Tuple l => mjoin (arg_nodes <$> l)
  | PyList l => mjoin (arg_nodes <$> l)
  end.

(** [node.all_input_nodes]: the nodes mentioned in [args] and [kwargs]. *)
Definition all_input_nodes (n : Node) : list string :=
  mjoin (arg_nodes <$> node_args n) ++
  mjoin ((fun kv => arg_nodes kv.2) <$> node_kwargs n).

(** [node.users]: the nodes of the graph that take [n] as an input. *)
Definition users (g : Graph) (n : Node) : list Node :=
  filter (fun m => node_name n ∈ all_input_nodes m) g.

Definition find_node (g : Graph) (ref : string) : option Node :=
  list_find (fun n => node_name n = ref) g ≫= fun p => Some p.2.

(** Every node only mentions nodes defined before it. *)
Fixpoint topological_from (seen : list string) (g : Graph) : Prop :=
  match g with
  | [] => True
  | n :: rest =>
      Forall (fun ref => ref ∈ seen) (all_input_nodes n) /\
      topological_from (node_name n :: seen) rest
  end.

#[global] Instance topological_from_dec seen g : Decision (topological_from seen g).
Proof. revert seen. induction g; simpl; apply _. Defined.

(** What [fx.symbolic_trace] guarantees of the graphs it returns. *)
Definition traced (g : Graph) : Prop :=
  NoDup (node_name <$> g) /\ topological_from [] g.

#[global] Instance traced_dec g : Decision (traced g).
Proof. unfold traced. apply _. Defined.

(** *** torch.fx graph construction *)

(** [Graph._create_unique_name]: the candidate itself when it is free,
    otherwise the candidate with the first free numeric suffix. *)
Fixpoint fresh_suffix (used : list string) (base : string) (num fuel : nat)
    : string :=
  let candidate := base +:+ "_" +:+ pretty num in
  match fuel with
  | O => candidate
  | S fuel' =>
      if bool_decide (candidate ∈ used)
      then fresh_suffix used base (S num) fuel'
      else candidate
  end.

Definition create_name (g : Graph) (candidate : string) : string :=
  let used := node_name <$> g in
  if bool_decide (candidate ∈ used)
  then fresh_suffix used candidate 1 (length used)
  else candidate.

(** [Graph.create_node]: the new node is appended to the graph. *)
Definition create_node (g : Graph) (op : opcode) (tgt : Target)
    (args : list (Aggregate FxArg)) (kwargs : list (string * Aggregate FxArg))
    (name : string) (meta : option TensorMeta) : Node * Graph :=
  let n := mkNode (create_name g name) op tgt args kwargs meta in
  (n, g ++ [n]).

(** [fx.map_arg]: the transform is applied to the node leaves only. *)
Definition map_arg (fn : string -> result string) (a : Aggregate FxArg)
    : result (Aggregate FxArg) :=
  map_aggregate (fun x =>
    match x with
    | ArgNode ref => ArgNode <$> fn ref
    | ArgImm c => Ok (ArgImm c)
    end) a.

Definition map_kwarg (fn : string -> result string)
    (kv : string * Aggregate FxArg) : result (string * Aggregate FxArg) :=
  v ← map_arg fn kv.2; Ok (kv.1, v).

(** [Graph.node_copy]. *)
Definition node_copy (g : Graph) (node : Node)
    (arg_transform : string -> result string) : result (Node * Graph) :=
  args ← mapM (map_arg arg_transform) (node_args node);
  kwargs ← mapM (map_kwarg arg_transform) (node_kwargs node);
  Ok (create_node g (node_op node) (node_target node) args kwargs
        (node_name node) (node_meta node)).

(** [Graph.output]. *)
Definition graph_output (g : Graph) (res : Node) : Node * Graph :=
  create_node g output (target_str "output")
    [Leaf (ArgNode (node_name res))] [] "output" None.

(** [Graph.erase_node]: refuses a node that still has users. *)
Definition erase_node (g : Graph) (to_erase : Node) : result Graph :=
  match users g to_erase with
  | [] => Ok (filter (fun m => node_name m ≠ node_name to_erase) g)
  | _ :: _ => Raise (RuntimeError "Tried to erase Node but it still had users")
  end.

(** ** Graph utilities of the module *)

(** The [env] dictionary of [truncate] maps the name of an original node
    to its copy; [env[x.name]] raises [KeyError] on a missing name. *)
Definition env_lookup (env : gmap string Node) (ref : string) : result string :=
  match env !! ref with
  | Some new_node => Ok (node_name new_node)
  | None => Raise (KeyError ref)
  end.

Fixpoint truncate_loop (nodes : list Node) (k cnt : Z)
    (env : gmap string Node) (new_graph : Graph)
    : result (Graph * gmap string Node) :=
  match nodes with
  | [] => Ok (new_graph, env)
  | node :: rest =>
      '(new_node, new_graph) ← node_copy new_graph node (env_lookup env);
      let env := <[node_name node := new_node]> env in
      let cnt := (cnt + 1)%Z in
      if decide (cnt = k) then
        match env !! node_name node with
        | Some res => Ok ((graph_output new_graph res).2, env)
        | None => Raise (KeyError (node_name node))
        end
      else truncate_loop rest k cnt env new_graph
  end.

(** [truncate(model, k)], on the traced graph of [model]. *)
Definition truncate (model : Graph) (k : Z) : result Graph :=
  fst <$> truncate_loop model k 0 ∅ [].

(** The loop of [remove_args]: [todo] is what is left of the iteration over
    the nodes, [g] the graph as mutated so far. *)
Fixpoint remove_args_loop (todo : list Node) (g : Graph) : result Graph :=
  match todo with
  | [] => Ok g
  | node :: rest =>
      if decide (length (users g node) = 0%nat /\ node_op node ≠ output) then
        g' ← erase_node g node; remove_args_loop rest g'
      else remove_args_loop rest g
  end.

Definition remove_args (model : Graph) : result Graph :=
  remove_args_loop model model.

(** The nodes of [g] that are dead on entry: no consumer, not the output. *)
Definition dead (g : Graph) (n : Node) : Prop :=
  users g n = [] /\ node_op n ≠ output.

#[global] Instance dead_dec g n : Decision (dead g n).
Proof. unfold dead. apply _. Defined.

(** ** Tensor-expression objects *)

Record DimArg : Type := mkDimArg {
  dim_extent : ExprHandle;
  dim_name : string }.

(** Buffers, the tensors that own them and the operands of a lowering:
    [t.buf()] is the buffer of the tensor [t], so a computation that reads
    it depends on [t]. *)
Inductive BufHandle : Type :=
  | Buf (name : string) (dims : list ExprHandle) (dtype : te_Dtype)
  | Tensor_buf (t : Tensor)
with Tensor : Type :=
  | Compute (name : string) (dims : list DimArg) (body : ExprHandle)
  | Lowered (aten_str : string) (args : list (Aggregate TeArg))
      (shape : list ExprHandle) (dtype : te_Dtype)
with TeArg : Type :=
  | TeBuf (b : BufHandle)
  | TeImm (c : PyScalar).

Inductive Stmt : Type :=
  | Tensor_stmt (t : Tensor)
  | ExternalCall (out : BufHandle) (fn : string)
      (buf_args : list BufHandle) (args : list ExprHandle).

(** An operand passed where the binding expects a [BufHandle]. *)
Definition as_BufHandle (x : Aggregate TeArg) : result BufHandle :=
  match x with
  | Leaf (TeBuf b) => Ok b
  | _ => Raise (TypeError "incompatible constructor arguments")
  end.

(** [te.ExternalCall(out, fn, buf_args, args)]: the buffer arguments must
    be buffer handles. *)
Definition te_ExternalCall (out : BufHandle) (fn : string)
    (buf_args : list (Aggregate TeArg)) (args : list ExprHandle)
    : result Stmt :=
  bufs ← mapM as_BufHandle buf_args;
  Ok (ExternalCall out fn bufs args).

(** [te.Stmt(stmts)]: a block of the statements; the binding refuses an
    empty list, for which the block constructor yields no object. *)
Definition te_Stmt (stmts : list Stmt) : result (list Stmt) :=
  match stmts with
  | [] => Raise (TypeError "pybind11::init(): factory function returned nullptr")
  | _ :: _ => Ok stmts
  end.

Record te_Placeholder : Type := mkPlaceholder {
  ph_name : string;
  ph_dtype : te_Dtype;
  ph_dims : list ExprHandle }.

Definition Placeholder_data (p : te_Placeholder) : BufHandle :=
  Buf (ph_name p) (ph_dims p) (ph_dtype p).

Inductive BufferArg : Type :=
  | BufferArg_buf (b : BufHandle)
  | BufferArg_placeholder (p : te_Placeholder).

(** [te.BufferArg(x)] accepts a placeholder or a buffer handle. *)
Definition te_BufferArg (x : te_Placeholder + Aggregate TeArg)
    : result BufferArg :=
  match x with
  | inl p => Ok (BufferArg_placeholder p)
  | inr (Leaf (TeBuf b)) => Ok (BufferArg_buf b)
  | inr _ => Raise (TypeError "BufferArg(): incompatible constructor arguments")
  end.

Fixpoint get_dim_args_loop (dims : list Z) (dim_args : list DimArg)
    : result (list DimArg) :=
  match dims with
  | [] => Ok dim_args
  | dim :: rest =>
      extent ← ExprHandle_int dim;
      get_dim_args_loop rest
        (dim_args ++ [mkDimArg extent ("i" +:+ pretty (length dim_args))])
  end.

Definition get_dim_args (dims : list Z) : result (list DimArg) :=
  get_dim_args_loop dims [].
Arguments get_dim_args : simpl never.

(** What a lowering rule returns: a [te.Tensor], or a pair of a buffer
    and statements. *)
Inductive LowerOut : Type :=
  | OutTensor (t : Tensor)
  | OutPair (buf : BufHandle) (stmts : list Stmt).

(** An operand's [(shape, dtype)] pair, or [None]. *)
Definition ShapeDtype : Type := option (list Z * torch_dtype).

(** [inp_shapes[0]], read as a [(shape, dtype)] pair. *)
Definition first_shape_dtype (inp_shapes : list (Aggregate ShapeDtype))
    : result (list Z * torch_dtype) :=
  match inp_shapes with
  | [] => Raise IndexError
  | Leaf (Some sd) :: _ => Ok sd
  | Leaf None :: _ => Raise (TypeError "'NoneType' object is not subscriptable")
  | _ :: _ => Raise (TypeError "operand is not a tensor")
  end.

Definition index_arg {A} (args : list A) (i : nat) : result A :=
  match args !! i with
  | Some a => Ok a
  | None => Raise IndexError
  end.

(** ** Tensor storage and the compiled callable *)

(** Tensors are referred to by the address of their storage. *)
Abbreviation loc := positive.

Section Model.

(** Contents of a tensor's storage. *)
Variable V : Type.

(** [te.lower] has a lowering for the named operator that accepts the
    given operands, output shape and element type. *)
Variable nnc_has_lowering :
  string -> list (Aggregate TeArg) -> list ExprHandle -> te_Dtype -> bool.

(** What [torch.empty] leaves in fresh storage. *)
Variable empty_data : list Z -> torch_dtype -> V.

Record torch_tensor : Type := mkTensor {
  t_shape : list Z;
  t_dtype : torch_dtype;
  t_data : V }.

Local Abbreviation heap := (gmap loc torch_tensor).

Definition torch_empty (shape : list Z) (dtype : torch_dtype) (h : heap)
    : loc * heap :=
  let l := fresh (dom h) in
  (l, <[l := mkTensor shape dtype (empty_data shape dtype)]> h).

(** ** Lowering rules *)

Definition te_lower (aten_str : string) (args : list (Aggregate TeArg))
    (shape : list ExprHandle) (dtype : te_Dtype) : result Tensor :=
  if nnc_has_lowering aten_str args shape dtype
  then Ok (Lowered aten_str args shape dtype)
  else Raise (RuntimeError ("no lowering for " +:+ aten_str)).

(** [te.Compute] is bound for bodies of one to four index variables; the
    term is built here for any number of dimension arguments. *)
Definition ones_like_lower (name : string) (out_shape : list Z)
    (inp_shapes : list (Aggregate ShapeDtype))
    (args : list (Aggregate TeArg)) : result LowerOut :=
  dim_args ← get_dim_args out_shape;
  body ← to_expr (PyFloat (Qmake 1 1));
  Ok (OutTensor (Compute name dim_args body)).

Definition dot_lower (name : string) (out_shape : list Z)
    (inp_shapes : list (Aggregate ShapeDtype))
    (args : list (Aggregate TeArg)) : result LowerOut :=
  sd ← first_shape_dtype inp_shapes;
  mul_shape ← get_te_shapes sd.1;
  mul_dtype ← get_nnc_type sd.2;
  mul_te ← te_lower "aten::mul" args mul_shape mul_dtype;
  sum_shape ← get_te_shapes out_shape;
  sum_dtype ← get_nnc_type sd.2;
  res ← te_lower "aten::sum" [Leaf (TeBuf (Tensor_buf mul_te))]
          sum_shape sum_dtype;
  Ok (OutPair (Tensor_buf res) [Tensor_stmt mul_te; Tensor_stmt res]).

Definition mv_lower (name : string) (out_shape : list Z)
    (inp_shapes : list (Aggregate ShapeDtype))
    (args : list (Aggregate TeArg)) : result LowerOut :=
  A ← index_arg args 0;
  B ← index_arg args 1;
  sd ← first_shape_dtype inp_shapes;
  match sd.1 with
  | [N; M] =>
      dims ← get_te_shapes [N];
      dtype ← get_nnc_type sd.2;
      let C := Buf "C" dims dtype in
      s ← te_ExternalCall C "nnc_aten_mv" [A; B] [];
      Ok (OutPair C [s])
  | _ => Raise (ValueError "wrong number of values to unpack")
  end.

Definition lowering_functions (op : Target)
    : option (string -> list Z -> list (Aggregate ShapeDtype) ->
              list (Aggregate TeArg) -> result LowerOut) :=
  match op with
  | torch_ops_aten "ones_like" => Some ones_like_lower
  | torch_ops_aten "dot" => Some dot_lower
  | torch_ops_aten "mv" => Some mv_lower
  | _ => None
  end.

Definition func_to_aten (op : Target) : option Target :=
  match op with
  | operator_getitem => Some (torch_ops_aten "slice")
  | operator_add => Some (torch_ops_aten "add")
  | operator_mul => Some (torch_ops_aten "mul")
  | torch_mul => Some (torch_ops_aten "mul")
  | torch_sin => Some (torch_ops_aten "sin")
  | torch_cos => Some (torch_ops_aten "cos")
  | _ => None
  end.

(** [op.__name__]. *)
Definition target_name (op : Target) : result string :=
  match op with
  | builtin_getattr => Ok "getattr"
  | operator_getitem => Ok "getitem"
  | operator_add => Ok "add"
  | operator_mul => Ok "mul"
  | torch_mul => Ok "mul"
  | torch_sin => Ok "sin"
  | torch_cos => Ok "cos"
  | torch_ops_aten nm => Ok nm
  | other_callable nm => Ok nm
  | target_str _ => Raise (AttributeError "__name__")
  end.

Definition tensor_meta (n : Node) : result TensorMeta :=
  match node_meta n with
  | Some tm => Ok tm
  | None => Raise (KeyError "tensor_meta")
  end.

(** The [(shape, dtype)] of one operand leaf, as computed by the
    [lambda] of [lower_function]; [g] resolves node references. *)
Definition operand_shape (g : Graph) (arg : FxArg) : result ShapeDtype :=
  match arg with
  | ArgNode ref =>
      match find_node g ref ≫= node_meta with
      | Some tm => Ok (Some (process_shape (tm_shape tm), tm_dtype tm))
      | None => Ok None
      end
  | ArgImm _ => Ok None
  end.

Definition lower_function (g : Graph) (node : Node) (op : Target)
    (nnc_args : list (Aggregate TeArg)) (args : list (Aggregate FxArg))
    : result (BufHandle * list Stmt) :=
  inp_shapes ← mapM (map_aggregate (operand_shape g)) args;
  out ←
    match lowering_functions op with
    | Some rule =>
        tm ← tensor_meta node;
        rule (node_name node) (process_shape (tm_shape tm)) inp_shapes nnc_args
    | None =>
        let op := default op (func_to_aten op) in
        nm ← target_name op;
        let aten_str := "aten::" +:+ nm in
        tm ← tensor_meta node;
        out_shape ← get_te_shapes (process_shape (tm_shape tm));
        tm' ← tensor_meta node;
        dtype ← get_nnc_type (tm_dtype tm');
        OutTensor <$> te_lower aten_str nnc_args out_shape dtype
    end;
  match out with
  | OutTensor t => Ok (Tensor_buf t, [Tensor_stmt t])
  | OutPair buf stmts => Ok (buf, stmts)
  end.

(** ** The lowering driver *)

Record lowering_state : Type := mkState {
  st_env : gmap string BufHandle;
  st_outs : option (list (Aggregate TeArg) * list (list Z * torch_dtype));
  st_inputs : list te_Placeholder;
  st_module_attrs : list Node;
  st_compute_stmts : list Stmt }.

Definition initial_state : lowering_state :=
  mkState ∅ None [] [] [].

Definition get_te_type (node : Node) : result te_Dtype :=
  tm ← tensor_meta node; get_nnc_type (tm_dtype tm).

Definition lookup_leaf (env : gmap string BufHandle) (x : FxArg)
    : result TeArg :=
  match x with
  | ArgNode ref =>
      match env !! ref with
      | Some b => Ok (TeBuf b)
      | None => Raise (KeyError ref)
      end
  | ArgImm c => Ok (TeImm c)
  end.

Definition lookup_env (env : gmap string BufHandle)
    (l : list (Aggregate FxArg)) : result (list (Aggregate TeArg)) :=
  mapM (map_aggregate (lookup_leaf env)) l.

(** [(i.meta['tensor_meta'].shape, i.meta['tensor_meta'].dtype)] for an
    element [i] of the output node's arguments. *)
Definition output_meta (g : Graph) (i : Aggregate FxArg)
    : result (list Z * torch_dtype) :=
  match i with
  | Leaf (ArgNode ref) =>
      match find_node g ref with
      | Some n => tm ← tensor_meta n; Ok (tm_shape tm, tm_dtype tm)
      | None => Raise (KeyError ref)
      end
  | _ => Raise (AttributeError "meta")
  end.

(** One iteration of [for node in fx_model.graph.nodes]. *)
Definition lower_node (g : Graph) (st : lowering_state) (node : Node)
    : result lowering_state :=
  match node_op node with
  | placeholder =>
      tm ← tensor_meta node;
      shapes ← get_te_shapes (tm_shape tm);
      dtype ← get_te_type node;
      let ph := mkPlaceholder (node_name node) dtype shapes in
      Ok (mkState (<[node_name node := Placeholder_data ph]> (st_env st))
            (st_outs st) (st_inputs st ++ [ph]) (st_module_attrs st)
            (st_compute_stmts st))
  | call_function =>
      match node_meta node with
      | Some _ =>
          if decide (node_kwargs node ≠ []) then
            Raise (RuntimeError "kwargs nyi")
          else
            nnc_args ← lookup_env (st_env st) (node_args node);
            '(buf, stmt) ← lower_function g node (node_target node)
                              nnc_args (node_args node);
            Ok (mkState (<[node_name node := buf]> (st_env st))
                  (st_outs st) (st_inputs st) (st_module_attrs st)
                  (st_compute_stmts st ++ stmt))
      | None =>
          if decide (node_target node = builtin_getattr \/
                     node_target node = operator_getitem)
          then Ok st
          else Ok st
      end
  | output =>
      match node_args node with
      | [] => Raise IndexError
      | a0 :: _ =>
          let args := match a0 with
                      | Tuple l => l
                      | _ => node_args node
                      end in
          te_args ← lookup_env (st_env st) args;
          metas ← mapM (output_meta g) args;
          Ok (mkState (st_env st) (Some (te_args, metas)) (st_inputs st)
                (st_module_attrs st) (st_compute_stmts st))
      end
  | get_attr =>
      let module_attrs := st_module_attrs st ++ [node] in
      tm ← tensor_meta node;
      shapes ← get_te_shapes (process_shape (tm_shape tm));
      dtype ← get_te_type node;
      let ph := mkPlaceholder (node_name node) dtype shapes in
      Ok (mkState (<[node_name node := Placeholder_data ph]> (st_env st))
            (st_outs st) (st_inputs st) module_attrs (st_compute_stmts st))
  | _ => Raise (RuntimeError "not yet implemented")
  end.

Fixpoint lower_nodes (g : Graph) (nodes : list Node) (st : lowering_state)
    : result lowering_state :=
  match nodes with
  | [] => Ok st
  | node :: rest => st' ← lower_node g st node; lower_nodes g rest st'
  end.

(** What a call node with metadata and no keyword arguments does. *)
Definition lower_call_node (g : Graph) (st : lowering_state) (node : Node)
    : result lowering_state :=
  nnc_args ← lookup_env (st_env st) (node_args node);
  '(buf, stmt) ← lower_function g node (node_target node) nnc_args (node_args node);
  Ok (mkState (<[node_name node := buf]> (st_env st)) (st_outs st)
        (st_inputs st) (st_module_attrs st) (st_compute_stmts st ++ stmt)).

(** The two components of [outs] describe the same outputs. *)
Definition outs_wf (st : lowering_state) : Prop :=
  match st_outs st with
  | Some (outs0, outs1) => length outs0 = length outs1
  | None => True
  end.

(** ** Code generation and the returned callable *)

Record LoopNest : Type := mkLoopNest {
  ln_stmts : list Stmt;
  ln_output_bufs : list (Aggregate TeArg) }.

Record CodeGen : Type := mkCodeGen {
  cg_loopnest : LoopNest;
  cg_buffer_args : list BufferArg }.

(** What the generated kernel computes: from the contents of the buffers
    it reads (captured state, then inputs) to the contents it stores in
    its output buffers. *)
Variable kernel : CodeGen -> list V -> list V.

(** The tensors reachable from the traced module by attribute path. *)
Variable module_attributes : gmap string loc.

Definition fetch_attr (target : Target) : result loc :=
  match target with
  | target_str path =>
      match module_attributes !! path with
      | Some l => Ok l
      | None => Raise (RuntimeError "Node referenced nonexistant target")
      end
  | _ => Raise (AttributeError "split")
  end.

Record compiled : Type := mkCompiled {
  f_cg : CodeGen;
  f_alloc_results : list loc;
  f_module_stuff : list loc }.

Fixpoint alloc_all (specs : list (list Z * torch_dtype)) (h : heap)
    : list loc * heap :=
  match specs with
  | [] => ([], h)
  | (shape, dtype) :: rest =>
      let '(l, h1) := torch_empty shape dtype h in
      let '(ls, h2) := alloc_all rest h1 in
      (l :: ls, h2)
  end.

(** The handles whose order [te.construct_codegen] fixes. *)
Definition codegen_buffers (st : lowering_state)
    (outs0 : list (Aggregate TeArg))
    : result (list (te_Placeholder + Aggregate TeArg)) :=
  attrs ← mapM (fun i : Node =>
             match st_env st !! node_name i with
             | Some b => Ok (inr (Leaf (TeBuf b)))
             | None => Raise (KeyError (node_name i))
             end) (st_module_attrs st);
  Ok (attrs ++ (inl <$> st_inputs st) ++ (inr <$> outs0)).

(** [nnc_compile], from the driver loop on: [fx_model] is the graph that
    [fx.symbolic_trace] returned and on which [ShapeProp] recorded the
    tensor metadata, and the module attributes are contiguous tensors, which
    [.contiguous()] returns as they are. *)
Definition nnc_compile (fx_model : Graph) (h : heap)
    : result (compiled * heap) :=
  st ← lower_nodes fx_model fx_model initial_state;
  root ← te_Stmt (st_compute_stmts st);
  match st_outs st with
  | None => Raise (TypeError "'NoneType' object is not subscriptable")
  | Some (outs0, outs1) =>
      let loopnest := mkLoopNest root outs0 in
      bufs ← codegen_buffers st outs0;
      buffer_args ← mapM te_BufferArg bufs;
      let cg := mkCodeGen loopnest buffer_args in
      let '(alloc_results, h') := alloc_all outs1 h in
      module_stuff ← mapM (fun i => fetch_attr (node_target i))
                        (st_module_attrs st);
      Ok (mkCompiled cg alloc_results module_stuff, h')
  end.

Definition store (h : heap) (dst : loc * V) : heap :=
  alter (fun t => mkTensor (t_shape t) (t_dtype t) dst.2) dst.1 h.

(** The contents of the tensor at [l]. *)
Definition read (h : heap) (l : loc) : V :=
  from_option t_data (empty_data [] torch_float) (h !! l).

(** [cg.call(buffers)]: runs the kernel on the leading buffers and stores
    what it computes in the trailing output buffers. *)
Definition cg_call (cg : CodeGen) (bufs : list loc) (h : heap)
    : result heap :=
  if decide (length bufs = length (cg_buffer_args cg)) then
    let n_in := (length bufs - length (ln_output_bufs (cg_loopnest cg)))%nat in
    let computed := kernel cg (read h <$> take n_in bufs) in
    Ok (foldl store h (zip (drop n_in bufs) computed))
  else Raise (RuntimeError "wrong number of buffer arguments").

Inductive retval : Type :=
  | RetNone
  | RetTensor (t : loc)
  | RetList (ts : list loc).

(** The closure [f] returned by [nnc_compile]. *)
Definition f (c : compiled) (inps : list loc)
    (out_tensors : option (list loc)) (h : heap) : result (retval * heap) :=
  let results :=
    match out_tensors with
    | None => f_alloc_results c
    | Some ts => ts
    end in
  h' ← cg_call (f_cg c) (f_module_stuff c ++ inps ++ results) h;
  match out_tensors with
  | None =>
      match results with
      | [r] => Ok (RetTensor r, h')
      | _ => Ok (RetList results, h')
      end
  | Some _ => Ok (RetNone, h')
  end.

End Model.

Abbreviation heap V := (gmap loc (torch_tensor V)).

(** ** Executing a graph *)

Section Interpreter.

(** Run-time Python values. *)
Variable PyVal : Type.
Variable py_none : PyVal.
Variable of_scalar : PyScalar -> PyVal.

(** The meaning of a call node ([call_function], [call_method] or
    [call_module]) on evaluated arguments, and of an attribute fetch. *)
Variable apply_target :
  opcode -> Target -> list (Aggregate PyVal) ->
  list (string * Aggregate PyVal) -> result PyVal.
Variable getattr_target : Target -> result PyVal.

Definition load_arg (env : gmap string PyVal) (x : FxArg) : result PyVal :=
  match x with
  | ArgNode ref =>
      match env !! ref with
      | Some v => Ok v
      | None => Raise (KeyError ref)
      end
  | ArgImm c => Ok (of_scalar c)
  end.

Definition load_kwarg (env : gmap string PyVal)
    (kv : string * Aggregate FxArg) : result (string * Aggregate PyVal) :=
  v ← map_aggregate (load_arg env) kv.2; Ok (kv.1, v).

(** The body of the generated [forward]: one statement per node, the
    output node being the [return]. *)
Fixpoint run_nodes (nodes : list Node) (inputs : list PyVal)
    (env : gmap string PyVal) : result (Aggregate PyVal) :=
  match nodes with
  | [] => Ok (Leaf py_none)
  | n :: rest =>
      match node_op n with
      | placeholder =>
          match inputs with
          | v :: inputs' =>
              run_nodes rest inputs' (<[node_name n := v]> env)
          | [] => Raise (TypeError "missing a required positional argument")
          end
      | output =>
          match node_args n with
          | a :: _ => map_aggregate (load_arg env) a
          | [] => Raise IndexError
          end
      | get_attr =>
          v ← getattr_target (node_target n);
          run_nodes rest inputs (<[node_name n := v]> env)
      | op =>
          args ← mapM (map_aggregate (load_arg env)) (node_args n);
          kwargs ← mapM (load_kwarg env) (node_kwargs n);
          v ← apply_target op (node_target n) args kwargs;
          run_nodes rest inputs (<[node_name n := v]> env)
      end
  end.

(** Calling the module: as many positional arguments as placeholders. *)
Definition run_graph (g : Graph) (inputs : list PyVal)
    : result (Aggregate PyVal) :=
  if decide (length inputs = length (filter is_placeholder g)) then
    run_nodes g inputs ∅
  else Raise (TypeError "wrong number of positional arguments").

(** The inputs that belong to the placeholders satisfying [keep]. *)
Fixpoint surviving_inputs (keep : Node -> bool) (g : Graph)
    (inputs : list PyVal) : list PyVal :=
  match g with
  | [] => []
  | n :: rest =>
      if decide (is_placeholder n) then
        match inputs with
        | v :: inputs' =>
            if keep n then v :: surviving_inputs keep rest inputs'
            else surviving_inputs keep rest inputs'
        | [] => []
        end
      else surviving_inputs keep rest inputs
  end.

End Interpreter.

(** ** Specification-side definitions *)

(** [c] is the copy of [n]: same kind, target and metadata, operands
    rewired through the node-identity mapping [env]. *)
Definition rewired (env : gmap string Node) (n c : Node) : Prop :=
  node_op c = node_op n /\
  node_target c = node_target n /\
  node_meta c = node_meta n /\
  mapM (map_arg (env_lookup env)) (node_args n) = Ok (node_args c) /\
  mapM (map_kwarg (env_lookup env)) (node_kwargs n) = Ok (node_kwargs c).

Definition image (env : gmap string Node) (n c : Node) : Prop :=
  env !! node_name n = Some c /\ rewired env n c.

(** The names that some node of [g] consumes. *)
Definition consumed (g : Graph) (ref : string) : Prop :=
  exists m, m ∈ g /\ ref ∈ all_input_nodes m.

(** The handle that lowering binds to a captured-state node, and the
    placeholder that it binds to an input node. *)
Definition captured_state_handle (n : Node) : option BufHandle :=
  tm ← node_meta n;
  match get_te_shapes (process_shape (tm_shape tm)), get_nnc_type (tm_dtype tm) with
  | Ok dims, Ok dtype => Some (Buf (node_name n) dims dtype)
  | _, _ => None
  end.

Definition input_placeholder (n : Node) : option te_Placeholder :=
  tm ← node_meta n;
  match get_te_shapes (tm_shape tm), get_nnc_type (tm_dtype tm) with
  | Ok dims, Ok dtype => Some (mkPlaceholder (node_name n) dtype dims)
  | _, _ => None
  end.

(** *** Which errors a computation can raise *)

Definition raises_only {A} (P : exn -> Prop) (m : result A) : Prop :=
  forall e, m = Raise e -> P e.

(** The errors of the two explicit [raise] statements of the driver. *)
Definition driver_error (e : exn) : Prop :=
  e = RuntimeError "kwargs nyi" \/ e = RuntimeError "not yet implemented".

Definition other_error (e : exn) : Prop := ¬ driver_error e.

(** ** Sample graphs *)

Definition meta_f32 (shape : list Z) : option TensorMeta :=
  Some (mkTensorMeta shape torch_float).

(** [def forward(x): return relu(x)]. *)
Definition relu_graph : Graph :=
  [ mkNode "x" placeholder (target_str "x") [] [] (meta_f32 [3%Z]);
    mkNode "relu" call_function (other_callable "relu")
      [Leaf (ArgNode "x")] [] (meta_f32 [3%Z]);
    mkNode "output" output (target_str "output")
      [Leaf (ArgNode "relu")] [] None ].

(** [def forward(a, b): return a], the second argument being unused. *)
Definition unused_arg_graph : Graph :=
  [ mkNode "a" placeholder (target_str "a") [] [] (meta_f32 [3%Z]);
    mkNode "b" placeholder (target_str "b") [] [] (meta_f32 [3%Z]);
    mkNode "output" output (target_str "output")
      [Leaf (ArgNode "a")] [] None ].

(** [def forward(a): t = sin(a); u = cos(t); return a]: [u] is dead on
    entry, [t] only once [u] is gone. *)
Definition dead_chain_graph : Graph :=
  [ mkNode "a" placeholder (target_str "a") [] [] (meta_f32 [3%Z]);
    mkNode "sin" call_function torch_sin [Leaf (ArgNode "a")] [] (meta_f32 [3%Z]);
    mkNode "cos" call_function torch_cos [Leaf (ArgNode "sin")] [] (meta_f32 [3%Z]);
    mkNode "output" output (target_str "output")
      [Leaf (ArgNode "a")] [] None ].

(** [def forward(a): return torch.gt(a, 0)]: the comparison yields a
    boolean tensor. *)
Definition comparison_graph : Graph :=
  [ mkNode "a" placeholder (target_str "a") [] [] (meta_f32 [3%Z]);
    mkNode "gt" call_function (other_callable "gt")
      [Leaf (ArgNode "a"); Leaf (ArgImm (PyInt 0))] []
      (Some (mkTensorMeta [3%Z] torch_bool));
    mkNode "output" output (target_str "output")
      [Leaf (ArgNode "gt")] [] None ].

(** [torch.sum(a, dim=0)], traced with its keyword argument. *)
Definition sum_kwargs_node : Node :=
  mkNode "sum_1" call_function (other_callable "sum")
    [Leaf (ArgNode "a")] [("dim", Leaf (ArgImm (PyInt 0)))] (meta_f32 []).

(** [len(a)]: a call of a function that yields no tensor, so that shape
    propagation records no tensor metadata for it. *)
Definition len_node : Node :=
  mkNode "len_1" call_function (other_callable "len")
    [Leaf (ArgNode "a")] [] None.

(** [def forward(self, x): return x * self.w], for a zero-rank parameter
    [w] stored at address 1. *)
Definition param_graph : Graph :=
  [ mkNode "x" placeholder (target_str "x") [] [] (meta_f32 [3%Z]);
    mkNode "w" get_attr (target_str "w") [] [] (meta_f32 []);
    mkNode "mul" call_function operator_mul
      [Leaf (ArgNode "x"); Leaf (ArgNode "w")] [] (meta_f32 [3%Z]);
    mkNode "output" output (target_str "output") [Leaf (ArgNode "mul")] [] None ].

Definition param_attrs : gmap string loc := {[ "w" := 1%positive ]}.

Definition param_heap : heap Z :=
  {[ 1%positive := mkTensor Z [] torch_float 2%Z ]}.

Definition param_mul : Tensor :=
  Lowered "aten::mul"
    [Leaf (TeBuf (Buf "x" [ExprInt 3] Dtype_Float));
     Leaf (TeBuf (Buf "w" [ExprInt 1] Dtype_Float))]
    [ExprInt 3] Dtype_Float.

Definition param_compiled : compiled :=
  mkCompiled
    (mkCodeGen
       (mkLoopNest [Tensor_stmt param_mul] [Leaf (TeBuf (Tensor_buf param_mul))])
       [BufferArg_buf (Buf "w" [ExprInt 1] Dtype_Float);
        BufferArg_placeholder (mkPlaceholder "x" Dtype_Float [ExprInt 3]);
        BufferArg_buf (Tensor_buf param_mul)])
    [2%positive] [1%positive].

Definition param_heap' : heap Z :=
  <[ 2%positive := mkTensor Z [3%Z] torch_float 0%Z ]> param_heap.

(** A stand-in for the generated code: every output is the sum of what
    the kernel reads. *)
Definition sum_kernel (cg : CodeGen) (ins : list Z) : list Z :=
  replicate (length (ln_output_bufs (cg_loopnest cg))) (foldr Z.add 0%Z ins).

(** A stand-in for the operator table of [te.lower]: element-wise binary
    operators take two operands, unary operators and the sum one; an
    operand is a buffer or a scalar, and any other call is refused. *)
Definition sample_arity (aten_str : string) : option nat :=
  if decide (aten_str ∈ ["aten::mul"; "aten::add"]) then Some 2%nat
  else if decide (aten_str ∈ ["aten::sum"; "aten::sin"; "aten::cos"; "aten::relu"])
  then Some 1%nat
  else None.

Definition is_leaf_operand (a : Aggregate TeArg) : bool :=
  match a with
  | Leaf _ => true
  | _ => false
  end.

Definition sample_lowering (aten_str : string) (args : list (Aggregate TeArg))
    (shape : list ExprHandle) (dtype : te_Dtype) : bool :=
  match sample_arity aten_str with
  | Some n => bool_decide (length args = n) && forallb is_leaf_operand args
  | None => false
  end.

(** A zero-rank input: [def forward(s): ...] called with a scalar tensor. *)
Definition scalar_input : Node :=
  mkNode "s" placeholder (target_str "s") [] [] (meta_f32 []).

(** ** Definitions for the further properties *)

(** The number of elements of a tensor of the given shape. *)
Definition numel (shape : list Z) : Z := foldr Z.mul 1%Z shape.

(** The dimension argument that [get_dim_args] builds for axis [i]. *)
Definition dim_arg_at (i : nat) (dim : Z) : DimArg :=
  mkDimArg (ExprInt dim) ("i" +:+ pretty i).

(** The buffer that a statement writes. *)
Definition stmt_defines (s : Stmt) : BufHandle :=
  match s with
  | Tensor_stmt t => Tensor_buf t
  | ExternalCall out _ _ _ => out
  end.

(** The node names mentioned in a tuple of arguments. *)
Definition args_nodes (l : list (Aggregate FxArg)) : list string :=
  mjoin (arg_nodes <$> l).

(** The nodes for which the driver writes an environment entry. *)
Definition binds (n : Node) : Prop :=
  node_op n = placeholder \/ node_op n = get_attr \/
  (node_op n = call_function /\ is_Some (node_meta n)).

#[global] Instance binds_dec n : Decision (binds n).
Proof. unfold binds. apply _. Defined.

(** What the driver needs of a node in order not to stop at it with an
    error of its own: a supported kind, metadata with a supported element
    type on inputs and captured state, no keyword arguments on a call with
    metadata, at least one argument on an output node. *)
Definition accepted (n : Node) : Prop :=
  match node_op n with
  | placeholder | get_attr =>
      exists tm dtype, node_meta n = Some tm /\ get_nnc_type (tm_dtype tm) = Ok dtype
  | call_function => is_Some (node_meta n) -> node_kwargs n = []
  | output => node_args n ≠ []
  | _ => False
  end.

(** The result nodes of an output node, after the unwrapping of a single
    nested tuple. *)
Definition output_args (o : Node) : list (Aggregate FxArg) :=
  match node_args o with
  | Tuple l :: _ => l
  | args => args
  end.

(** Where the buffer of an environment entry comes from: an input
    placeholder, a captured-state node, or a statement that writes it. *)
Definition buffer_origin (st : lowering_state) (b : BufHandle) : Prop :=
  b ∈ Placeholder_data <$> st_inputs st \/
  (exists n, n ∈ st_module_attrs st /\ captured_state_handle n = Some b) \/
  (exists s, s ∈ st_compute_stmts st /\ stmt_defines s = b).

Definition env_grounded (st : lowering_state) : Prop :=
  forall key b, st_env st !! key = Some b -> buffer_origin st b.

(** [def forward(a): n = len(a); return torch.mul(a, n)]: shape
    propagation gives [n] no tensor metadata. *)
Definition skipped_operand_graph : Graph :=
  [ mkNode "a" placeholder (target_str "a") [] [] (meta_f32 [3%Z]);
    len_node;
    mkNode "mul" call_function torch_mul
      [Leaf (ArgNode "a"); Leaf (ArgNode "len_1")] [] (meta_f32 [3%Z]);
    mkNode "output" output (target_str "output") [Leaf (ArgNode "mul")] [] None ].

(** [def forward(self, x): return (x * self.w,)], a tuple of one tensor. *)
Definition tuple_output : Node :=
  mkNode "output" output (target_str "output")
    [Tuple [Leaf (ArgNode "mul")]] [] None.

(** The driver's state on entry to the third node of
    [skipped_operand_graph]. *)
Definition skipped_operand_state : lowering_state :=
  mkState {[ "a" := Buf "a" [ExprInt 3] Dtype_Float ]} None
    [mkPlaceholder "a" Dtype_Float [ExprInt 3]] [] [].

Definition mul_len_node : Node :=
  mkNode "mul" call_function torch_mul
    [Leaf (ArgNode "a"); Leaf (ArgNode "len_1")] [] (meta_f32 [3%Z]).

(** The buffers named in the output list are grounded too. *)
Definition outs_grounded (st : lowering_state) : Prop :=
  match st_outs st with
  | Some (outs0, _) =>
      forall b, Leaf (TeBuf b) ∈ outs0 -> buffer_origin st b
  | None => True
  end.

(** [torch.ones_like(x)] on a zero-rank boolean tensor. *)
Definition ones_like_node : Node :=
  mkNode "ones_like" call_function (torch_ops_aten "ones_like")
    [Leaf (ArgNode "x")] [] (Some (mkTensorMeta [] torch_bool)).

(** * Theorems *)

(** ** Generic facts about the error monad and aggregates *)

Lemma Aggregate_ind' {A} (P : Aggregate A -> Prop) :
  (forall a, P (Leaf a)) ->
  (forall l, Forall P l -> P (Tuple l)) ->
  (forall l, Forall P l -> P (PyList l)) ->
  forall a, P a.
Proof.
  intros HL HT HP. fix IH 1. intros [a|l|l].
  - apply HL.
  - apply HT. induction l as [|x l IHl]; constructor; [apply IH|exact IHl].
  - apply HP. induction l as [|x l IHl]; constructor; [apply IH|exact IHl].
Qed.

Lemma mapM_result_ext {A B} (f1 f2 : A -> result B) (l : list A) (l' : list B) :
  Forall (fun x => forall y, f1 x = Ok y -> f2 x = Ok y) l ->
  mapM f1 l = Ok l' -> mapM f2 l = Ok l'.
Proof.
  intros HF. revert l'. induction HF as [|x l Hx _ IH]; intros l'; simpl; [done|].
  destruct (f1 x) as [y|e] eqn:E1; simpl; [|done].
  rewrite (Hx y eq_refl). simpl.
  destruct (mapM f1 l) as [ys|e] eqn:E2; simpl; [|done].
  by rewrite (IH ys eq_refl).
Qed.

Lemma mapM_result_total {A B} (f : A -> result B) (l : list A) :
  Forall (fun x => exists y, f x = Ok y) l -> exists l', mapM f l = Ok l'.
Proof.
  induction 1 as [|x l [y Hy] _ [ys Hys]]; simpl; [by eexists|].
  rewrite Hy. simpl. rewrite Hys. simpl. by eexists.
Qed.

Lemma mapM_result_length {A B} (f : A -> result B) (l : list A) (l' : list B) :
  mapM f l = Ok l' -> length l' = length l.
Proof.
  revert l'. induction l as [|x l IH]; intros l'; simpl.
  - by intros [= <-].
  - destruct (f x) as [y|e]; simpl; [|done].
    destruct (mapM f l) as [ys|e] eqn:E; simpl; [|done].
    intros [= <-]. simpl. by rewrite (IH ys).
Qed.

(** ** Integer immediates and shapes *)

Lemma ExprHandle_int_ok z : int32 z -> ExprHandle_int z = Ok (ExprInt z).
Proof. intros Hz. unfold ExprHandle_int. by rewrite decide_True. Qed.

Lemma ExprHandle_int_inv z e :
  ExprHandle_int z = Ok e -> int32 z /\ e = ExprInt z.
Proof. unfold ExprHandle_int. case_decide; [|done]. by intros [= <-]. Qed.

Lemma ExprHandle_int_raise z :
  ¬ int32 z -> exists msg, ExprHandle_int z = Raise (TypeError msg).
Proof. intros Hz. unfold ExprHandle_int. rewrite decide_False by done. by eexists. Qed.

Lemma to_expr_zero : to_expr (PyInt 0) = Ok (ExprInt 0).
Proof. reflexivity. Qed.


Lemma get_te_shapes_inv (shape : list Z) dims :
  get_te_shapes shape = Ok dims -> Forall int32 shape /\ dims = ExprInt <$> shape.
Proof.
  unfold get_te_shapes. revert dims.
  induction shape as [|z shape IH]; intros dims.
  - intros [= <-]. by split.
  - change (mapM ExprHandle_int (z :: shape))
      with (y ← ExprHandle_int z; ys ← mapM ExprHandle_int shape; mret (y :: ys)).
    destruct (ExprHandle_int z) as [y|e] eqn:Hz; [|done].
    destruct (mapM ExprHandle_int shape) as [ys|e] eqn:Hs; [|done].
    intros [= <-]. apply ExprHandle_int_inv in Hz as [Hz ->].
    destruct (IH ys eq_refl) as [Hall ->]. split; [by constructor|done].
Qed.

(** ** The broadcast index helper *)

Section IndexOrBroadcast.

Implicit Types (shape : list Z) (args out : list ExprHandle).

Lemma broadcast_entry_drop shape args idx j :
  broadcast_entry (drop idx shape) args j =
  match shape !! (idx + j)%nat, args !! j with
  | Some d, Some arg => Some (if decide (d = 1%Z) then ExprInt 0%Z else arg)
  | _, _ => None
  end.
Proof. unfold broadcast_entry. by rewrite lookup_drop. Qed.

Lemma index_or_broadcast_loop_spec shape args : forall idx out,
  exists tl,
    index_or_broadcast_loop shape idx args out = Ok (out ++ tl) /\
    length tl = (length shape - idx) `min` length args /\
    forall j, tl !! j = broadcast_entry (drop idx shape) args j.
Proof.
  induction args as [|arg rest IH]; intros idx out; simpl.
  - exists []. rewrite app_nil_r. split; [done|]. split; [simpl; lia|].
    intros j. rewrite broadcast_entry_drop. simpl.
    by destruct (shape !! (idx + j)%nat).
  - destruct (decide (length shape ≤ idx)%nat) as [Hge|Hlt].
    + destruct (IH (S idx) out) as (tl & Heq & Hlen & Hnth).
      exists tl. split; [done|]. split; [lia|].
      intros j. rewrite Hnth, !broadcast_entry_drop.
      rewrite !(lookup_ge_None_2 shape); [done|lia|lia].
    + destruct (lookup_lt_is_Some_2 shape idx) as [d Hd]; [lia|].
      rewrite Hd.
      destruct (decide (d = 1%Z)) as [Hone|Hne]; simpl.
      * destruct (IH (S idx) (out ++ [ExprInt 0%Z])) as (tl & Heq & Hlen & Hnth).
        exists (ExprInt 0%Z :: tl). rewrite Heq, <- app_assoc.
        split; [done|]. split; [simpl; lia|].
        intros [|j]; rewrite broadcast_entry_drop; simpl.
        -- rewrite Nat.add_0_r, Hd. by rewrite decide_True.
        -- rewrite Hnth, broadcast_entry_drop.
           by replace (idx + S j)%nat with (S idx + j)%nat by lia.
      * destruct (IH (S idx) (out ++ [arg])) as (tl & Heq & Hlen & Hnth).
        exists (arg :: tl). rewrite Heq, <- app_assoc.
        split; [done|]. split; [simpl; lia|].
        intros [|j]; rewrite broadcast_entry_drop; simpl.
        -- rewrite Nat.add_0_r, Hd. by rewrite decide_False.
        -- rewrite Hnth, broadcast_entry_drop.
           by replace (idx + S j)%nat with (S idx + j)%nat by lia.
Qed.

Lemma index_or_broadcast_ok shape args :
  exists out,
    index_or_broadcast shape args = Ok out /\
    length out = length shape `min` length args /\
    forall idx, out !! idx = broadcast_entry shape args idx.
Proof.
  destruct (index_or_broadcast_loop_spec shape args 0 []) as (tl & Heq & Hlen & Hnth).
  exists tl. split; [exact Heq|]. split; [rewrite Hlen; f_equal; lia|].
  intros idx. by rewrite Hnth, drop_0.
Qed.

(** C1. For every operand shape and every tuple of output indices,
    [index_or_broadcast] returns normally; its result has
    min(rank, number of indices) entries; entry [idx] is the index 0 when
    the operand's extent on axis [idx] is 1 and the output index itself
    otherwise, and axes at or past the operand's rank contribute nothing.
    Hence replacing the output index on an axis of extent 1 by any other
    index leaves the addressed operand element unchanged. *)
Theorem index_or_broadcast_correct shape args :
  (exists out,
     index_or_broadcast shape args = Ok out /\
     length out = length shape `min` length args /\
     forall idx, out !! idx = broadcast_entry shape args idx) /\
  (forall idx other,
     shape !! idx = Some 1%Z ->
     index_or_broadcast shape (<[idx := other]> args) =
     index_or_broadcast shape args).
Proof.
  split; [apply index_or_broadcast_ok|].
  intros idx other Hext.
  destruct (index_or_broadcast_ok shape args) as (o1 & -> & Hl1 & Hn1).
  destruct (index_or_broadcast_ok shape (<[idx := other]> args))
    as (o2 & -> & Hl2 & Hn2).
  f_equal. apply list_eq. intros j. rewrite Hn1, Hn2.
  unfold broadcast_entry.
  destruct (decide (j = idx)) as [->|Hne].
  - rewrite Hext.
    destruct (decide (idx < length args)%nat) as [Hlt|Hge].
    + rewrite list_lookup_insert_eq by done.
      destruct (lookup_lt_is_Some_2 args idx Hlt) as [a ->].
      by rewrite decide_True.
    + by rewrite list_insert_ge by lia.
  - by rewrite list_lookup_insert_ne.
Qed.

Lemma index_or_broadcast_correct_witness :
  index_or_broadcast [1%Z; 3%Z] [ExprVar "j"; ExprVar "i1"] =
  index_or_broadcast [1%Z; 3%Z] [ExprVar "i0"; ExprVar "i1"].
Proof.
  exact (proj2 (index_or_broadcast_correct [1%Z; 3%Z] [ExprVar "i0"; ExprVar "i1"])
           0%nat (ExprVar "j") eq_refl).
Defined.

Example index_or_broadcast_rank_mismatch :
  index_or_broadcast [4%Z] [ExprVar "i0"; ExprVar "i1"; ExprVar "i2"] =
  Ok [ExprVar "i0"].
Proof. reflexivity. Qed.

Example index_or_broadcast_mixed :
  index_or_broadcast [1%Z; 5%Z; 1%Z] [ExprVar "i0"; ExprVar "i1"; ExprVar "i2"] =
  Ok [ExprInt 0; ExprVar "i1"; ExprInt 0].
Proof. reflexivity. Qed.

End IndexOrBroadcast.

(** ** Graph truncation *)

Section Truncate.

Implicit Types (env : gmap string Node) (g : Graph).

Lemma env_lookup_mono env env' ref y :
  env ⊆ env' -> env_lookup env ref = Ok y -> env_lookup env' ref = Ok y.
Proof.
  intros Hsub. unfold env_lookup.
  destruct (env !! ref) as [c|] eqn:E; [|done].
  by rewrite (lookup_weaken _ _ _ _ E Hsub).
Qed.

Lemma map_arg_mono env env' a : forall a',
  env ⊆ env' ->
  map_arg (env_lookup env) a = Ok a' -> map_arg (env_lookup env') a = Ok a'.
Proof.
  unfold map_arg.
  induction a as [x|l IH|l IH] using Aggregate_ind'; intros a' Hsub; simpl.
  - destruct x as [ref|c]; simpl; [|done].
    destruct (env_lookup env ref) as [y|e] eqn:E; simpl; [|done].
    by rewrite (env_lookup_mono _ _ _ _ Hsub E).
  - destruct (mapM _ l) as [l'|e] eqn:E; simpl; [|done].
    erewrite mapM_result_ext; [done| |exact E].
    eapply Forall_impl; [exact IH|]. simpl. eauto.
  - destruct (mapM _ l) as [l'|e] eqn:E; simpl; [|done].
    erewrite mapM_result_ext; [done| |exact E].
    eapply Forall_impl; [exact IH|]. simpl. eauto.
Qed.

Lemma rewired_mono env env' n c :
  env ⊆ env' -> rewired env n c -> rewired env' n c.
Proof.
  intros Hsub (Ho & Ht & Hm & Ha & Hk).
  repeat split; try done.
  - eapply mapM_result_ext; [|exact Ha].
    apply Forall_forall. intros a _ a'. by apply map_arg_mono.
  - eapply mapM_result_ext; [|exact Hk].
    apply Forall_forall. intros [key a] _ [key' a']. unfold map_kwarg. simpl.
    destruct (map_arg (env_lookup env) a) as [v|e] eqn:E; simpl; [|done].
    by rewrite (map_arg_mono _ _ _ _ Hsub E).
Qed.

Lemma map_arg_total env a :
  (forall ref, ref ∈ arg_nodes a -> is_Some (env !! ref)) ->
  exists a', map_arg (env_lookup env) a = Ok a'.
Proof.
  unfold map_arg.
  induction a as [x|l IH|l IH] using Aggregate_ind'; intros Hrefs; simpl.
  - destruct x as [ref|c]; simpl; [|by eexists].
    destruct (Hrefs ref) as [c Hc]; [set_solver|].
    unfold env_lookup. rewrite Hc. simpl. by eexists.
  - destruct (mapM_result_total
                (map_aggregate (fun x => match x with
                   | ArgNode ref => ArgNode <$> env_lookup env ref
                   | ArgImm c => Ok (ArgImm c) end)) l) as [l' Hl'].
    + rewrite Forall_forall in IH. apply Forall_forall. intros a Ha.
      apply IH; [done|]. intros ref Href. apply Hrefs. simpl.
      apply list_elem_of_join. exists (arg_nodes a). split; [done|].
      by apply list_elem_of_fmap_2.
    + rewrite Hl'. simpl. by eexists.
  - destruct (mapM_result_total
                (map_aggregate (fun x => match x with
                   | ArgNode ref => ArgNode <$> env_lookup env ref
                   | ArgImm c => Ok (ArgImm c) end)) l) as [l' Hl'].
    + rewrite Forall_forall in IH. apply Forall_forall. intros a Ha.
      apply IH; [done|]. intros ref Href. apply Hrefs. simpl.
      apply list_elem_of_join. exists (arg_nodes a). split; [done|].
      by apply list_elem_of_fmap_2.
    + rewrite Hl'. simpl. by eexists.
Qed.

Lemma node_copy_spec g node env :
  (forall ref, ref ∈ all_input_nodes node -> is_Some (env !! ref)) ->
  exists c,
    node_copy g node (env_lookup env) = Ok (c, g ++ [c]) /\
    node_op c = node_op node /\
    node_target c = node_target node /\
    node_meta c = node_meta node /\
    mapM (map_arg (env_lookup env)) (node_args node) = Ok (node_args c) /\
    mapM (map_kwarg (env_lookup env)) (node_kwargs node) = Ok (node_kwargs c).
Proof.
  intros Hrefs. unfold node_copy.
  destruct (mapM_result_total (map_arg (env_lookup env)) (node_args node))
    as [args Hargs].
  { apply Forall_forall. intros a Ha. apply map_arg_total.
    intros ref Href. apply Hrefs. unfold all_input_nodes.
    apply elem_of_app. left. apply list_elem_of_join.
    exists (arg_nodes a). split; [done|]. by apply list_elem_of_fmap_2. }
  destruct (mapM_result_total (map_kwarg (env_lookup env)) (node_kwargs node))
    as [kwargs Hkwargs].
  { apply Forall_forall. intros [key a] Ha. unfold map_kwarg. simpl.
    destruct (map_arg_total env a) as [a' Ha'].
    - intros ref Href. apply Hrefs. unfold all_input_nodes.
      apply elem_of_app. right. apply list_elem_of_join.
      exists (arg_nodes a). split; [done|].
      by apply (list_elem_of_fmap_2 (fun kv => arg_nodes kv.2) _ (key, a)).
    - rewrite Ha'. simpl. by eexists. }
  rewrite Hargs. simpl. rewrite Hkwargs. simpl.
  eexists. split; [reflexivity|]. by simpl.
Qed.

Lemma truncate_loop_spec (nodes : list Node) : forall k cnt env g (seen : list string),
  (cnt < k <= cnt + Z.of_nat (length nodes))%Z ->
  topological_from seen nodes ->
  (forall ref, ref ∈ seen -> is_Some (env !! ref)) ->
  NoDup (node_name <$> nodes) ->
  (forall n, n ∈ nodes -> env !! node_name n = None) ->
  exists front c_k out env',
    truncate_loop nodes k cnt env g = Ok (g ++ (front ++ [c_k]) ++ [out], env') /\
    env ⊆ env' /\
    Forall2 (image env') (take (Z.to_nat (k - cnt)) nodes) (front ++ [c_k]) /\
    node_op out = output /\
    node_args out = [Leaf (ArgNode (node_name c_k))].
Proof.
  induction nodes as [|node rest IH]; intros k cnt env g seen Hk Htopo Hseen Hnd Hfresh.
  { simpl in Hk. lia. }
  simpl in Htopo. destruct Htopo as [Hrefs Htopo].
  rewrite fmap_cons in Hnd. apply NoDup_cons in Hnd as [Hnotin Hnd].
  destruct (node_copy_spec g node env) as (c & Hcopy & Ho & Ht & Hm & Ha & Hkw).
  { intros ref Href. rewrite Forall_forall in Hrefs. apply Hseen, Hrefs, Href. }
  assert (Henv : env ⊆ <[node_name node := c]> env).
  { apply insert_subseteq, Hfresh. left. }
  assert (Himg : image (<[node_name node := c]> env) node c).
  { split; [apply lookup_insert_eq|].
    eapply rewired_mono; [exact Henv|]. by repeat split. }
  simpl. rewrite Hcopy. simpl.
  destruct (decide ((cnt + 1)%Z = k)) as [Hlast|Hmore].
  - rewrite lookup_insert_eq.
    exists [], c, (graph_output (g ++ [c]) c).1, (<[node_name node := c]> env).
    split; [by rewrite <- app_assoc|]. split; [done|].
    replace (Z.to_nat (k - cnt)) with 1%nat by lia. simpl. rewrite take_0.
    split; [|done]. constructor; [exact Himg|constructor].
  - destruct (IH k (cnt + 1)%Z (<[node_name node := c]> env) (g ++ [c])
                (node_name node :: seen))
      as (front & c_k & out & env' & Hloop & Hsub & Himgs & Hout & Hargs).
    + simpl in Hk. lia.
    + exact Htopo.
    + intros ref [->|Href]%elem_of_cons.
      * rewrite lookup_insert_eq. by eexists.
      * destruct (Hseen ref Href) as [v Hv]. exists v.
        by eapply lookup_weaken.
    + exact Hnd.
    + intros n Hn. rewrite lookup_insert_ne.
      * apply Hfresh. by right.
      * intros Heq. apply Hnotin. rewrite Heq. by apply list_elem_of_fmap_2.
    + exists (c :: front), c_k, out, env'.
      split; [rewrite Hloop; by rewrite <- !app_assoc|].
      split; [by etrans|].
      replace (Z.to_nat (k - cnt)) with (S (Z.to_nat (k - (cnt + 1)))) by lia.
      simpl. split; [|done]. constructor; [|exact Himgs].
      destruct Himg as [Hl Hr]. split.
      -- by eapply lookup_weaken.
      -- by eapply rewired_mono.
Qed.

(** The claim as written fails: truncating the three-node graph of
    [relu] to its first two nodes gives three nodes, not two. *)
Lemma truncate_node_count_counterexample :
  exists g', truncate relu_graph 2 = Ok g' /\ length g' ≠ 2%nat.
Proof. eexists. split; [vm_compute; reflexivity|]. simpl. lia. Qed.

(** C3 (amended). For a traced graph of n nodes and 1 <= k <= n,
    [truncate] succeeds with a graph of k + 1 nodes: the copies of the
    first k original nodes in definition order, each with its operand
    references rewired through the node-identity mapping, followed by one
    appended output node whose only argument is the copy of the k-th
    original node. *)
Theorem truncate_copies_then_output g k :
  traced g -> (1 <= k <= Z.of_nat (length g))%Z ->
  exists copies c_k out env,
    truncate g k = Ok (copies ++ [out]) /\
    length (copies ++ [out]) = S (Z.to_nat k) /\
    Forall2 (image env) (take (Z.to_nat k) g) copies /\
    last copies = Some c_k /\
    node_op out = output /\
    node_args out = [Leaf (ArgNode (node_name c_k))].
Proof.
  intros [Hnd Htopo] Hk.
  destruct (truncate_loop_spec g k 0%Z ∅ [] [])
    as (front & c_k & out & env' & Hloop & _ & Himgs & Hout & Hargs);
    [lia|done|set_solver|done|by intros; apply lookup_empty|].
  rewrite Z.sub_0_r in Himgs.
  exists (front ++ [c_k]), c_k, out, env'.
  unfold truncate. rewrite Hloop. simpl.
  split; [done|]. split.
  - rewrite length_app. simpl.
    rewrite <- (Forall2_length _ _ _ Himgs), length_take. lia.
  - split; [done|]. split; [apply last_snoc|done].
Qed.

Lemma truncate_copies_then_output_witness :
  exists copies c_k out env,
    truncate relu_graph 2 = Ok (copies ++ [out]) /\
    length (copies ++ [out]) = 3%nat /\
    Forall2 (image env) (take 2 relu_graph) copies /\
    last copies = Some c_k /\
    node_op out = output /\
    node_args out = [Leaf (ArgNode (node_name c_k))].
Proof.
  apply (truncate_copies_then_output relu_graph 2).
  - apply (bool_decide_unpack (traced relu_graph)). vm_compute. exact I.
  - simpl. lia.
Defined.

End Truncate.

(** ** Dead-node elimination *)

Section RemoveArgs.

Implicit Types (g : Graph) (n m : Node).

Lemma topological_inputs_earlier g : forall seen i m ref,
  topological_from seen g -> g !! i = Some m -> ref ∈ all_input_nodes m ->
  ref ∈ seen \/ ref ∈ node_name <$> take i g.
Proof.
  induction g as [|n g IH]; intros seen i m ref Htopo Hi Href; [done|].
  destruct Htopo as [Hrefs Htopo]. destruct i as [|i]; simpl in *.
  - injection Hi as <-. left. rewrite Forall_forall in Hrefs. by apply Hrefs.
  - destruct (IH _ _ _ _ Htopo Hi Href) as [[->|Hs]%elem_of_cons|Hin].
    + right. left.
    + by left.
    + right. by right.
Qed.

(** In a traced graph nobody at or before a node consumes it. *)
Lemma traced_no_early_user pre n rest m :
  traced (pre ++ n :: rest) -> m ∈ pre ++ [n] ->
  node_name n ∉ all_input_nodes m.
Proof.
  intros [Hnd Htopo] Hm Href.
  rewrite fmap_app, fmap_cons in Hnd.
  apply NoDup_app in Hnd as (_ & Hdisj & _).
  apply list_elem_of_lookup in Hm as [i Hi].
  assert (Hlt : (i < length (pre ++ [n]))%nat) by (by eapply lookup_lt_Some).
  rewrite length_app in Hlt. simpl in Hlt.
  assert (Hg : (pre ++ n :: rest) !! i = Some m).
  { rewrite (assoc_L (++) pre [n] rest : pre ++ n :: rest = (pre ++ [n]) ++ rest).
    rewrite lookup_app_l; [done|]. rewrite length_app. simpl. lia. }
  destruct (topological_inputs_earlier _ _ _ _ _ Htopo Hg Href) as [Hs|Hin].
  - by apply elem_of_nil in Hs.
  - rewrite take_app_le in Hin by lia.
    apply (Hdisj (node_name n)).
    + apply list_elem_of_fmap in Hin as (m' & Heq & Hm').
      rewrite Heq. apply list_elem_of_fmap_2.
      by apply (subseteq_take i pre).
    + left.
Qed.

Lemma filter_nil_intro {A} (P : A -> Prop) `{!forall x, Decision (P x)}
    (l : list A) :
  (forall x, x ∈ l -> ¬ P x) -> filter P l = [].
Proof.
  induction l as [|x l IH]; intros Hall; [done|].
  rewrite filter_cons_False; [|apply Hall; left].
  apply IH. intros y Hy. apply Hall. by right.
Qed.

Lemma filter_id {A} (P : A -> Prop) `{!forall x, Decision (P x)}
    (l : list A) :
  (forall x, x ∈ l -> P x) -> filter P l = l.
Proof.
  induction l as [|x l IH]; intros Hall; [done|].
  rewrite filter_cons_True; [|apply Hall; left].
  f_equal. apply IH. intros y Hy. apply Hall. by right.
Qed.

(** At the moment the loop reaches [n], its users are the original ones. *)
Lemma users_at_visit g pre n rest :
  g = pre ++ n :: rest -> traced g ->
  users (filter (fun m => ¬ dead g m) pre ++ n :: rest) n = users g n /\
  users g n = filter (fun m => node_name n ∈ all_input_nodes m) rest.
Proof.
  intros -> Htr. unfold users.
  rewrite !(filter_app (fun m => node_name n ∈ all_input_nodes m)).
  rewrite !(filter_cons (fun m => node_name n ∈ all_input_nodes m)).
  assert (Hpre : filter (fun m => node_name n ∈ all_input_nodes m) pre = []).
  { apply filter_nil_intro. intros m Hm.
    eapply traced_no_early_user; [exact Htr|]. apply elem_of_app. by left. }
  assert (Hn : node_name n ∉ all_input_nodes n).
  { eapply traced_no_early_user; [exact Htr|]. apply elem_of_app. right. left. }
  rewrite Hpre. rewrite (filter_nil_intro _ (filter _ pre)).
  - by rewrite decide_False.
  - intros m [_ Hm]%list_elem_of_filter.
    eapply traced_no_early_user; [exact Htr|]. apply elem_of_app. by left.
Qed.

Lemma erase_at_visit g pre n rest :
  g = pre ++ n :: rest -> traced g -> dead g n ->
  erase_node (filter (fun m => ¬ dead g m) pre ++ n :: rest) n =
  Ok (filter (fun m => ¬ dead g m) pre ++ rest).
Proof.
  intros Hg Htr [Hdead _]. unfold erase_node.
  destruct (users_at_visit g pre n rest Hg Htr) as [-> _]. rewrite Hdead.
  subst g. destruct Htr as [Hnd _].
  rewrite fmap_app, fmap_cons in Hnd.
  apply NoDup_app in Hnd as (_ & Hdisj & Hnd').
  apply NoDup_cons in Hnd' as [Hrest _].
  f_equal. rewrite (filter_app (fun m => node_name m ≠ node_name n)).
  rewrite (filter_cons (fun m => node_name m ≠ node_name n)).
  rewrite decide_False by (by intros H; apply H).
  f_equal.
  - apply filter_id. intros m [_ Hm]%list_elem_of_filter Heq.
    apply (Hdisj (node_name n)); [|left].
    rewrite <- Heq. by apply list_elem_of_fmap_2.
  - apply filter_id. intros m Hm Heq. apply Hrest.
    rewrite <- Heq. by apply list_elem_of_fmap_2.
Qed.

Lemma remove_args_loop_spec g : forall todo pre,
  g = pre ++ todo -> traced g ->
  remove_args_loop todo (filter (fun m => ¬ dead g m) pre ++ todo) =
  Ok (filter (fun m => ¬ dead g m) g).
Proof.
  induction todo as [|n rest IH]; intros pre Hg Htr.
  - simpl. by rewrite Hg, !app_nil_r.
  - simpl.
    destruct (users_at_visit g pre n rest Hg Htr) as [Hu _].
    assert (Hg' : g = (pre ++ [n]) ++ rest) by (by rewrite <- app_assoc).
    specialize (IH (pre ++ [n]) Hg' Htr).
    rewrite (filter_app (fun m => ¬ dead g m)) in IH.
    rewrite (filter_cons (fun m => ¬ dead g m)), filter_nil in IH.
    destruct (decide (length (users (filter (fun m => ¬ dead g m) pre ++ n :: rest) n) = 0%nat
                      /\ node_op n ≠ output)) as [[Hlen Hop]|Hlive].
    + assert (Hdead : dead g n).
      { split; [|done]. rewrite <- Hu. by apply length_zero_iff_nil. }
      rewrite (erase_at_visit g pre n rest Hg Htr Hdead). simpl.
      rewrite decide_False in IH by (by intros H; apply H).
      by rewrite app_nil_r in IH.
    + rewrite decide_True in IH.
      * by rewrite <- app_assoc in IH.
      * intros [Hd Hop]. apply Hlive. split; [|done].
        rewrite Hu, Hd. done.
Qed.

(** [remove_args] drops exactly the nodes that are dead in the graph it
    is given. *)
Lemma remove_args_filter g :
  traced g -> remove_args g = Ok (filter (fun m => ¬ dead g m) g).
Proof. intros Htr. exact (remove_args_loop_spec g g [] eq_refl Htr). Qed.

End RemoveArgs.

Section RemoveArgsRun.

Context (PyVal : Type) (py_none : PyVal) (of_scalar : PyScalar -> PyVal).
Context (apply_target :
           opcode -> Target -> list (Aggregate PyVal) ->
           list (string * Aggregate PyVal) -> result PyVal).
Context (getattr_target : Target -> result PyVal).

Abbreviation run := (run_nodes PyVal py_none of_scalar apply_target getattr_target).
Abbreviation call := (run_graph PyVal py_none of_scalar apply_target getattr_target).
Abbreviation load := (load_arg PyVal of_scalar).
Abbreviation loadkw := (load_kwarg PyVal of_scalar).
Abbreviation surviving := (surviving_inputs PyVal).

Implicit Types (g : Graph) (env : gmap string PyVal).

Lemma mapM_result_congr {A B} (f1 f2 : A -> result B) (l : list A) :
  Forall (fun x => f1 x = f2 x) l -> mapM f1 l = mapM f2 l.
Proof.
  induction 1 as [|x l Hx _ IH]; simpl; [done|]. by rewrite Hx, IH.
Qed.

Lemma load_agree env env' a :
  (forall ref, ref ∈ arg_nodes a -> env' !! ref = env !! ref) ->
  map_aggregate (load env') a = map_aggregate (load env) a.
Proof.
  induction a as [x|l IH|l IH] using Aggregate_ind'; intros Hrefs; simpl.
  - destruct x as [ref|c]; simpl; [|done]. rewrite Hrefs; [done|]. simpl. left.
  - f_equal. apply mapM_result_congr. rewrite Forall_forall in IH.
    apply Forall_forall. intros a Ha. apply IH; [done|].
    intros ref Href. apply Hrefs. simpl. apply list_elem_of_join.
    exists (arg_nodes a). split; [done|]. by apply list_elem_of_fmap_2.
  - f_equal. apply mapM_result_congr. rewrite Forall_forall in IH.
    apply Forall_forall. intros a Ha. apply IH; [done|].
    intros ref Href. apply Hrefs. simpl. apply list_elem_of_join.
    exists (arg_nodes a). split; [done|]. by apply list_elem_of_fmap_2.
Qed.

Lemma load_args_agree env env' n :
  (forall ref, ref ∈ all_input_nodes n -> env' !! ref = env !! ref) ->
  mapM (map_aggregate (load env')) (node_args n) =
  mapM (map_aggregate (load env)) (node_args n) /\
  mapM (loadkw env') (node_kwargs n) =
  mapM (loadkw env) (node_kwargs n).
Proof.
  intros Hrefs. split; apply mapM_result_congr, Forall_forall.
  - intros a Ha. apply load_agree. intros ref Href. apply Hrefs.
    unfold all_input_nodes. apply elem_of_app. left. apply list_elem_of_join.
    exists (arg_nodes a). split; [done|]. by apply list_elem_of_fmap_2.
  - intros [key a] Ha. unfold load_kwarg. simpl.
    rewrite (load_agree env env' a); [done|]. intros ref Href. apply Hrefs.
    unfold all_input_nodes. apply elem_of_app. right. apply list_elem_of_join.
    exists (arg_nodes a). split; [done|].
    by apply (list_elem_of_fmap_2 (fun kv => arg_nodes kv.2) _ (key, a)).
Qed.

Lemma dead_not_consumed g n : dead g n -> ¬ consumed g (node_name n).
Proof.
  intros [Hu _] (m & Hm & Href). unfold users in Hu.
  exact (filter_nil_not_elem_of _ _ m Hu Href Hm).
Qed.

Lemma agree_insert g env env' (key : string) v :
  (forall ref, consumed g ref -> env' !! ref = env !! ref) ->
  forall ref, consumed g ref ->
    <[key := v]> env' !! ref = <[key := v]> env !! ref.
Proof.
  intros Hagree ref Href. rewrite !lookup_insert. case_decide; [done|].
  by apply Hagree.
Qed.

Lemma agree_insert_dead g env env' n v :
  dead g n ->
  (forall ref, consumed g ref -> env' !! ref = env !! ref) ->
  forall ref, consumed g ref ->
    env' !! ref = <[node_name n := v]> env !! ref.
Proof.
  intros Hdead Hagree ref Href. rewrite lookup_insert_ne; [by apply Hagree|].
  intros <-. by eapply dead_not_consumed.
Qed.

Lemma run_live_nodes g (nodes : list Node) : forall inputs env env' v,
  (forall m, m ∈ nodes -> m ∈ g) ->
  (forall ref, consumed g ref -> env' !! ref = env !! ref) ->
  run nodes inputs env = Ok v ->
  run (filter (fun m => ¬ dead g m) nodes)
      (surviving (fun m => bool_decide (¬ dead g m)) nodes inputs) env' = Ok v.
Proof.
  induction nodes as [|n rest IH]; intros inputs env env' v Hsub Hagree Hrun;
    [exact Hrun|].
  assert (Hrest : forall m, m ∈ rest -> m ∈ g)
    by (intros m Hm; apply Hsub; by right).
  assert (Hn : forall ref, ref ∈ all_input_nodes n -> env' !! ref = env !! ref).
  { intros ref Href. apply Hagree. exists n. split; [apply Hsub; left|done]. }
  rewrite (filter_cons (fun m => ¬ dead g m)).
  simpl in Hrun. simpl.
  destruct (decide (¬ dead g n)) as [Hlive|Hdead].
  - (* the node survives: both runs execute it *)
    rewrite (bool_decide_eq_true_2 _ Hlive). simpl.
    destruct (load_args_agree env env' n Hn) as [Hargs Hkwargs].
    destruct (decide (is_placeholder n)) as [Hp|Hp]; unfold is_placeholder in Hp;
      destruct (node_op n) eqn:Hop; try done; simpl.
    + destruct inputs as [|x inputs]; [done|].
      rewrite ?decide_True by done.
      eapply IH; [done| |exact Hrun]. by apply agree_insert.
    + rewrite ?decide_False by done. rewrite Hargs, Hkwargs.
      destruct (mapM _ (node_args n)) as [args|e]; simpl in *; [|done].
      destruct (mapM _ (node_kwargs n)) as [kwargs|e]; simpl in *; [|done].
      destruct (apply_target _ _ _ _) as [r|e]; simpl in *; [|done].
      eapply IH; [done| |exact Hrun]. by apply agree_insert.
    + rewrite ?decide_False by done. rewrite Hargs, Hkwargs.
      destruct (mapM _ (node_args n)) as [args|e]; simpl in *; [|done].
      destruct (mapM _ (node_kwargs n)) as [kwargs|e]; simpl in *; [|done].
      destruct (apply_target _ _ _ _) as [r|e]; simpl in *; [|done].
      eapply IH; [done| |exact Hrun]. by apply agree_insert.
    + rewrite ?decide_False by done. rewrite Hargs, Hkwargs.
      destruct (mapM _ (node_args n)) as [args|e]; simpl in *; [|done].
      destruct (mapM _ (node_kwargs n)) as [kwargs|e]; simpl in *; [|done].
      destruct (apply_target _ _ _ _) as [r|e]; simpl in *; [|done].
      eapply IH; [done| |exact Hrun]. by apply agree_insert.
    + rewrite ?decide_False by done.
      destruct (getattr_target _) as [r|e]; simpl in *; [|done].
      eapply IH; [done| |exact Hrun]. by apply agree_insert.
    + destruct (node_args n) as [|a args] eqn:Ha; [done|].
      rewrite (load_agree env env' a); [done|].
      intros ref Href. apply Hn. unfold all_input_nodes. rewrite Ha.
      simpl. set_solver.
  - (* the node was erased: only the original run executes it *)
    apply dec_stable in Hdead.
    rewrite (bool_decide_eq_false_2 (¬ dead g n)) by (by intros H; apply H).
    pose proof (agree_insert_dead g env env' n) as Hins.
    destruct Hdead as [Hu Hnot]. assert (Hd : dead g n) by done.
    destruct (decide (is_placeholder n)) as [Hp|Hp]; unfold is_placeholder in Hp;
      destruct (node_op n) eqn:Hop; try done; simpl.
    + destruct inputs as [|x inputs]; [done|].
      rewrite ?decide_True by done.
      eapply IH; [done| |exact Hrun]. by apply Hins.
    + rewrite ?decide_False by done.
      destruct (mapM _ (node_args n)) as [args|e]; simpl in *; [|done].
      destruct (mapM _ (node_kwargs n)) as [kwargs|e]; simpl in *; [|done].
      destruct (apply_target _ _ _ _) as [r|e]; simpl in *; [|done].
      eapply IH; [done| |exact Hrun]. by apply Hins.
    + rewrite ?decide_False by done.
      destruct (mapM _ (node_args n)) as [args|e]; simpl in *; [|done].
      destruct (mapM _ (node_kwargs n)) as [kwargs|e]; simpl in *; [|done].
      destruct (apply_target _ _ _ _) as [r|e]; simpl in *; [|done].
      eapply IH; [done| |exact Hrun]. by apply Hins.
    + rewrite ?decide_False by done.
      destruct (mapM _ (node_args n)) as [args|e]; simpl in *; [|done].
      destruct (mapM _ (node_kwargs n)) as [kwargs|e]; simpl in *; [|done].
      destruct (apply_target _ _ _ _) as [r|e]; simpl in *; [|done].
      eapply IH; [done| |exact Hrun]. by apply Hins.
    + rewrite ?decide_False by done.
      destruct (getattr_target _) as [r|e]; simpl in *; [|done].
      eapply IH; [done| |exact Hrun]. by apply Hins.
Qed.

Lemma surviving_inputs_length g (nodes : list Node) : forall inputs,
  length inputs = length (filter is_placeholder nodes) ->
  length (surviving (fun m => bool_decide (¬ dead g m)) nodes inputs) =
  length (filter is_placeholder (filter (fun m => ¬ dead g m) nodes)).
Proof.
  induction nodes as [|n rest IH]; intros inputs Hlen; [done|].
  rewrite (filter_cons is_placeholder) in Hlen.
  rewrite (filter_cons (fun m => ¬ dead g m)). simpl.
  destruct (decide (is_placeholder n)) as [Hp|Hp].
  - destruct inputs as [|x inputs]; [done|]. simpl in Hlen.
    destruct (decide (¬ dead g n)) as [Hlive|Hdead].
    + rewrite (bool_decide_eq_true_2 _ Hlive).
      rewrite (filter_cons is_placeholder), decide_True by done.
      simpl. f_equal. apply IH. lia.
    + rewrite (bool_decide_eq_false_2 _ Hdead). apply IH. lia.
  - destruct (decide (¬ dead g n)) as [Hlive|Hdead].
    + rewrite (filter_cons is_placeholder), decide_False by done. by apply IH.
    + by apply IH.
Qed.

(** C4 (amended). On a traced graph, [remove_args] removes exactly the
    nodes that have no consumer on entry and are not the output node, in
    one forward pass: a node that loses its last consumer only because
    that consumer was erased is kept.  Whenever the original graph
    returns a value, the resulting graph returns the same value when it is
    called with the inputs of the placeholders that survive. *)
Theorem remove_args_single_pass :
  (forall g, traced g ->
     remove_args g = Ok (filter (fun m => ¬ dead g m) g) /\
     forall inputs v,
       run_graph PyVal py_none of_scalar apply_target getattr_target
         g inputs = Ok v ->
       run_graph PyVal py_none of_scalar apply_target getattr_target
         (filter (fun m => ¬ dead g m) g)
         (surviving_inputs PyVal (fun m => bool_decide (¬ dead g m)) g inputs)
       = Ok v) /\
  (exists g0 g1 n,
     traced g0 /\ remove_args g0 = Ok g1 /\ n ∈ g1 /\ dead g1 n).
Proof.
  split.
  - intros g Htr. split; [by apply remove_args_filter|].
    intros inputs v. unfold run_graph.
    destruct (decide (length inputs = length (filter is_placeholder g)))
      as [Hlen|]; [|done].
    intros Hrun.
    rewrite decide_True by (by apply surviving_inputs_length).
    by eapply run_live_nodes.
  - exists dead_chain_graph. eexists.
    exists (mkNode "sin" call_function torch_sin [Leaf (ArgNode "a")] []
              (meta_f32 [3%Z])).
    split; [apply (bool_decide_unpack (traced dead_chain_graph)); vm_compute; exact I|].
    split; [vm_compute; reflexivity|].
    split; [right; left|].
    apply (bool_decide_unpack (dead _ _)). vm_compute. exact I.
Qed.

End RemoveArgsRun.

(** The claim as written fails when an unused placeholder is erased: the
    original module takes two arguments and returns the first, the
    resulting module rejects the same two arguments. *)
Lemma remove_args_same_inputs_counterexample :
  let run := run_graph Z 0%Z (fun _ => 0%Z)
               (fun _ _ _ _ => Raise (RuntimeError "unused"))
               (fun _ => Raise (RuntimeError "unused")) in
  exists g',
    remove_args unused_arg_graph = Ok g' /\
    run unused_arg_graph [1%Z; 2%Z] = Ok (Leaf 1%Z) /\
    raises (run g' [1%Z; 2%Z]).
Proof.
  eexists. split; [vm_compute; reflexivity|]. split; [vm_compute; reflexivity|].
  eexists. vm_compute. reflexivity.
Qed.

Lemma remove_args_single_pass_witness :
  let keep := fun m => ¬ dead dead_chain_graph m in
  run_graph Z 0%Z (fun _ => 0%Z) (fun _ _ _ _ => Ok 7%Z)
    (fun _ => Raise (RuntimeError "unused"))
    (filter keep dead_chain_graph)
    (surviving_inputs Z (fun m => bool_decide (keep m)) dead_chain_graph [5%Z])
  = Ok (Leaf 5%Z).
Proof.
  apply (proj1 (remove_args_single_pass Z 0%Z (fun _ => 0%Z)
                  (fun _ _ _ _ => Ok 7%Z)
                  (fun _ => Raise (RuntimeError "unused"))) dead_chain_graph).
  - apply (bool_decide_unpack (traced dead_chain_graph)). vm_compute. exact I.
  - vm_compute. reflexivity.
Defined.

(** ** Lowering rules and the driver's treatment of call nodes *)

Section Lowering.

Context (nnc_has_lowering :
  string -> list (Aggregate TeArg) -> list ExprHandle -> te_Dtype -> bool).

Abbreviation lower_call := (lower_function nnc_has_lowering).
Abbreviation step := (lower_node nnc_has_lowering).
Abbreviation steps := (lower_nodes nnc_has_lowering).

Implicit Types (g : Graph) (st : lowering_state) (node : Node).

(** C8. [torch.ops.aten.dot] is lowered by [dot_lower], which chains two
    generic lowerings: [aten::mul] of the operands over the first
    operand's shape and element type, then [aten::sum] over the buffer of
    that product; it returns the buffer of the sum together with exactly
    the two statements, the product's first.  Every result of the rule has
    this form, and the rule returns it whenever the two shapes and the
    element type are representable and [te.lower] accepts the two calls. *)
Theorem dot_lower_mul_then_sum name out_shape
    (inp_shapes : list (Aggregate ShapeDtype)) (args : list (Aggregate TeArg)) :
  lowering_functions nnc_has_lowering (torch_ops_aten "dot") =
    Some (dot_lower nnc_has_lowering) /\
  (forall r,
     dot_lower nnc_has_lowering name out_shape inp_shapes args = Ok r ->
     exists shape dtype rest mul_shape sum_shape te_dtype mul_te res,
       inp_shapes = Leaf (Some (shape, dtype)) :: rest /\
       get_te_shapes shape = Ok mul_shape /\
       get_te_shapes out_shape = Ok sum_shape /\
       get_nnc_type dtype = Ok te_dtype /\
       mul_te = Lowered "aten::mul" args mul_shape te_dtype /\
       te_lower nnc_has_lowering "aten::mul" args mul_shape te_dtype = Ok mul_te /\
       res = Lowered "aten::sum" [Leaf (TeBuf (Tensor_buf mul_te))]
               sum_shape te_dtype /\
       te_lower nnc_has_lowering "aten::sum" [Leaf (TeBuf (Tensor_buf mul_te))]
         sum_shape te_dtype = Ok res /\
       r = OutPair (Tensor_buf res) [Tensor_stmt mul_te; Tensor_stmt res]) /\
  (forall shape dtype rest mul_shape sum_shape te_dtype,
     inp_shapes = Leaf (Some (shape, dtype)) :: rest ->
     get_te_shapes shape = Ok mul_shape ->
     get_te_shapes out_shape = Ok sum_shape ->
     get_nnc_type dtype = Ok te_dtype ->
     let mul_te := Lowered "aten::mul" args mul_shape te_dtype in
     let res := Lowered "aten::sum" [Leaf (TeBuf (Tensor_buf mul_te))]
                  sum_shape te_dtype in
     nnc_has_lowering "aten::mul" args mul_shape te_dtype = true ->
     nnc_has_lowering "aten::sum" [Leaf (TeBuf (Tensor_buf mul_te))]
       sum_shape te_dtype = true ->
     dot_lower nnc_has_lowering name out_shape inp_shapes args =
       Ok (OutPair (Tensor_buf res) [Tensor_stmt mul_te; Tensor_stmt res])).
Proof.
  split; [done|]. split.
  - intros r. unfold dot_lower.
    destruct inp_shapes as [|[[[shape dtype]|]|l|l] rest]; simpl; try done.
    destruct (get_te_shapes shape) as [mul_shape|e] eqn:Hms; simpl; [|done].
    destruct (get_nnc_type dtype) as [te_dtype|e] eqn:Hty; simpl; [|done].
    destruct (te_lower nnc_has_lowering "aten::mul" args mul_shape te_dtype)
      as [mul_te|e] eqn:Hmul; simpl; [|done].
    destruct (get_te_shapes out_shape) as [sum_shape|e] eqn:Hss; simpl; [|done].
    destruct (te_lower nnc_has_lowering "aten::sum" _ sum_shape te_dtype)
      as [res|e] eqn:Hsum; simpl; [|done].
    intros [= <-].
    assert (Hm : mul_te = Lowered "aten::mul" args mul_shape te_dtype).
    { unfold te_lower in Hmul. destruct (nnc_has_lowering _ _ _ _); by simplify_eq. }
    assert (Hr : res = Lowered "aten::sum" [Leaf (TeBuf (Tensor_buf mul_te))]
                         sum_shape te_dtype).
    { unfold te_lower in Hsum. destruct (nnc_has_lowering _ _ _ _); by simplify_eq. }
    by exists shape, dtype, rest, mul_shape, sum_shape, te_dtype, mul_te, res.
  - intros shape dtype rest mul_shape sum_shape te_dtype -> Hms Hss Hty
      mul_te res Hmul Hsum.
    assert (Hm : te_lower nnc_has_lowering "aten::mul" args mul_shape te_dtype
                   = Ok mul_te) by (unfold te_lower; by rewrite Hmul).
    assert (Hs : te_lower nnc_has_lowering "aten::sum"
                   [Leaf (TeBuf (Tensor_buf mul_te))] sum_shape te_dtype
                   = Ok res) by (unfold te_lower; by rewrite Hsum).
    unfold dot_lower. simpl. rewrite Hms. simpl. rewrite Hty. simpl.
    rewrite Hm. simpl. rewrite Hss. simpl. by rewrite Hs.
Qed.

Lemma raises_only_ok {A} P (a : A) : raises_only P (Ok a).
Proof. by intros e. Qed.

Lemma raises_only_raise {A} (P : exn -> Prop) e : P e -> raises_only P (@Raise A e).
Proof. by intros He e' [= <-]. Qed.

Lemma raises_only_bind {A B} P (m : result A) (k : A -> result B) :
  raises_only P m -> (forall a, m = Ok a -> raises_only P (k a)) ->
  raises_only P (m ≫= k).
Proof.
  intros Hm Hk e. destruct m as [a|e']; simpl.
  - by apply Hk.
  - intros [= <-]. by apply Hm.
Qed.

Lemma raises_only_fmap {A B} P (m : result A) (h : A -> B) :
  raises_only P m -> raises_only P (h <$> m).
Proof.
  intros Hm e. destruct m as [a|e']; simpl; [done|]. intros [= <-]. by apply Hm.
Qed.

Lemma raises_only_mapM {A B} P (h : A -> result B) (l : list A) :
  Forall (fun x => raises_only P (h x)) l -> raises_only P (mapM h l).
Proof.
  induction 1 as [|x l Hx _ IH]; simpl; [apply raises_only_ok|].
  apply raises_only_bind; [done|]. intros y _.
  apply raises_only_bind; [done|]. intros ys _. apply raises_only_ok.
Qed.

Lemma raises_only_map_aggregate {A B} P (h : A -> result B) (a : Aggregate A) :
  (forall x, raises_only P (h x)) -> raises_only P (map_aggregate h a).
Proof.
  intros Hh. induction a as [x|l IH|l IH] using Aggregate_ind'; simpl.
  - by apply raises_only_fmap.
  - by apply raises_only_fmap, raises_only_mapM.
  - by apply raises_only_fmap, raises_only_mapM.
Qed.

Ltac other_error :=
  apply raises_only_raise; intros [H|H]; simplify_eq.

Lemma tensor_meta_errors node : raises_only other_error (tensor_meta node).
Proof.
  unfold tensor_meta. destruct (node_meta node); [apply raises_only_ok|other_error].
Qed.

Lemma get_nnc_type_errors dtype : raises_only other_error (get_nnc_type dtype).
Proof. destruct dtype; simpl; (apply raises_only_ok || other_error). Qed.

Lemma get_te_type_errors node : raises_only other_error (get_te_type node).
Proof.
  apply raises_only_bind; [apply tensor_meta_errors|].
  intros; apply get_nnc_type_errors.
Qed.

Lemma te_lower_errors aten_str args shape dtype :
  raises_only other_error (te_lower nnc_has_lowering aten_str args shape dtype).
Proof.
  unfold te_lower.
  destruct (nnc_has_lowering aten_str args shape dtype); [apply raises_only_ok|].
  other_error.
Qed.

Lemma ExprHandle_int_errors z : raises_only other_error (ExprHandle_int z).
Proof.
  unfold ExprHandle_int.
  destruct (decide (int32 z)) as [_|_]; [apply raises_only_ok|other_error].
Qed.

Lemma get_te_shapes_errors (shape : list Z) :
  raises_only other_error (get_te_shapes shape).
Proof.
  apply raises_only_mapM, Forall_forall. intros z _. apply ExprHandle_int_errors.
Qed.

Lemma get_dim_args_loop_errors (dims : list Z) : forall acc,
  raises_only other_error (get_dim_args_loop dims acc).
Proof.
  induction dims as [|dim rest IH]; intros acc; simpl; [apply raises_only_ok|].
  apply raises_only_bind; [apply ExprHandle_int_errors|]. intros; apply IH.
Qed.

Lemma te_ExternalCall_errors out fn buf_args es :
  raises_only other_error (te_ExternalCall out fn buf_args es).
Proof.
  apply raises_only_bind; [|intros; apply raises_only_ok].
  apply raises_only_mapM, Forall_forall. intros [[b|c]|l|l] _; simpl;
    (apply raises_only_ok || other_error).
Qed.

Lemma first_shape_dtype_errors inp_shapes :
  raises_only other_error (first_shape_dtype inp_shapes).
Proof.
  destruct inp_shapes as [|[[sd|]|l|l] rest]; simpl;
    (apply raises_only_ok || other_error).
Qed.

Lemma index_arg_errors {A} (args : list A) i :
  raises_only other_error (index_arg args i).
Proof.
  unfold index_arg. destruct (args !! i); [apply raises_only_ok|other_error].
Qed.

Lemma lookup_env_errors env l : raises_only other_error (lookup_env env l).
Proof.
  apply raises_only_mapM, Forall_forall. intros a _.
  apply raises_only_map_aggregate. intros [ref|c]; simpl; [|apply raises_only_ok].
  destruct (env !! ref); [apply raises_only_ok|other_error].
Qed.

Lemma rule_errors op rule name out_shape inp_shapes args :
  lowering_functions nnc_has_lowering op = Some rule ->
  raises_only other_error (rule name out_shape inp_shapes args).
Proof.
  unfold lowering_functions. intros Hrule.
  assert (rule = ones_like_lower \/ rule = dot_lower nnc_has_lowering \/
          rule = mv_lower) as [->|[->| ->]].
  { destruct op; try done. repeat case_match; naive_solver. }
  - apply raises_only_bind; [apply get_dim_args_loop_errors|]. intros das _.
    apply raises_only_bind; [by apply raises_only_ok|]. intros; apply raises_only_ok.
  - unfold dot_lower.
    apply raises_only_bind; [apply first_shape_dtype_errors|]. intros sd _.
    apply raises_only_bind; [apply get_te_shapes_errors|]. intros s1 _.
    apply raises_only_bind; [apply get_nnc_type_errors|]. intros d1 _.
    apply raises_only_bind; [apply te_lower_errors|]. intros t1 _.
    apply raises_only_bind; [apply get_te_shapes_errors|]. intros s2 _.
    apply raises_only_bind; [apply get_nnc_type_errors|]. intros d2 _.
    apply raises_only_bind; [apply te_lower_errors|]. intros t2 _.
    apply raises_only_ok.
  - unfold mv_lower.
    apply raises_only_bind; [apply index_arg_errors|]. intros A _.
    apply raises_only_bind; [apply index_arg_errors|]. intros B _.
    apply raises_only_bind; [apply first_shape_dtype_errors|]. intros sd _.
    destruct sd.1 as [|N [|M [|? ?]]]; try other_error.
    apply raises_only_bind; [apply get_te_shapes_errors|]. intros dims _.
    apply raises_only_bind; [apply get_nnc_type_errors|]. intros d _.
    apply raises_only_bind; [apply te_ExternalCall_errors|]. intros c _.
    apply raises_only_ok.
Qed.

Lemma operand_shape_errors g arg : raises_only other_error (operand_shape g arg).
Proof.
  destruct arg as [ref|c]; simpl; [|apply raises_only_ok].
  destruct (find_node g ref ≫= node_meta); apply raises_only_ok.
Qed.

Lemma target_name_errors op : raises_only other_error (target_name op).
Proof. destruct op; simpl; (apply raises_only_ok || other_error). Qed.

Lemma lower_function_errors g node op nnc_args args :
  raises_only other_error (lower_call g node op nnc_args args).
Proof.
  unfold lower_function.
  apply raises_only_bind.
  { apply raises_only_mapM, Forall_forall. intros a _.
    apply raises_only_map_aggregate, operand_shape_errors. }
  intros inp_shapes _. apply raises_only_bind.
  - destruct (lowering_functions nnc_has_lowering op) as [rule|] eqn:Hrule.
    + apply raises_only_bind; [apply tensor_meta_errors|]. intros tm _.
      by eapply rule_errors.
    + apply raises_only_bind; [apply target_name_errors|]. intros nm _.
      apply raises_only_bind; [apply tensor_meta_errors|]. intros tm _.
      apply raises_only_bind; [apply get_te_shapes_errors|]. intros out_shape _.
      apply raises_only_bind; [apply tensor_meta_errors|]. intros tm' _.
      apply raises_only_bind; [apply get_nnc_type_errors|]. intros dtype _.
      apply raises_only_fmap, te_lower_errors.
  - intros [t|buf stmts] _; apply raises_only_ok.
Qed.

Lemma output_meta_errors g i : raises_only other_error (output_meta g i).
Proof.
  destruct i as [[ref|c]|l|l]; simpl; try other_error.
  destruct (find_node g ref); [|other_error].
  apply raises_only_bind; [apply tensor_meta_errors|]. intros; apply raises_only_ok.
Qed.

Lemma lower_call_node_errors g st node :
  raises_only other_error (lower_call_node nnc_has_lowering g st node).
Proof.
  apply raises_only_bind; [apply lookup_env_errors|]. intros nnc_args _.
  apply raises_only_bind; [apply lower_function_errors|].
  intros [buf stmt] _. apply raises_only_ok.
Qed.

Lemma step_call_function g st node :
  node_op node = call_function ->
  step g st node =
    match node_meta node with
    | Some _ =>
        if decide (node_kwargs node ≠ []) then Raise (RuntimeError "kwargs nyi")
        else lower_call_node nnc_has_lowering g st node
    | None => Ok st
    end.
Proof.
  intros Hop. unfold lower_node. rewrite Hop.
  destruct (node_meta node); [done|]. by case_decide.
Qed.

(** Every error of one driver step is either one of the two explicit
    [raise] statements, in its own branch, or comes from further down. *)
Lemma step_errors g st node e :
  step g st node = Raise e ->
  other_error e \/
  (e = RuntimeError "kwargs nyi" /\ node_op node = call_function /\
   is_Some (node_meta node) /\ node_kwargs node ≠ []) \/
  (e = RuntimeError "not yet implemented" /\
   (node_op node = call_method \/ node_op node = call_module)).
Proof.
  destruct (node_op node) eqn:Hop.
  - unfold lower_node. rewrite Hop. intros He. left. revert e He.
    apply raises_only_bind; [apply tensor_meta_errors|]. intros tm _.
    apply raises_only_bind; [apply get_te_shapes_errors|]. intros shapes _.
    apply raises_only_bind; [apply get_te_type_errors|]. intros; apply raises_only_ok.
  - rewrite (step_call_function _ _ _ Hop).
    destruct (node_meta node) as [tm|]; [|done].
    case_decide as Hkw.
    + intros [= <-]. right. left. by eauto.
    + intros He. left. by eapply lower_call_node_errors.
  - unfold lower_node. rewrite Hop. intros [= <-]. right. right. by eauto.
  - unfold lower_node. rewrite Hop. intros [= <-]. right. right. by eauto.
  - unfold lower_node. rewrite Hop. intros He. left. revert e He.
    apply raises_only_bind; [apply tensor_meta_errors|]. intros tm _.
    apply raises_only_bind; [apply get_te_shapes_errors|]. intros shapes _.
    apply raises_only_bind; [apply get_te_type_errors|]. intros; apply raises_only_ok.
  - unfold lower_node. rewrite Hop. intros He. left. revert e He.
    destruct (node_args node) as [|a0 args]; [other_error|].
    apply raises_only_bind; [apply lookup_env_errors|]. intros te_args _.
    apply raises_only_bind.
    + apply raises_only_mapM, Forall_forall. intros; apply output_meta_errors.
    + intros; apply raises_only_ok.
Qed.

Lemma steps_abort g (nodes : list Node) node :
  node ∈ nodes -> (forall st, raises (step g st node)) ->
  forall st, raises (steps g nodes st).
Proof.
  intros Hin Hraise. induction nodes as [|n rest IH]; intros st.
  { by apply elem_of_nil in Hin. }
  simpl. destruct (step g st n) as [st'|e] eqn:Hstep; simpl.
  - apply elem_of_cons in Hin as [->|Hin].
    + destruct (Hraise st) as [e He]. congruence.
    + by apply IH.
  - by exists e.
Qed.

(** C7 (amended). For a function-call node that carries tensor metadata,
    the driver raises the fatal keyword-argument error if and only if the
    node has keyword arguments; it does so before any lowering of the node,
    and the whole compilation is then aborted.  A node without keyword
    arguments is handed to the lowering, whose own fatal errors (an
    unsupported element type, an unknown operator, ...) remain possible. *)
Theorem kwargs_rejected_before_lowering g st node :
  node_op node = call_function -> is_Some (node_meta node) ->
  (lower_node nnc_has_lowering g st node = Raise (RuntimeError "kwargs nyi") <->
   node_kwargs node ≠ []) /\
  (node_kwargs node ≠ [] ->
     forall V empty_data module_attributes (fx_model : Graph) h,
       node ∈ fx_model ->
       raises (nnc_compile V nnc_has_lowering empty_data module_attributes
                 fx_model h)) /\
  (node_kwargs node = [] ->
   lower_node nnc_has_lowering g st node =
   lower_call_node nnc_has_lowering g st node).
Proof.
  intros Hop [tm Hmeta].
  assert (Hstep : forall g' st', step g' st' node =
            if decide (node_kwargs node ≠ []) then Raise (RuntimeError "kwargs nyi")
            else lower_call_node nnc_has_lowering g' st' node).
  { intros g' st'. by rewrite (step_call_function _ _ _ Hop), Hmeta. }
  split; [|split].
  - split.
    + intros He.
      destruct (step_errors _ _ _ _ He) as [Hother|[(_ & _ & _ & Hkw)|[[=] _]]].
      * exfalso. apply Hother. by left.
      * exact Hkw.
    + intros Hkw. by rewrite Hstep, decide_True.
  - intros Hkw V empty_data module_attributes fx_model h Hin.
    unfold nnc_compile.
    destruct (steps_abort fx_model fx_model node Hin) with (st := initial_state)
      as [e He].
    + intros st'. exists (RuntimeError "kwargs nyi"). by rewrite Hstep, decide_True.
    + exists e. fold steps. by rewrite He.
  - intros Hkw. rewrite Hstep, decide_False; [done|]. by intros H.
Qed.

(** C9. A function-call node without tensor metadata whose target is
    neither [getattr] nor [operator.getitem] is skipped: the step returns
    normally and leaves the environment, the statements and the rest of the
    state as they were.  The not-yet-implemented error is raised exactly for
    the node kinds other than placeholder, call_function, output and
    get_attr. *)
Theorem metadata_free_call_skipped g st node :
  (node_op node = call_function -> node_meta node = None ->
   node_target node ≠ builtin_getattr -> node_target node ≠ operator_getitem ->
   lower_node nnc_has_lowering g st node = Ok st) /\
  (lower_node nnc_has_lowering g st node =
     Raise (RuntimeError "not yet implemented") <->
   node_op node ≠ placeholder /\ node_op node ≠ call_function /\
   node_op node ≠ output /\ node_op node ≠ get_attr).
Proof.
  split.
  - intros Hop Hmeta _ _. by rewrite (step_call_function _ _ _ Hop), Hmeta.
  - split.
    + intros He.
      destruct (step_errors _ _ _ _ He) as [Hother|[([=] & _)|(_ & [Hop|Hop])]].
      * exfalso. apply Hother. by right.
      * by rewrite Hop.
      * by rewrite Hop.
    + intros (? & ? & ? & ?). unfold lower_node.
      by destruct (node_op node).
Qed.

End Lowering.

(** The claim as written fails: no node of the comparison graph has
    keyword arguments, its call node carries metadata, and compilation
    still stops with a fatal error at that node, the element type [bool]
    being unsupported. *)
Lemma fatal_without_kwargs_counterexample :
  exists st node,
    lower_nodes sample_lowering comparison_graph (take 1 comparison_graph)
      initial_state = Ok st /\
    comparison_graph !! 1%nat = Some node /\
    node_op node = call_function /\ is_Some (node_meta node) /\
    node_kwargs node = [] /\
    lower_node sample_lowering comparison_graph st node =
      Raise (RuntimeError "nyi").
Proof.
  do 2 eexists. split; [vm_compute; reflexivity|].
  split; [reflexivity|]. split; [reflexivity|]. split; [by eexists|].
  split; [reflexivity|]. vm_compute. reflexivity.
Qed.

Lemma kwargs_rejected_before_lowering_witness :
  lower_node sample_lowering [] initial_state sum_kwargs_node =
    Raise (RuntimeError "kwargs nyi").
Proof.
  apply (proj1 (kwargs_rejected_before_lowering sample_lowering []
                  initial_state sum_kwargs_node eq_refl (ex_intro _ _ eq_refl))).
  discriminate.
Defined.

Lemma metadata_free_call_skipped_witness :
  lower_node sample_lowering [] initial_state len_node = Ok initial_state.
Proof.
  apply (proj1 (metadata_free_call_skipped sample_lowering [] initial_state len_node));
    [reflexivity|reflexivity|discriminate|discriminate].
Defined.

(** ** The calling convention of the compiled kernel *)

Section Driver.

Context (nnc_has_lowering :
  string -> list (Aggregate TeArg) -> list ExprHandle -> te_Dtype -> bool).

Abbreviation step1 := (lower_node nnc_has_lowering).
Abbreviation stepn := (lower_nodes nnc_has_lowering).

Implicit Types (g : Graph) (st : lowering_state) (node : Node).

Lemma mapM_result_Forall2 {A B} (h : A -> result B) (l : list A) (l' : list B) :
  mapM h l = Ok l' -> Forall2 (fun x y => h x = Ok y) l l'.
Proof.
  revert l'. induction l as [|x l IH]; intros l'; simpl.
  - intros [= <-]. constructor.
  - destruct (h x) as [y|e] eqn:Hx; simpl; [|done].
    destruct (mapM h l) as [ys|e] eqn:Hl; simpl; [|done].
    intros [= <-]. constructor; [done|]. by apply IH.
Qed.

Lemma mapM_result_app {A B} (h : A -> result B) (l1 l2 : list A) (r : list B) :
  mapM h (l1 ++ l2) = Ok r ->
  exists r1 r2, r = r1 ++ r2 /\ mapM h l1 = Ok r1 /\ mapM h l2 = Ok r2.
Proof.
  revert r. induction l1 as [|x l1 IH]; intros r; simpl.
  - intros Hr. by exists [], r.
  - destruct (h x) as [y|e]; simpl; [|done].
    destruct (mapM h (l1 ++ l2)) as [ys|e] eqn:Hl; simpl; [|done].
    intros [= <-]. destruct (IH ys eq_refl) as (r1 & r2 & -> & -> & ->).
    by exists (y :: r1), r2.
Qed.

(** The effect of one step on the environment, the inputs and the
    captured-state list. *)
Lemma step_effect g st node st' :
  step1 g st node = Ok st' ->
  (forall key, key ≠ node_name node -> st_env st' !! key = st_env st !! key) /\
  match node_op node with
  | get_attr =>
      st_module_attrs st' = st_module_attrs st ++ [node] /\
      st_inputs st' = st_inputs st /\
      exists b, captured_state_handle node = Some b /\
                st_env st' !! node_name node = Some b
  | placeholder =>
      st_module_attrs st' = st_module_attrs st /\
      exists ph, input_placeholder node = Some ph /\
                 st_inputs st' = st_inputs st ++ [ph]
  | _ =>
      st_module_attrs st' = st_module_attrs st /\
      st_inputs st' = st_inputs st
  end.
Proof.
  unfold lower_node, captured_state_handle, input_placeholder, get_te_type, tensor_meta.
  destruct (node_op node) eqn:Hop.
  - destruct (node_meta node) as [tm|]; simpl; [|done].
    destruct (get_te_shapes _) as [shapes|e] eqn:Hshapes; simpl; [|done].
    destruct (get_nnc_type (tm_dtype tm)) as [dtype|e]; simpl; [|done].
    intros [= <-]. simpl. split.
    + intros key Hkey. by rewrite lookup_insert_ne.
    + split; [done|]. by eexists.
  - destruct (node_meta node) as [tm|]; simpl.
    + case_decide; [done|].
      destruct (lookup_env _ _) as [nnc_args|e]; simpl; [|done].
      destruct (lower_function _ _ _ _ _ _) as [[buf stmt]|e]; simpl; [|done].
      intros [= <-]. simpl. split; [|done].
      intros key Hkey. by rewrite lookup_insert_ne.
    + case_decide; by intros [= <-].
  - done.
  - done.
  - destruct (node_meta node) as [tm|]; simpl; [|done].
    destruct (get_te_shapes _) as [shapes|e] eqn:Hshapes; simpl; [|done].
    destruct (get_nnc_type (tm_dtype tm)) as [dtype|e]; simpl; [|done].
    intros [= <-]. simpl. split.
    + intros key Hkey. by rewrite lookup_insert_ne.
    + split; [done|]. split; [done|]. eexists. split; [done|].
      apply lookup_insert_eq.
  - destruct (node_args node) as [|a0 args]; [done|].
    destruct (lookup_env _ _) as [te_args|e]; simpl; [|done].
    destruct (mapM _ _) as [metas|e]; simpl; [|done].
    by intros [= <-].
Qed.

Lemma steps_effect g (nodes : list Node) : forall st st',
  stepn g nodes st = Ok st' ->
  (forall key, key ∉ node_name <$> nodes -> st_env st' !! key = st_env st !! key) /\
  st_module_attrs st' = st_module_attrs st ++ filter is_get_attr nodes /\
  (exists phs, st_inputs st' = st_inputs st ++ phs /\
     Forall2 (fun n ph => input_placeholder n = Some ph)
       (filter is_placeholder nodes) phs) /\
  (NoDup (node_name <$> nodes) ->
   forall n, n ∈ nodes -> is_get_attr n ->
     exists b, captured_state_handle n = Some b /\
               st_env st' !! node_name n = Some b).
Proof.
  induction nodes as [|node rest IH]; intros st st'; simpl.
  - intros [= <-]. split; [done|]. split; [by rewrite app_nil_r|].
    split; [exists []; by rewrite app_nil_r|].
    intros _ n Hn. by apply elem_of_nil in Hn.
  - destruct (step1 g st node) as [st1|e] eqn:Hstep; simpl; [|done].
    intros Hrest.
    destruct (step_effect _ _ _ _ Hstep) as [Henv1 Hkind].
    destruct (IH _ _ Hrest) as (Henv & Hattrs & (phs & Hinputs & Hphs) & Hcapt).
    rewrite (filter_cons is_get_attr), (filter_cons is_placeholder).
    split; [|split; [|split]].
    + intros key Hkey. apply not_elem_of_cons in Hkey as [Hne Hkey].
      rewrite Henv by done. by apply Henv1.
    + rewrite Hattrs.
      destruct (decide (is_get_attr node)) as [Hga|Hga]; unfold is_get_attr in Hga;
        destruct (node_op node); try done; destruct Hkind as [-> Hk];
        first [done | by rewrite <- app_assoc].
    + rewrite Hinputs.
      destruct (decide (is_placeholder node)) as [Hp|Hp]; unfold is_placeholder in Hp;
        destruct (node_op node) eqn:Hop; try done.
      * destruct Hkind as (_ & ph & Hph & ->).
        exists (ph :: phs). split; [by rewrite <- app_assoc|]. by constructor.
      * destruct Hkind as [_ ->]. by exists phs.
      * destruct Hkind as [_ ->]. by exists phs.
      * destruct Hkind as [_ ->]. by exists phs.
      * destruct Hkind as (_ & -> & _). by exists phs.
      * destruct Hkind as [_ ->]. by exists phs.
    + intros Hnd n Hn Hga. apply NoDup_cons in Hnd as [Hnotin Hnd].
      apply elem_of_cons in Hn as [->|Hn].
      * unfold is_get_attr in Hga. rewrite Hga in Hkind.
        destruct Hkind as (_ & _ & b & Hb & Hlook).
        exists b. split; [done|]. by rewrite Henv.
      * by apply Hcapt.
Qed.

End Driver.

Section Compile.

Context (V : Type) (nnc_has_lowering :
  string -> list (Aggregate TeArg) -> list ExprHandle -> te_Dtype -> bool).
Context (empty_data : list Z -> torch_dtype -> V).
Context (kernel : CodeGen -> list V -> list V).
Context (module_attributes : gmap string loc).

Abbreviation compile := (nnc_compile V nnc_has_lowering empty_data module_attributes).
Abbreviation invoke := (f V empty_data kernel).
Abbreviation drive := (lower_nodes nnc_has_lowering).
Abbreviation drive1 := (lower_node nnc_has_lowering).
Abbreviation fetch := (fetch_attr module_attributes).

Implicit Types (g : Graph) (st : lowering_state) (h : heap V) (c : compiled).

Lemma nnc_compile_inv g h c h' :
  compile g h = Ok (c, h') ->
  exists st outs0 outs1 bufs buffer_args,
    drive g g initial_state = Ok st /\
    st_outs st = Some (outs0, outs1) /\
    codegen_buffers st outs0 = Ok bufs /\
    mapM te_BufferArg bufs = Ok buffer_args /\
    f_cg c = mkCodeGen (mkLoopNest (st_compute_stmts st) outs0) buffer_args /\
    alloc_all V empty_data outs1 h = (f_alloc_results c, h') /\
    mapM (fun i => fetch (node_target i)) (st_module_attrs st) = Ok (f_module_stuff c).
Proof.
  unfold nnc_compile.
  destruct (drive g g initial_state) as [st|e]; simpl; [|done].
  destruct (te_Stmt (st_compute_stmts st)) as [root|e] eqn:Hroot; simpl; [|done].
  assert (root = st_compute_stmts st) as ->.
  { unfold te_Stmt in Hroot. destruct (st_compute_stmts st); by simplify_eq. }
  destruct (st_outs st) as [[outs0 outs1]|] eqn:Houts; [|done].
  destruct (codegen_buffers st outs0) as [bufs|e] eqn:Hbufs; simpl; [|done].
  destruct (mapM te_BufferArg bufs) as [buffer_args|e] eqn:Hargs; simpl; [|done].
  destruct (alloc_all V empty_data outs1 h) as [alloc_results h1] eqn:Halloc.
  destruct (mapM _ (st_module_attrs st)) as [module_stuff|e] eqn:Hfetch; simpl; [|done].
  intros [= <- <-]. exists st, outs0, outs1, bufs, buffer_args.
  simpl. repeat split; (reflexivity || assumption).
Qed.

Lemma step_outs_wf g st node st' :
  drive1 g st node = Ok st' -> outs_wf st -> outs_wf st'.
Proof.
  unfold lower_node, outs_wf, get_te_type, tensor_meta.
  destruct (node_op node).
  - destruct (node_meta node) as [tm|]; simpl; [|done].
    destruct (get_te_shapes _) as [shapes|e] eqn:Hshapes; simpl; [|done].
    destruct (get_nnc_type (tm_dtype tm)); simpl; [|done]. by intros [= <-].
  - destruct (node_meta node) as [tm|]; simpl.
    + case_decide; [done|].
      destruct (lookup_env _ _); simpl; [|done].
      destruct (lower_function _ _ _ _ _ _) as [[buf stmt]|]; simpl; [|done].
      by intros [= <-].
    + case_decide; by intros [= <-].
  - done.
  - done.
  - destruct (node_meta node) as [tm|]; simpl; [|done].
    destruct (get_te_shapes _) as [shapes|e] eqn:Hshapes; simpl; [|done].
    destruct (get_nnc_type (tm_dtype tm)); simpl; [|done]. by intros [= <-].
  - destruct (node_args node) as [|a0 args]; [done|].
    destruct (lookup_env _ _) as [te_args|] eqn:Hl; simpl; [|done].
    destruct (mapM (output_meta g) _) as [metas|] eqn:Hm; simpl; [|done].
    intros [= <-] _. simpl.
    apply mapM_result_length in Hl, Hm. congruence.
Qed.

Lemma steps_outs_wf g (nodes : list Node) : forall st st',
  drive g nodes st = Ok st' -> outs_wf st -> outs_wf st'.
Proof.
  induction nodes as [|node rest IH]; intros st st'; simpl.
  - by intros [= <-].
  - destruct (drive1 g st node) as [st1|] eqn:Hstep; simpl; [|done].
    intros Hrest Hwf. eapply IH; [exact Hrest|]. by eapply step_outs_wf.
Qed.

Lemma alloc_all_spec (specs : list (list Z * torch_dtype)) : forall h ls h',
  alloc_all V empty_data specs h = (ls, h') ->
  NoDup ls /\
  Forall2 (fun l sd => h !! l = None /\
             h' !! l = Some (mkTensor V sd.1 sd.2 (empty_data sd.1 sd.2))) ls specs /\
  (forall l, l ∉ ls -> h' !! l = h !! l).
Proof.
  induction specs as [|[shape dtype] rest IH]; intros h ls h'; simpl.
  - intros [= <- <-]. split; [constructor|]. split; [constructor|done].
  - destruct (alloc_all V empty_data rest _) as [ls' h2] eqn:Hrest.
    intros [= <- <-].
    set (l := fresh (dom h)) in *.
    assert (Hfresh : h !! l = None).
    { apply not_elem_of_dom_1, is_fresh. }
    destruct (IH _ _ _ Hrest) as (Hnd & Hall & Hother).
    assert (Hnotin : l ∉ ls').
    { intros Hin. apply list_elem_of_lookup in Hin as [i Hi].
      destruct (Forall2_lookup_l _ _ _ _ _ Hall Hi) as (sd & _ & Hnone & _).
      by rewrite lookup_insert_eq in Hnone. }
    split; [by constructor|]. split.
    + constructor.
      * split; [done|]. rewrite Hother by done. apply lookup_insert_eq.
      * eapply Forall2_impl; [exact Hall|]. intros l' sd [Hnone Hsome].
        split; [|done]. rewrite lookup_insert in Hnone. by case_decide.
    + intros l' Hl'. apply not_elem_of_cons in Hl' as [Hne Hl'].
      rewrite Hother by done. by rewrite lookup_insert_ne.
Qed.

Lemma mapM_result_fmap {A B C} (h : B -> result C) (i : A -> B) (k : A -> C)
    (l : list A) :
  (forall x, h (i x) = Ok (k x)) -> mapM h (i <$> l) = Ok (k <$> l).
Proof.
  intros Hx. induction l as [|x l IH]; [done|]. rewrite !fmap_cons.
  change (mapM h (i x :: (i <$> l)))
    with (y ← h (i x); ys ← mapM h (i <$> l); mret (y :: ys)).
  by rewrite Hx, IH.
Qed.

Lemma te_BufferArg_bufs (handles : list BufHandle) :
  mapM te_BufferArg ((fun b => inr (Leaf (TeBuf b))) <$> handles) =
  Ok (BufferArg_buf <$> handles).
Proof. by apply mapM_result_fmap. Qed.

Lemma te_BufferArg_placeholders (phs : list te_Placeholder) :
  mapM te_BufferArg (inl <$> phs) = Ok (BufferArg_placeholder <$> phs).
Proof. by apply mapM_result_fmap. Qed.

Lemma te_BufferArg_outs (outs0 : list (Aggregate TeArg)) : forall r,
  mapM te_BufferArg (inr <$> outs0) = Ok r ->
  exists out_bufs,
    outs0 = (fun b => Leaf (TeBuf b)) <$> out_bufs /\
    r = BufferArg_buf <$> out_bufs.
Proof.
  induction outs0 as [|a outs0 IH]; intros r.
  - intros [= <-]. by exists [].
  - rewrite fmap_cons.
    change (mapM te_BufferArg (inr a :: (inr <$> outs0)))
      with (y ← te_BufferArg (inr a);
            ys ← mapM te_BufferArg (inr <$> outs0); mret (y :: ys)).
    destruct a as [[b|c']|l|l]; try done.
    destruct (mapM te_BufferArg (inr <$> outs0)) as [r'|] eqn:Hr; [|done].
    intros [= <-]. destruct (IH r' eq_refl) as (out_bufs & -> & ->).
    by exists (b :: out_bufs).
Qed.

Lemma captured_handles st (attrs : list Node) :
  Forall (fun n => exists b, captured_state_handle n = Some b /\
                             st_env st !! node_name n = Some b) attrs ->
  exists handles,
    mapM (fun i : Node =>
            match st_env st !! node_name i with
            | Some b => Ok (inr (Leaf (TeBuf b)))
            | None => Raise (KeyError (node_name i))
            end) attrs
    = Ok ((fun b => @inr te_Placeholder _ (Leaf (TeBuf b))) <$> handles) /\
    Forall2 (fun n b => captured_state_handle n = Some b) attrs handles.
Proof.
  induction 1 as [|n attrs (b & Hb & Hlook) _ (handles & Hmap & Hall)]; simpl.
  - exists []. split; [done|constructor].
  - exists (b :: handles). rewrite Hlook. simpl. rewrite Hmap. simpl.
    split; [done|]. by constructor.
Qed.

(** The three groups of buffers, as [nnc_compile] hands them to the code
    generator and as it keeps them for the calls. *)
Lemma compile_buffers g h c h' :
  NoDup (node_name <$> g) -> compile g h = Ok (c, h') ->
  exists attr_handles phs out_bufs,
    Forall2 (fun n b => captured_state_handle n = Some b)
      (filter is_get_attr g) attr_handles /\
    Forall2 (fun n ph => input_placeholder n = Some ph)
      (filter is_placeholder g) phs /\
    ln_output_bufs (cg_loopnest (f_cg c)) = (fun b => Leaf (TeBuf b)) <$> out_bufs /\
    cg_buffer_args (f_cg c) =
      (BufferArg_buf <$> attr_handles) ++ (BufferArg_placeholder <$> phs) ++
      (BufferArg_buf <$> out_bufs) /\
    Forall2 (fun n l => fetch (node_target n) = Ok l)
      (filter is_get_attr g) (f_module_stuff c) /\
    length (f_alloc_results c) = length out_bufs.
Proof.
  intros Hnd Hc.
  destruct (nnc_compile_inv _ _ _ _ Hc)
    as (st & outs0 & outs1 & bufs & buffer_args & Hst & Houts & Hbufs & Hargs &
        Hcg & Halloc & Hfetch).
  destruct (steps_effect _ _ _ _ _ Hst) as (_ & Hattrs & (phs & Hin & Hphs) & Hcapt).
  change (st_module_attrs initial_state) with (@nil Node) in Hattrs.
  change (st_inputs initial_state) with (@nil te_Placeholder) in Hin.
  rewrite app_nil_l in Hattrs, Hin.
  destruct (captured_handles st (st_module_attrs st)) as (handles & Hmap & Hhandles).
  { rewrite Hattrs. apply Forall_forall.
    intros n [Hga Hn]%list_elem_of_filter. by apply Hcapt. }
  unfold codegen_buffers in Hbufs. rewrite Hmap in Hbufs. simpl in Hbufs.
  injection Hbufs as <-.
  apply mapM_result_app in Hargs as (r1 & r23 & -> & Hr1 & Hr23).
  apply mapM_result_app in Hr23 as (r2 & r3 & -> & Hr2 & Hr3).
  rewrite te_BufferArg_bufs in Hr1. injection Hr1 as <-.
  rewrite te_BufferArg_placeholders in Hr2. injection Hr2 as <-.
  destruct (te_BufferArg_outs _ _ Hr3) as (out_bufs & -> & ->).
  exists handles, phs, out_bufs. rewrite Hcg.
  cbn [cg_loopnest ln_output_bufs cg_buffer_args].
  apply mapM_result_Forall2 in Hfetch.
  rewrite Hattrs in Hhandles, Hfetch. rewrite Hin.
  split; [done|]. split; [done|]. split; [done|]. split; [done|].
  split.
  - done.
  - destruct (alloc_all_spec _ _ _ _ Halloc) as (_ & Hall & _).
    rewrite (Forall2_length _ _ _ Hall).
    pose proof (steps_outs_wf _ _ _ _ Hst I) as Hwf.
    unfold outs_wf in Hwf. rewrite Houts in Hwf.
    rewrite <- Hwf. by rewrite length_fmap.
Qed.

Lemma compile_lengths g h c h' :
  compile g h = Ok (c, h') ->
  length (cg_buffer_args (f_cg c)) =
    (length (f_module_stuff c) + length (filter is_placeholder g) +
     length (f_alloc_results c))%nat /\
  length (ln_output_bufs (cg_loopnest (f_cg c))) = length (f_alloc_results c).
Proof.
  intros Hc.
  destruct (nnc_compile_inv _ _ _ _ Hc)
    as (st & outs0 & outs1 & bufs & buffer_args & Hst & Houts & Hbufs & Hargs &
        Hcg & Halloc & Hfetch).
  destruct (steps_effect _ _ _ _ _ Hst) as (_ & _ & (phs & Hin & Hphs) & _).
  change (st_inputs initial_state) with (@nil te_Placeholder) in Hin.
  rewrite app_nil_l in Hin.
  destruct (alloc_all_spec _ _ _ _ Halloc) as (_ & Hall & _).
  pose proof (steps_outs_wf _ _ _ _ Hst I) as Hwf.
  unfold outs_wf in Hwf. rewrite Houts in Hwf.
  apply Forall2_length in Hall, Hphs.
  apply mapM_result_length in Hargs, Hfetch.
  unfold codegen_buffers in Hbufs.
  destruct (mapM _ (st_module_attrs st)) as [attrs|] eqn:Hattrs; simpl in Hbufs; [|done].
  injection Hbufs as <-. apply mapM_result_length in Hattrs.
  rewrite Hcg. cbn [cg_loopnest ln_output_bufs cg_buffer_args].
  rewrite Hargs, !length_app, !length_fmap, Hin.
  split; lia.
Qed.

Lemma foldl_store_other (dsts : list (loc * V)) : forall h l,
  (forall d, d ∈ dsts -> d.1 ≠ l) ->
  foldl (store V) h dsts !! l = h !! l.
Proof.
  induction dsts as [|d dsts IH]; intros h l Hl; simpl; [done|].
  rewrite IH by (intros d' Hd'; apply Hl; by right).
  unfold store. apply lookup_alter_ne. apply Hl. left.
Qed.

Lemma foldl_store_lookup (locs : list loc) :
  forall (vals : list V) h i l v (t : torch_tensor V),
  NoDup locs -> locs !! i = Some l -> vals !! i = Some v -> h !! l = Some t ->
  foldl (store V) h (zip locs vals) !! l =
    Some (mkTensor V (t_shape V t) (t_dtype V t) v).
Proof.
  induction locs as [|l0 locs IH]; intros vals h i l v t Hnd Hl Hv Ht; [done|].
  apply NoDup_cons in Hnd as [Hnotin Hnd].
  destruct vals as [|v0 vals]; [by destruct i|]. simpl.
  destruct i as [|i]; simpl in Hl, Hv.
  - injection Hl as ->. injection Hv as ->.
    rewrite foldl_store_other.
    + unfold store. simpl. by rewrite lookup_alter_eq, Ht.
    + intros [l' v'] Hd <-. apply Hnotin. by eapply elem_of_zip_l.
  - eapply IH; [done|exact Hl|exact Hv|].
    unfold store. simpl. rewrite lookup_alter_ne; [done|].
    intros ->. apply Hnotin. by eapply list_elem_of_lookup_2.
Qed.

(** [cg.call] on a list of buffers of the expected shape: the leading
    buffers are read, the trailing ones written. *)
Lemma cg_call_split c (ins results : list loc) h1 :
  length (ins ++ results) = length (cg_buffer_args (f_cg c)) ->
  length results = length (ln_output_bufs (cg_loopnest (f_cg c))) ->
  cg_call V empty_data kernel (f_cg c) (ins ++ results) h1 =
  Ok (foldl (store V) h1
        (zip results (kernel (f_cg c) (read V empty_data h1 <$> ins)))).
Proof.
  intros Hlen Hres. unfold cg_call. rewrite decide_True by done.
  rewrite length_app, <- Hres.
  replace (length ins + length results - length results)%nat with (length ins) by lia.
  by rewrite take_app_length, drop_app_length.
Qed.

End Compile.

Lemma param_graph_compiles :
  nnc_compile Z sample_lowering (fun _ _ => 0%Z) param_attrs param_graph param_heap
  = Ok (param_compiled, param_heap').
Proof. vm_compute. reflexivity. Qed.

Section Convention.

Context (V : Type) (nnc_has_lowering :
  string -> list (Aggregate TeArg) -> list ExprHandle -> te_Dtype -> bool).
Context (empty_data : list Z -> torch_dtype -> V).
Context (kernel : CodeGen -> list V -> list V).
Context (module_attributes : gmap string loc).

Abbreviation compile' := (nnc_compile V nnc_has_lowering empty_data module_attributes).
Abbreviation invoke' := (f V empty_data kernel).
Abbreviation cg_call' := (cg_call V empty_data kernel).
Abbreviation fetch' := (fetch_attr module_attributes).
Abbreviation lower1 := (lower_node nnc_has_lowering).

Implicit Types (g : Graph) (st : lowering_state) (h : heap V) (c : compiled).

(** C2. The buffer arguments fixed by code generation are the handles of
    the captured-state nodes in graph order, then the placeholders of the
    input nodes in declaration order, then the output handles; every
    invocation passes the captured-state tensors (one per captured-state
    node, in the same order), then the caller's inputs, then the output
    buffers. *)
Theorem buffer_argument_order g h c h' :
  NoDup (node_name <$> g) ->
  nnc_compile V nnc_has_lowering empty_data module_attributes g h = Ok (c, h') ->
  exists attr_handles phs out_bufs,
    Forall2 (fun n b => captured_state_handle n = Some b)
      (filter is_get_attr g) attr_handles /\
    Forall2 (fun n ph => input_placeholder n = Some ph)
      (filter is_placeholder g) phs /\
    ln_output_bufs (cg_loopnest (f_cg c)) = (fun b => Leaf (TeBuf b)) <$> out_bufs /\
    cg_buffer_args (f_cg c) =
      (BufferArg_buf <$> attr_handles) ++ (BufferArg_placeholder <$> phs) ++
      (BufferArg_buf <$> out_bufs) /\
    Forall2 (fun n l => fetch_attr module_attributes (node_target n) = Ok l)
      (filter is_get_attr g) (f_module_stuff c) /\
    length (f_alloc_results c) = length out_bufs /\
    forall inps out_tensors h1, exists ret,
      f V empty_data kernel c inps out_tensors h1 =
      h2 ← cg_call V empty_data kernel (f_cg c)
             (f_module_stuff c ++ inps ++ default (f_alloc_results c) out_tensors) h1;
      Ok (ret, h2).
Proof.
  intros Hnd Hc.
  destruct (compile_buffers V nnc_has_lowering empty_data module_attributes
              g h c h' Hnd Hc)
    as (attr_handles & phs & out_bufs & H1 & H2 & H3 & H4 & H5 & H6).
  exists attr_handles, phs, out_bufs. repeat (split; [assumption|]).
  intros inps [outs|] h1; unfold f; simpl.
  - by exists RetNone.
  - destruct (f_alloc_results c) as [|r [|r' rs]]; by eexists.
Qed.

(** C6. The default output buffers are allocated during compilation, one
    per recorded output, with the recorded shape and element type.  Called
    with the visible inputs and no output list, the callable runs the
    kernel into those buffers: default buffer [i] then holds the [i]-th
    value computed by the kernel, with the shape and element type it had,
    and no other tensor changes.  It returns the buffer itself when there
    is exactly one, the list of buffers otherwise. *)
Theorem default_output_buffers g h c h' :
  nnc_compile V nnc_has_lowering empty_data module_attributes g h = Ok (c, h') ->
  (exists st outs0 outs1,
     lower_nodes nnc_has_lowering g g initial_state = Ok st /\
     st_outs st = Some (outs0, outs1) /\
     NoDup (f_alloc_results c) /\
     Forall2 (fun l sd =>
                h !! l = None /\
                h' !! l = Some (mkTensor V sd.1 sd.2 (empty_data sd.1 sd.2)))
       (f_alloc_results c) outs1) /\
  forall inps h1,
    length inps = length (filter is_placeholder g) ->
    let computed :=
      kernel (f_cg c) (read V empty_data h1 <$> (f_module_stuff c ++ inps)) in
    exists h2,
      f V empty_data kernel c inps None h1 =
      Ok (match f_alloc_results c with
          | [r] => RetTensor r
          | rs => RetList rs
          end, h2) /\
      h2 = foldl (store V) h1 (zip (f_alloc_results c) computed) /\
      (forall i l v t,
         f_alloc_results c !! i = Some l -> computed !! i = Some v ->
         h1 !! l = Some t ->
         h2 !! l = Some (mkTensor V (t_shape V t) (t_dtype V t) v)) /\
      (forall l, l ∉ f_alloc_results c -> h2 !! l = h1 !! l).
Proof.
  intros Hc.
  destruct (nnc_compile_inv V nnc_has_lowering empty_data module_attributes
              g h c h' Hc)
    as (st & outs0 & outs1 & bufs & buffer_args & Hst & Houts & _ & _ & _ & Halloc & _).
  destruct (alloc_all_spec V empty_data _ _ _ _ Halloc) as (Hnd & Hall & _).
  split; [by exists st, outs0, outs1|].
  intros inps h1 Hlen computed.
  destruct (compile_lengths V nnc_has_lowering empty_data module_attributes
              g h c h' Hc) as [Hargs Hlens].
  eexists. split; [|split; [reflexivity|split]].
  - unfold f. rewrite (assoc_L (++)).
    rewrite cg_call_split.
    + simpl. by destruct (f_alloc_results c) as [|r [|r' rs]].
    + rewrite !length_app, Hargs. lia.
    + done.
  - intros i l v t Hl Hv Ht. by eapply foldl_store_lookup.
  - intros l Hl. apply foldl_store_other. intros [l' v] Hd <-.
    apply Hl. by eapply elem_of_zip_l.
Qed.

(** C10 (amended). Called with an output list of the caller's own, one
    buffer per output and none of them a default buffer, the callable
    returns [None] and stores only into the buffers of that list: buffer
    [i] of a list without repetition then holds the [i]-th value computed by
    the kernel, every tensor outside the list is as it was, and so are the
    default output buffers. *)
Theorem caller_output_buffers g h c h' inps (outs : list loc) h1 :
  nnc_compile V nnc_has_lowering empty_data module_attributes g h = Ok (c, h') ->
  length inps = length (filter is_placeholder g) ->
  length outs = length (f_alloc_results c) ->
  (forall l, l ∈ f_alloc_results c -> l ∉ outs) ->
  let computed :=
    kernel (f_cg c) (read V empty_data h1 <$> (f_module_stuff c ++ inps)) in
  exists h2,
    f V empty_data kernel c inps (Some outs) h1 = Ok (RetNone, h2) /\
    h2 = foldl (store V) h1 (zip outs computed) /\
    (NoDup outs ->
     forall i l v t,
       outs !! i = Some l -> computed !! i = Some v -> h1 !! l = Some t ->
       h2 !! l = Some (mkTensor V (t_shape V t) (t_dtype V t) v)) /\
    (forall l, l ∉ outs -> h2 !! l = h1 !! l) /\
    (forall l, l ∈ f_alloc_results c -> h2 !! l = h1 !! l).
Proof.
  intros Hc Hlen Houtlen Hown computed.
  destruct (compile_lengths V nnc_has_lowering empty_data module_attributes
              g h c h' Hc) as [Hargs Houts].
  eexists. split; [|split; [reflexivity|split]].
  - unfold f. rewrite (assoc_L (++)). rewrite cg_call_split; [done| |lia].
    rewrite !length_app, Hargs. lia.
  - intros Hnd i l v t Hl Hv Ht. by eapply foldl_store_lookup.
  - assert (Hframe : forall l, l ∉ outs ->
              foldl (store V) h1 (zip outs computed) !! l = h1 !! l).
    { intros l Hl. apply foldl_store_other. intros [l' v] Hd <-.
      apply Hl. by eapply elem_of_zip_l. }
    split; [exact Hframe|]. intros l Hl. by apply Hframe, Hown.
Qed.

End Convention.

(** ** Zero-rank shapes *)

Section ZeroRank.

Context (nnc_has_lowering :
  string -> list (Aggregate TeArg) -> list ExprHandle -> te_Dtype -> bool).

Implicit Types (g : Graph) (st : lowering_state) (node : Node).

(** Where the zero-rank promotion is applied.  [process_shape] maps the
    empty shape to [[1]] and is the identity on every non-empty shape; the
    driver applies it to the shape of a captured-state node, and
    [lower_function] to the operand shapes and to the output shape handed to
    a lowering rule, and to the output shape of the generic lowering.  The
    shape of an input placeholder is bound as inferred. *)
Lemma process_shape_sites g st node tm dims dtype :
  node_meta node = Some tm ->
  get_te_shapes (process_shape (tm_shape tm)) = Ok dims ->
  get_nnc_type (tm_dtype tm) = Ok dtype ->
  process_shape [] = [1%Z] /\
  (forall x, x ≠ [] -> process_shape x = x) /\
  (node_op node = get_attr ->
   exists st', lower_node nnc_has_lowering g st node = Ok st' /\
     st_env st' !! node_name node = Some (Buf (node_name node) dims dtype)) /\
  (forall ref n tm', find_node g ref = Some n -> node_meta n = Some tm' ->
     operand_shape g (ArgNode ref) =
       Ok (Some (process_shape (tm_shape tm'), tm_dtype tm'))) /\
  (forall op nnc_args args,
     lower_function nnc_has_lowering g node op nnc_args args =
     inp_shapes ← mapM (map_aggregate (operand_shape g)) args;
     out ← match lowering_functions nnc_has_lowering op with
           | Some rule =>
               rule (node_name node) (process_shape (tm_shape tm))
                 inp_shapes nnc_args
           | None =>
               nm ← target_name (default op (func_to_aten op));
               OutTensor <$>
                 te_lower nnc_has_lowering ("aten::" +:+ nm) nnc_args dims dtype
           end;
     match out with
     | OutTensor t => Ok (Tensor_buf t, [Tensor_stmt t])
     | OutPair buf stmts => Ok (buf, stmts)
     end) /\
  (node_op node = placeholder ->
   forall raw, get_te_shapes (tm_shape tm) = Ok raw ->
   exists st', lower_node nnc_has_lowering g st node = Ok st' /\
     st_env st' !! node_name node = Some (Buf (node_name node) raw dtype)).
Proof.
  intros Hmeta Hdims Hdtype.
  split; [done|]. split.
  { intros [|d x] Hx; [done|]. reflexivity. }
  split.
  { intros Hop. unfold lower_node, get_te_type, tensor_meta.
    rewrite Hop, Hmeta. simpl. rewrite Hdims. simpl. rewrite Hdtype. simpl.
    eexists. split; [done|]. simpl. apply lookup_insert_eq. }
  split.
  { intros ref n tm' Hfind Hm. unfold operand_shape.
    by rewrite Hfind; simpl; rewrite Hm. }
  split.
  { intros op nnc_args args. unfold lower_function, tensor_meta.
    rewrite Hmeta.
    destruct (mapM _ args) as [inp_shapes|e]; simpl; [|done].
    destruct (lowering_functions nnc_has_lowering op) as [rule|]; simpl; [done|].
    destruct (target_name _) as [nm|e]; simpl; [|done].
    rewrite Hdims. simpl. by rewrite Hdtype. }
  intros Hop raw Hraw. unfold lower_node, get_te_type, tensor_meta.
  rewrite Hop, Hmeta. simpl. rewrite Hraw. simpl. rewrite Hdtype. simpl.
  eexists. split; [done|]. simpl. apply lookup_insert_eq.
Qed.

End ZeroRank.

Example process_shape_sites_captured_state :
  exists st',
    lower_node sample_lowering param_graph initial_state
      (mkNode "w" get_attr (target_str "w") [] [] (meta_f32 [])) = Ok st' /\
    st_env st' !! "w" = Some (Buf "w" [ExprInt 1] Dtype_Float).
Proof.
  destruct (process_shape_sites sample_lowering param_graph initial_state
              (mkNode "w" get_attr (target_str "w") [] [] (meta_f32 []))
              (mkTensorMeta [] torch_float) [ExprInt 1] Dtype_Float
              eq_refl eq_refl eq_refl) as (_ & _ & Hattr & _).
  by apply Hattr.
Qed.

(** C5. The promotion is missing for an input node.  For the zero-rank
    input [scalar_input] the placeholder branch of the driver creates the
    placeholder, and binds its buffer, with the empty shape.  The
    captured-state branch binds a node with the same metadata with the
    shape [[1]], and [lower_function] describes this very input, as an
    operand, with the shape [[1]] to the lowering rules. *)
Theorem zero_rank_input_not_promoted :
  node_op scalar_input = placeholder /\
  node_meta scalar_input = Some (mkTensorMeta [] torch_float) /\
  (exists st',
     lower_node sample_lowering [scalar_input] initial_state scalar_input = Ok st' /\
     st_env st' !! "s" = Some (Buf "s" [] Dtype_Float) /\
     st_inputs st' = [mkPlaceholder "s" Dtype_Float []]) /\
  get_te_shapes (process_shape []) = Ok [ExprInt 1] /\
  (exists st',
     lower_node sample_lowering [scalar_input] initial_state
       (mkNode "s" get_attr (target_str "s") [] [] (meta_f32 [])) = Ok st' /\
     st_env st' !! "s" = Some (Buf "s" [ExprInt 1] Dtype_Float)) /\
  operand_shape [scalar_input] (ArgNode "s") = Ok (Some ([1%Z], torch_float)).
Proof.
  split; [reflexivity|]. split; [reflexivity|]. split.
  { eexists. split; [vm_compute; reflexivity|].
    split; [vm_compute; reflexivity|reflexivity]. }
  split; [reflexivity|]. split.
  { eexists. split; [vm_compute; reflexivity|]. vm_compute. reflexivity. }
  vm_compute. reflexivity.
Qed.

(** ** Witnesses on the sample module *)

Lemma dot_lower_mul_then_sum_witness :
  let a := Leaf (TeBuf (Buf "a" [ExprInt 4] Dtype_Float)) in
  let b := Leaf (TeBuf (Buf "b" [ExprInt 4] Dtype_Float)) in
  let mul_te := Lowered "aten::mul" [a; b] [ExprInt 4] Dtype_Float in
  let res := Lowered "aten::sum" [Leaf (TeBuf (Tensor_buf mul_te))]
               [ExprInt 1] Dtype_Float in
  dot_lower sample_lowering "dot" [1%Z]
    [Leaf (Some ([4%Z], torch_float)); Leaf (Some ([4%Z], torch_float))] [a; b] =
    Ok (OutPair (Tensor_buf res) [Tensor_stmt mul_te; Tensor_stmt res]).
Proof.
  intros a b mul_te res.
  apply (proj2 (proj2 (dot_lower_mul_then_sum sample_lowering "dot" [1%Z]
                         [Leaf (Some ([4%Z], torch_float));
                          Leaf (Some ([4%Z], torch_float))] [a; b]))
           [4%Z] torch_float [Leaf (Some ([4%Z], torch_float))]
           [ExprInt 4] [ExprInt 1] Dtype_Float
           eq_refl eq_refl eq_refl eq_refl eq_refl eq_refl).
Defined.

Lemma buffer_argument_order_witness :
  exists attr_handles phs out_bufs,
    Forall2 (fun n b => captured_state_handle n = Some b)
      (filter is_get_attr param_graph) attr_handles /\
    Forall2 (fun n ph => input_placeholder n = Some ph)
      (filter is_placeholder param_graph) phs /\
    ln_output_bufs (cg_loopnest (f_cg param_compiled)) =
      (fun b => Leaf (TeBuf b)) <$> out_bufs /\
    cg_buffer_args (f_cg param_compiled) =
      (BufferArg_buf <$> attr_handles) ++ (BufferArg_placeholder <$> phs) ++
      (BufferArg_buf <$> out_bufs) /\
    Forall2 (fun n l => fetch_attr param_attrs (node_target n) = Ok l)
      (filter is_get_attr param_graph) (f_module_stuff param_compiled) /\
    length (f_alloc_results param_compiled) = length out_bufs /\
    forall inps out_tensors h1, exists ret,
      f Z (fun _ _ => 0%Z) sum_kernel param_compiled inps out_tensors h1 =
      h2 ← cg_call Z (fun _ _ => 0%Z) sum_kernel (f_cg param_compiled)
             (f_module_stuff param_compiled ++ inps ++
              default (f_alloc_results param_compiled) out_tensors) h1;
      Ok (ret, h2).
Proof.
  apply (buffer_argument_order Z sample_lowering (fun _ _ => 0%Z) sum_kernel
           param_attrs param_graph param_heap param_compiled param_heap').
  - apply (bool_decide_unpack (NoDup (node_name <$> param_graph))).
    vm_compute. exact I.
  - exact param_graph_compiles.
Defined.

Lemma default_output_buffers_witness :
  let h1 := <[5%positive := mkTensor Z [3%Z] torch_float 40%Z]> param_heap' in
  exists h2,
    f Z (fun _ _ => 0%Z) sum_kernel param_compiled [5%positive] None h1 =
      Ok (RetTensor 2%positive, h2) /\
    h2 !! 2%positive = Some (mkTensor Z [3%Z] torch_float 42%Z) /\
    h2 !! 5%positive = h1 !! 5%positive.
Proof.
  intros h1.
  destruct (proj2 (default_output_buffers Z sample_lowering (fun _ _ => 0%Z)
                     sum_kernel param_attrs param_graph param_heap param_compiled
                     param_heap' param_graph_compiles) [5%positive] h1 eq_refl)
    as (h2 & Hf & _ & Hcontent & Hframe).
  exists h2. split; [exact Hf|]. split.
  - exact (Hcontent 0%nat 2%positive 42%Z (mkTensor Z [3%Z] torch_float 0%Z)
             eq_refl eq_refl eq_refl).
  - apply Hframe. apply (bool_decide_unpack _). vm_compute. exact I.
Defined.

(** The claim as written fails when the caller hands back a default
    buffer, for instance the tensor returned by an earlier call: the
    callable then stores the result into that default buffer. *)
Lemma caller_passes_default_buffer_counterexample :
  let h1 := <[5%positive := mkTensor Z [3%Z] torch_float 40%Z]> param_heap' in
  nnc_compile Z sample_lowering (fun _ _ => 0%Z) param_attrs param_graph param_heap
    = Ok (param_compiled, param_heap') /\
  f_alloc_results param_compiled = [2%positive] /\
  exists h2,
    f Z (fun _ _ => 0%Z) sum_kernel param_compiled [5%positive]
      (Some [2%positive]) h1 = Ok (RetNone, h2) /\
    h1 !! 2%positive = Some (mkTensor Z [3%Z] torch_float 0%Z) /\
    h2 !! 2%positive = Some (mkTensor Z [3%Z] torch_float 42%Z).
Proof.
  intros h1. split; [exact param_graph_compiles|]. split; [reflexivity|].
  eexists. split; [reflexivity|]. split; vm_compute; reflexivity.
Qed.

Lemma caller_output_buffers_witness :
  let h1 := <[7%positive := mkTensor Z [3%Z] torch_float 0%Z]>
              (<[5%positive := mkTensor Z [3%Z] torch_float 40%Z]> param_heap') in
  exists h2,
    f Z (fun _ _ => 0%Z) sum_kernel param_compiled [5%positive]
      (Some [7%positive]) h1 = Ok (RetNone, h2) /\
    h2 !! 7%positive = Some (mkTensor Z [3%Z] torch_float 42%Z) /\
    h2 !! 2%positive = h1 !! 2%positive.
Proof.
  intros h1.
  destruct (caller_output_buffers Z sample_lowering (fun _ _ => 0%Z) sum_kernel
              param_attrs param_graph param_heap param_compiled param_heap'
              [5%positive] [7%positive] h1 param_graph_compiles eq_refl eq_refl)
    as (h2 & Hf & _ & Hcontent & _ & Hdefault).
  { intros l Hl. apply (bool_decide_unpack _).
    apply list_elem_of_singleton in Hl. subst l. vm_compute. exact I. }
  exists h2. split; [exact Hf|]. split.
  - apply (Hcontent (NoDup_singleton _) 0%nat 7%positive 42%Z
             (mkTensor Z [3%Z] torch_float 0%Z)); reflexivity.
  - apply Hdefault. left.
Defined.

(** * Further properties *)

Set Warnings "-clear-no-such-hyp".

(** ** Shapes, dimension arguments and broadcast indices *)

Section Shapes.

Implicit Types (shape dims : list Z) (args out : list ExprHandle).

Lemma get_dim_args_loop_imap dims : forall acc,
  Forall int32 dims ->
  get_dim_args_loop dims acc =
  Ok (acc ++ imap (fun i => dim_arg_at (length acc + i)) dims).
Proof.
  induction dims as [|dim rest IH]; intros acc Hdims; simpl.
  - by rewrite app_nil_r.
  - apply Forall_cons in Hdims as [Hdim Hrest].
    rewrite (ExprHandle_int_ok _ Hdim). simpl.
    rewrite IH, <- app_assoc by done. simpl. do 2 f_equal.
    unfold dim_arg_at at 2. rewrite Nat.add_0_r. f_equal.
    apply imap_ext. intros i d _. simpl.
    rewrite length_app. simpl. f_equal. lia.
Qed.

Lemma get_dim_args_ok dims :
  Forall int32 dims -> get_dim_args dims = Ok (imap dim_arg_at dims).
Proof.
  intros Hdims. unfold get_dim_args. by rewrite get_dim_args_loop_imap.
Qed.

Lemma get_dim_args_loop_raise dims : forall acc i d,
  dims !! i = Some d -> ¬ int32 d ->
  exists msg, get_dim_args_loop dims acc = Raise (TypeError msg).
Proof.
  induction dims as [|dim rest IH]; intros acc i d Hi Hd; [done|]. simpl.
  destruct (decide (int32 dim)) as [Hdim|Hdim].
  - rewrite (ExprHandle_int_ok _ Hdim). simpl.
    destruct i as [|i]; simpl in Hi; [by simplify_eq|]. by eapply IH.
  - destruct (ExprHandle_int_raise _ Hdim) as [msg ->]. by exists msg.
Qed.

(** X1. On extents that fit a C [int], [get_dim_args] builds one
    dimension argument per axis, in order: axis [i] of extent [d] gets the
    extent [d] and the index name ["i" ++ str(i)], and no two axes share an
    index name.  An extent that does not fit makes it raise [TypeError]. *)
Theorem get_dim_args_axes dims :
  (Forall int32 dims ->
   exists dim_args,
     get_dim_args dims = Ok dim_args /\
     length dim_args = length dims /\
     (forall i, dim_args !! i = dim_arg_at i <$> dims !! i) /\
     NoDup (dim_name <$> dim_args)) /\
  (forall i d, dims !! i = Some d -> ¬ int32 d ->
     exists msg, get_dim_args dims = Raise (TypeError msg)).
Proof.
  split; [|intros i d; apply get_dim_args_loop_raise].
  intros Hdims. exists (imap dim_arg_at dims).
  split; [by apply get_dim_args_ok|].
  split; [by rewrite length_imap|]. split; [intros i; apply list_lookup_imap|].
  apply NoDup_alt. intros i j nm Hi Hj.
  rewrite list_lookup_fmap, list_lookup_imap in Hi, Hj.
  destruct (dims !! i) as [di|]; [|done]. destruct (dims !! j) as [dj|]; [|done].
  simpl in Hi, Hj. injection Hi as <-. injection Hj as Hj.
  by apply (inj pretty).
Qed.

(** X2. [process_shape] never returns the empty shape, is idempotent and
    keeps the number of elements. *)
Theorem process_shape_rank_promotion shape :
  process_shape shape ≠ [] /\
  process_shape (process_shape shape) = process_shape shape /\
  numel (process_shape shape) = numel shape.
Proof. by destruct shape. Qed.

(** X3. [index_or_broadcast] is idempotent: feeding its result back with
    the same operand shape returns that result unchanged. *)
Theorem index_or_broadcast_idempotent shape args out :
  index_or_broadcast shape args = Ok out ->
  index_or_broadcast shape out = Ok out.
Proof.
  intros Hout.
  destruct (index_or_broadcast_ok shape args) as (o1 & Ho1 & Hl1 & Hn1).
  rewrite Ho1 in Hout. injection Hout as ->.
  destruct (index_or_broadcast_ok shape out) as (o2 & -> & Hl2 & Hn2).
  f_equal. apply list_eq. intros i. rewrite Hn2. unfold broadcast_entry.
  rewrite Hn1. unfold broadcast_entry.
  destruct (shape !! i) as [d|]; [|done].
  destruct (args !! i) as [a|]; [|done].
  by destruct (decide (d = 1%Z)).
Qed.

(** X4. When the operand has at least as many axes as there are output
    indices and none of the indexed axes has extent 1, the helper returns
    the output indices themselves. *)
Theorem index_or_broadcast_no_broadcast shape args :
  (length args <= length shape)%nat ->
  (forall i d, (i < length args)%nat -> shape !! i = Some d -> d ≠ 1%Z) ->
  index_or_broadcast shape args = Ok args.
Proof.
  intros Hlen Hext.
  destruct (index_or_broadcast_ok shape args) as (out & -> & Hl & Hn).
  f_equal. apply list_eq. intros i. rewrite Hn. unfold broadcast_entry.
  destruct (args !! i) as [a|] eqn:Ha.
  - assert (Hi : (i < length args)%nat) by (by eapply lookup_lt_Some).
    destruct (lookup_lt_is_Some_2 shape i) as [d Hd]; [lia|].
    rewrite Hd. by rewrite decide_False by (by eapply Hext).
  - by destruct (shape !! i).
Qed.

End Shapes.

Lemma get_dim_args_axes_witness :
  exists dim_args,
    get_dim_args [2%Z; 3%Z] = Ok dim_args /\
    length dim_args = 2%nat /\
    (forall i, dim_args !! i = dim_arg_at i <$> [2%Z; 3%Z] !! i) /\
    NoDup (dim_name <$> dim_args).
Proof.
  apply (proj1 (get_dim_args_axes [2%Z; 3%Z])).
  apply (bool_decide_unpack _). vm_compute. exact I.
Defined.

Lemma index_or_broadcast_idempotent_witness :
  index_or_broadcast [1%Z; 3%Z] [ExprInt 0; ExprVar "i1"] =
  Ok [ExprInt 0; ExprVar "i1"].
Proof.
  apply (index_or_broadcast_idempotent [1%Z; 3%Z] [ExprVar "i0"; ExprVar "i1"]).
  reflexivity.
Defined.

Lemma index_or_broadcast_no_broadcast_witness :
  index_or_broadcast [2%Z; 3%Z; 1%Z] [ExprVar "i0"; ExprVar "i1"] =
  Ok [ExprVar "i0"; ExprVar "i1"].
Proof.
  apply index_or_broadcast_no_broadcast; [simpl; lia|].
  intros [|[|i]] d Hi; simpl in *; [intros [= <-]; lia|intros [= <-]; lia|lia].
Defined.

(** ** Lowering rules *)

Section Rules.

Context (nnc_has_lowering :
  string -> list (Aggregate TeArg) -> list ExprHandle -> te_Dtype -> bool).

Implicit Types (g : Graph) (node : Node) (env : gmap string BufHandle).

Lemma mv_lower_inv name out_shape
    (inp_shapes : list (Aggregate ShapeDtype)) (args : list (Aggregate TeArg)) r :
  mv_lower name out_shape inp_shapes args = Ok r ->
  exists A B args' N M dtype te_dtype inp_shapes',
    args = Leaf (TeBuf A) :: Leaf (TeBuf B) :: args' /\
    inp_shapes = Leaf (Some ([N; M], dtype)) :: inp_shapes' /\
    int32 N /\
    get_nnc_type dtype = Ok te_dtype /\
    r = OutPair (Buf "C" [ExprInt N] te_dtype)
          [ExternalCall (Buf "C" [ExprInt N] te_dtype) "nnc_aten_mv" [A; B] []].
Proof.
  unfold mv_lower, index_arg.
  destruct args as [|A [|B args']]; simpl; try done.
  destruct inp_shapes as [|[[[shape dtype]|]|l|l] inp_shapes']; simpl; try done.
  destruct shape as [|N [|M [|? ?]]]; simpl; try done.
  destruct (get_te_shapes [N]) as [dims|e] eqn:Hdims; simpl; [|done].
  apply get_te_shapes_inv in Hdims as [HN ->]. rewrite Forall_singleton in HN.
  destruct (get_nnc_type dtype) as [te_dtype|e] eqn:Hty; simpl; [|done].
  unfold te_ExternalCall.
  destruct A as [[a|c]|l|l]; simpl; try done.
  destruct B as [[b|c]|l|l]; simpl; try done.
  intros [= <-]. by exists a, b, args', N, M, dtype, te_dtype, inp_shapes'.
Qed.


(** X6. The operators of the translation table are lowered exactly like
    their canonical [aten] counterparts: [operator.mul], [torch.mul] and
    [torch.ops.aten.mul], for instance, give the same buffer and
    statements. *)
Theorem translated_operator_lowering g node op aten nnc_args args :
  func_to_aten op = Some aten ->
  lower_function nnc_has_lowering g node op nnc_args args =
  lower_function nnc_has_lowering g node aten nnc_args args.
Proof.
  intros Htr. unfold lower_function.
  destruct op; simpl in Htr; try done; by injection Htr as <-.
Qed.

(** The three shapes of a lowering result: one computed tensor, the two
    chained tensors of the dot product, or one external call. *)
Lemma lower_function_result g node op nnc_args args buf stmts :
  lower_function nnc_has_lowering g node op nnc_args args = Ok (buf, stmts) ->
  (exists t, buf = Tensor_buf t /\ stmts = [Tensor_stmt t]) \/
  (exists m t, buf = Tensor_buf t /\ stmts = [Tensor_stmt m; Tensor_stmt t]) \/
  (exists fn bufs es, stmts = [ExternalCall buf fn bufs es]).
Proof.
  unfold lower_function.
  destruct (mapM _ args) as [inp_shapes|e]; simpl; [|done].
  destruct (lowering_functions nnc_has_lowering op) as [rule|] eqn:Hrule.
  - destruct (tensor_meta node) as [tm|e]; simpl; [|done].
    assert (rule = ones_like_lower \/ rule = dot_lower nnc_has_lowering \/
            rule = mv_lower) as [->|[->| ->]].
    { unfold lowering_functions in Hrule.
      destruct op; try done. repeat case_match; naive_solver. }
    + unfold ones_like_lower.
      destruct (get_dim_args _) as [dim_args|e]; simpl; [|done].
      intros [= <- <-]. left. by eexists.
    + unfold dot_lower.
      destruct (first_shape_dtype inp_shapes) as [sd|e]; simpl; [|done].
      destruct (get_te_shapes sd.1) as [s1|e]; simpl; [|done].
      destruct (get_nnc_type sd.2) as [d|e]; simpl; [|done].
      destruct (te_lower _ _ _ _ _) as [mul_te|e]; simpl; [|done].
      destruct (get_te_shapes _) as [s2|e]; simpl; [|done].
      destruct (te_lower _ _ _ _ _) as [res|e]; simpl; [|done].
      intros [= <- <-]. right. left. by eexists _, _.
    + destruct (mv_lower _ _ _ _) as [out|e] eqn:Hmv; simpl; [|done].
      apply mv_lower_inv in Hmv
        as (A & B & args' & N & M & dtype & te_dtype & inp' & _ & _ & _ & _ & ->).
      intros [= <- <-]. right. right. by eexists _, _, _.
  - destruct (target_name _) as [nm|e]; simpl; [|done].
    destruct (tensor_meta node) as [tm|e]; simpl; [|done].
    destruct (get_te_shapes _) as [out_shape|e]; simpl; [|done].
    destruct (get_nnc_type _) as [d|e]; simpl; [|done].
    destruct (te_lower _ _ _ _ _) as [t|e]; simpl; [|done].
    intros [= <- <-]. left. by eexists.
Qed.

(** X7. A successful lowering never returns an empty statement list, and
    the buffer it returns is the one written by the last statement. *)
Theorem lowered_buffer_last_statement g node op nnc_args args buf stmts :
  lower_function nnc_has_lowering g node op nnc_args args = Ok (buf, stmts) ->
  exists s, last stmts = Some s /\ stmt_defines s = buf.
Proof.
  intros Hlow.
  destruct (lower_function_result _ _ _ _ _ _ _ Hlow)
    as [(t & -> & ->)|[(m & t & -> & ->)|(fn & bufs & es & ->)]].
  - by exists (Tensor_stmt t).
  - by exists (Tensor_stmt t).
  - by exists (ExternalCall buf fn bufs es).
Qed.

Lemma lookup_leaf_spec env a :
  (forall ref, ref ∈ arg_nodes a -> is_Some (env !! ref)) ->
  exists a', map_aggregate (lookup_leaf env) a = Ok a'.
Proof.
  induction a as [x|l IH|l IH] using Aggregate_ind'; intros Hrefs; simpl.
  - destruct x as [ref|c]; simpl; [|by eexists].
    destruct (Hrefs ref) as [b Hb]; [simpl; left|]. rewrite Hb. by eexists.
  - destruct (mapM_result_total (map_aggregate (lookup_leaf env)) l) as [l' Hl'].
    + rewrite Forall_forall in IH. apply Forall_forall. intros a Ha.
      apply IH; [done|]. intros ref Href. apply Hrefs. simpl.
      apply list_elem_of_join. exists (arg_nodes a). split; [done|].
      by apply list_elem_of_fmap_2.
    + rewrite Hl'. by eexists.
  - destruct (mapM_result_total (map_aggregate (lookup_leaf env)) l) as [l' Hl'].
    + rewrite Forall_forall in IH. apply Forall_forall. intros a Ha.
      apply IH; [done|]. intros ref Href. apply Hrefs. simpl.
      apply list_elem_of_join. exists (arg_nodes a). split; [done|].
      by apply list_elem_of_fmap_2.
    + rewrite Hl'. by eexists.
Qed.

Lemma raises_only_mapM_in {A B} P (h : A -> result B) (l : list A) :
  (forall x, x ∈ l -> raises_only P (h x)) -> raises_only P (mapM h l).
Proof. intros Hl. by apply raises_only_mapM, Forall_forall. Qed.

Lemma lookup_leaf_errors env a :
  raises_only (fun e => exists ref,
                 e = KeyError ref /\ ref ∈ arg_nodes a /\ env !! ref = None)
    (map_aggregate (lookup_leaf env) a).
Proof.
  induction a as [x|l IH|l IH] using Aggregate_ind'; simpl.
  - apply raises_only_fmap. destruct x as [ref|c]; simpl; [|apply raises_only_ok].
    destruct (env !! ref) eqn:Hb; [apply raises_only_ok|].
    apply raises_only_raise. exists ref. split; [done|]. split; [left|done].
  - apply raises_only_fmap, raises_only_mapM_in. intros a Ha e He.
    rewrite Forall_forall in IH. destruct (IH a Ha e He) as (ref & -> & Href & Hb).
    exists ref. split; [done|]. split; [|done]. simpl.
    apply list_elem_of_join. exists (arg_nodes a). split; [done|].
    by apply list_elem_of_fmap_2.
  - apply raises_only_fmap, raises_only_mapM_in. intros a Ha e He.
    rewrite Forall_forall in IH. destruct (IH a Ha e He) as (ref & -> & Href & Hb).
    exists ref. split; [done|]. split; [|done]. simpl.
    apply list_elem_of_join. exists (arg_nodes a). split; [done|].
    by apply list_elem_of_fmap_2.
Qed.

Lemma lookup_leaf_bound env a : forall a',
  map_aggregate (lookup_leaf env) a = Ok a' ->
  forall ref, ref ∈ arg_nodes a -> is_Some (env !! ref).
Proof.
  induction a as [x|l IH|l IH] using Aggregate_ind'; intros a'; simpl.
  - destruct x as [ref|c]; simpl; [|by intros _ ref ?%elem_of_nil].
    destruct (env !! ref) as [b|] eqn:Hb; simpl; [|done].
    intros _ ref' ->%list_elem_of_singleton. by eexists.
  - destruct (mapM _ l) as [l'|e] eqn:Hl; simpl; [|done].
    intros _ ref (refs & Hin & Hrefs)%list_elem_of_join.
    apply list_elem_of_fmap in Hrefs as (a & -> & Ha).
    apply mapM_result_Forall2 in Hl.
    apply list_elem_of_lookup in Ha as [i Hi].
    destruct (Forall2_lookup_l _ _ _ _ _ Hl Hi) as (b & _ & Hb).
    rewrite Forall_forall in IH. eapply IH; [|exact Hb|exact Hin].
    by eapply list_elem_of_lookup_2.
  - destruct (mapM _ l) as [l'|e] eqn:Hl; simpl; [|done].
    intros _ ref (refs & Hin & Hrefs)%list_elem_of_join.
    apply list_elem_of_fmap in Hrefs as (a & -> & Ha).
    apply mapM_result_Forall2 in Hl.
    apply list_elem_of_lookup in Ha as [i Hi].
    destruct (Forall2_lookup_l _ _ _ _ _ Hl Hi) as (b & _ & Hb).
    rewrite Forall_forall in IH. eapply IH; [|exact Hb|exact Hin].
    by eapply list_elem_of_lookup_2.
Qed.

Lemma lookup_env_bound env (l : list (Aggregate FxArg)) r :
  lookup_env env l = Ok r ->
  forall ref, ref ∈ args_nodes l -> is_Some (env !! ref).
Proof.
  unfold lookup_env, args_nodes.
  intros Hr ref (refs & Hin & Hrefs)%list_elem_of_join.
  apply list_elem_of_fmap in Hrefs as (a & -> & Ha).
  apply mapM_result_Forall2 in Hr.
  apply list_elem_of_lookup in Ha as [i Hi].
  destruct (Forall2_lookup_l _ _ _ _ _ Hr Hi) as (a' & _ & Ha').
  by eapply lookup_leaf_bound.
Qed.

Lemma lookup_env_key_error env (l : list (Aggregate FxArg)) e :
  lookup_env env l = Raise e ->
  exists ref, e = KeyError ref /\ ref ∈ args_nodes l /\ env !! ref = None.
Proof.
  unfold lookup_env, args_nodes. revert e.
  apply raises_only_mapM_in. intros a Ha e He.
  destruct (lookup_leaf_errors env a e He) as (ref & -> & Href & Hb).
  exists ref. split; [done|]. split; [|done].
  apply list_elem_of_join. exists (arg_nodes a). split; [done|].
  by apply list_elem_of_fmap_2.
Qed.

(** X8. [lookup_env] resolves a tuple of arguments exactly when every node
    it mentions has an environment entry, and the result then has one
    element per argument; otherwise it raises [KeyError] for a mentioned
    node that has no entry, and no other error. *)
Theorem lookup_env_missing_key env (l : list (Aggregate FxArg)) :
  ((forall ref, ref ∈ args_nodes l -> is_Some (env !! ref)) ->
   exists r, lookup_env env l = Ok r /\ length r = length l) /\
  (forall r, lookup_env env l = Ok r ->
   forall ref, ref ∈ args_nodes l -> is_Some (env !! ref)) /\
  (forall e, lookup_env env l = Raise e ->
   exists ref, e = KeyError ref /\ ref ∈ args_nodes l /\ env !! ref = None).
Proof.
  split; [|split; [apply lookup_env_bound|apply lookup_env_key_error]].
  unfold lookup_env, args_nodes. intros Hrefs.
  destruct (mapM_result_total (map_aggregate (lookup_leaf env)) l) as [r Hr].
  - apply Forall_forall. intros a Ha. apply lookup_leaf_spec.
    intros ref Href. apply Hrefs, list_elem_of_join.
    exists (arg_nodes a). split; [done|]. by apply list_elem_of_fmap_2.
  - exists r. split; [done|]. by eapply mapM_result_length.
Qed.

End Rules.

Lemma translated_operator_lowering_witness :
  lower_function sample_lowering param_graph
    (mkNode "mul" call_function operator_mul
       [Leaf (ArgNode "x"); Leaf (ArgNode "w")] [] (meta_f32 [3%Z]))
    operator_mul
    [Leaf (TeBuf (Buf "x" [ExprInt 3] Dtype_Float));
     Leaf (TeBuf (Buf "w" [ExprInt 1] Dtype_Float))]
    [Leaf (ArgNode "x"); Leaf (ArgNode "w")] =
  lower_function sample_lowering param_graph
    (mkNode "mul" call_function operator_mul
       [Leaf (ArgNode "x"); Leaf (ArgNode "w")] [] (meta_f32 [3%Z]))
    (torch_ops_aten "mul")
    [Leaf (TeBuf (Buf "x" [ExprInt 3] Dtype_Float));
     Leaf (TeBuf (Buf "w" [ExprInt 1] Dtype_Float))]
    [Leaf (ArgNode "x"); Leaf (ArgNode "w")].
Proof. by apply translated_operator_lowering. Defined.

Example translated_operator_lowering_value :
  lower_function sample_lowering param_graph
    (mkNode "mul" call_function operator_mul
       [Leaf (ArgNode "x"); Leaf (ArgNode "w")] [] (meta_f32 [3%Z]))
    (torch_ops_aten "mul")
    [Leaf (TeBuf (Buf "x" [ExprInt 3] Dtype_Float));
     Leaf (TeBuf (Buf "w" [ExprInt 1] Dtype_Float))]
    [Leaf (ArgNode "x"); Leaf (ArgNode "w")] =
  Ok (Tensor_buf param_mul, [Tensor_stmt param_mul]).
Proof. vm_compute. reflexivity. Qed.

Lemma lowered_buffer_last_statement_witness :
  exists s, last [Tensor_stmt param_mul] = Some s /\
            stmt_defines s = Tensor_buf param_mul.
Proof.
  apply (lowered_buffer_last_statement sample_lowering param_graph
           (mkNode "mul" call_function operator_mul
              [Leaf (ArgNode "x"); Leaf (ArgNode "w")] [] (meta_f32 [3%Z]))
           operator_mul
           [Leaf (TeBuf (Buf "x" [ExprInt 3] Dtype_Float));
            Leaf (TeBuf (Buf "w" [ExprInt 1] Dtype_Float))]
           [Leaf (ArgNode "x"); Leaf (ArgNode "w")]).
  vm_compute. reflexivity.
Defined.

Lemma lookup_env_missing_key_witness :
  exists ref,
    KeyError "a" = KeyError ref /\
    ref ∈ args_nodes [Leaf (ArgNode "a")] /\
    (∅ : gmap string BufHandle) !! ref = None.
Proof.
  apply (proj2 (proj2 (lookup_env_missing_key ∅ [Leaf (ArgNode "a")]))).
  reflexivity.
Defined.

(** ** The lowering driver *)

Section DriverInvariants.

Context (nnc_has_lowering :
  string -> list (Aggregate TeArg) -> list ExprHandle -> te_Dtype -> bool).

Implicit Types (g : Graph) (st : lowering_state) (node : Node).

Lemma lower_nodes_app g (l1 l2 : list Node) st :
  lower_nodes nnc_has_lowering g (l1 ++ l2) st =
  st1 ← lower_nodes nnc_has_lowering g l1 st;
  lower_nodes nnc_has_lowering g l2 st1.
Proof.
  revert st. induction l1 as [|n l1 IH]; intros st; simpl; [done|].
  destruct (lower_node nnc_has_lowering g st n) as [st1|e]; simpl; [|done].
  apply IH.
Qed.

Lemma step_env g st node st' :
  lower_node nnc_has_lowering g st node = Ok st' ->
  (binds node /\ exists b, st_env st' = <[node_name node := b]> (st_env st)) \/
  (¬ binds node /\ st_env st' = st_env st).
Proof.
  unfold lower_node, binds, get_te_type, tensor_meta.
  destruct (node_op node) eqn:Hop.
  - destruct (node_meta node) as [tm|]; simpl; [|done].
    destruct (get_te_shapes _) as [shapes|e] eqn:Hshapes; simpl; [|done].
    destruct (get_nnc_type (tm_dtype tm)) as [dtype|e]; simpl; [|done].
    intros [= <-]. left. split; [by left|]. by eexists.
  - destruct (node_meta node) as [tm|] eqn:Hmeta; simpl.
    + case_decide; [done|].
      destruct (lookup_env _ _) as [nnc_args|e]; simpl; [|done].
      destruct (lower_function _ _ _ _ _ _) as [[buf stmt]|e]; simpl; [|done].
      intros [= <-]. left. split; [right; right; by eauto|]. by eexists.
    + assert (Hnb : ¬ (call_function = placeholder \/ call_function = get_attr \/
                        call_function = call_function /\ is_Some (@None TensorMeta))).
      { intros [?|[?|[_ [? ?]]]]; done. }
      case_decide; intros [= <-]; by right.
  - done.
  - done.
  - destruct (node_meta node) as [tm|]; simpl; [|done].
    destruct (get_te_shapes _) as [shapes|e] eqn:Hshapes; simpl; [|done].
    destruct (get_nnc_type (tm_dtype tm)) as [dtype|e]; simpl; [|done].
    intros [= <-]. left. split; [right; by left|]. by eexists.
  - destruct (node_args node) as [|a0 args]; [done|].
    destruct (lookup_env _ _) as [te_args|e]; simpl; [|done].
    destruct (mapM _ _) as [metas|e]; simpl; [|done].
    intros [= <-]. right. split; [|done]. intros [?|[?|[? _]]]; done.
Qed.

Lemma steps_env_dom g (nodes : list Node) : forall st st',
  lower_nodes nnc_has_lowering g nodes st = Ok st' ->
  dom (st_env st') =
  dom (st_env st) ∪ list_to_set (node_name <$> filter binds nodes).
Proof.
  induction nodes as [|node rest IH]; intros st st' Hrun; simpl in Hrun.
  - injection Hrun as <-. rewrite filter_nil, fmap_nil. set_solver.
  - destruct (lower_node nnc_has_lowering g st node) as [st1|e] eqn:Hstep;
      simpl in Hrun; [|done].
    rewrite (IH _ _ Hrun), (filter_cons binds).
    destruct (step_env _ _ _ _ Hstep) as [[Hb [b ->]]|[Hnb ->]].
    + rewrite decide_True by done. rewrite fmap_cons, dom_insert_L. set_solver.
    + by rewrite decide_False.
Qed.

(** X9. The environment after lowering has an entry exactly for the names
    it had before and for the placeholders, the captured-state nodes and the
    function calls with tensor metadata among the lowered nodes. *)
Theorem lowering_env_domain g (nodes : list Node) st st' :
  lower_nodes nnc_has_lowering g nodes st = Ok st' ->
  forall key,
    is_Some (st_env st' !! key) <->
    is_Some (st_env st !! key) \/ key ∈ node_name <$> filter binds nodes.
Proof.
  intros Hrun key. rewrite <- !elem_of_dom, (steps_env_dom _ _ _ _ Hrun).
  rewrite elem_of_union, elem_of_list_to_set. done.
Qed.

(** X10. A function call with tensor metadata that takes as operand a node
    for which the driver wrote no environment entry (a call without tensor
    metadata that was skipped, for instance) stops the lowering with
    [KeyError] on such an operand. *)
Theorem skipped_operand_raises g (pre : list Node) st node ref :
  lower_nodes nnc_has_lowering g pre initial_state = Ok st ->
  node_op node = call_function -> is_Some (node_meta node) ->
  node_kwargs node = [] ->
  ref ∈ args_nodes (node_args node) ->
  ref ∉ node_name <$> filter binds pre ->
  exists ref',
    lower_node nnc_has_lowering g st node = Raise (KeyError ref') /\
    ref' ∈ args_nodes (node_args node) /\
    ref' ∉ node_name <$> filter binds pre.
Proof.
  intros Hpre Hop [tm Hmeta] Hkw Href Hskip.
  pose proof (steps_env_dom _ _ _ _ Hpre) as Hdom.
  change (st_env initial_state) with (∅ : gmap string BufHandle) in Hdom.
  assert (Hnone : forall key, st_env st !! key = None <->
                    key ∉ node_name <$> filter binds pre).
  { intros key. rewrite <- not_elem_of_dom, Hdom, dom_empty_L. set_solver. }
  rewrite (step_call_function _ _ _ _ Hop), Hmeta, decide_False
    by (by rewrite Hkw; intros H).
  unfold lower_call_node.
  pose proof (lookup_env_bound (st_env st) (node_args node)) as Hok.
  pose proof (lookup_env_key_error (st_env st) (node_args node)) as Herr.
  destruct (lookup_env (st_env st) (node_args node)) as [r|e] eqn:Hl.
  - destruct (Hok r eq_refl ref Href) as [b Hb].
    apply Hnone in Hskip. congruence.
  - destruct (Herr e eq_refl) as (ref' & -> & Hin & Hmiss).
    exists ref'. split; [done|]. split; [done|]. by apply Hnone.
Qed.

Lemma buffer_origin_mono st st' b :
  st_inputs st `prefix_of` st_inputs st' ->
  st_module_attrs st `prefix_of` st_module_attrs st' ->
  st_compute_stmts st `prefix_of` st_compute_stmts st' ->
  buffer_origin st b -> buffer_origin st' b.
Proof.
  intros [i Hi] [a Ha] [c Hc] [Hin|[(n & Hn & Hcap)|(s & Hs & Hdef)]].
  - left. rewrite Hi, fmap_app. apply elem_of_app. by left.
  - right. left. exists n. split; [|done]. rewrite Ha. apply elem_of_app. by left.
  - right. right. exists s. split; [|done]. rewrite Hc. apply elem_of_app. by left.
Qed.

Lemma env_grounded_insert st st' key b :
  st_env st' = <[key := b]> (st_env st) ->
  st_inputs st `prefix_of` st_inputs st' ->
  st_module_attrs st `prefix_of` st_module_attrs st' ->
  st_compute_stmts st `prefix_of` st_compute_stmts st' ->
  buffer_origin st' b ->
  env_grounded st -> env_grounded st'.
Proof.
  intros Henv Hi Ha Hc Hb Hg key' b'. rewrite Henv, lookup_insert.
  case_decide.
  - by intros [= <-].
  - intros Hl. eapply buffer_origin_mono; eauto.
Qed.

Lemma step_env_grounded g st node st' :
  lower_node nnc_has_lowering g st node = Ok st' ->
  env_grounded st -> env_grounded st'.
Proof.
  unfold lower_node, get_te_type, tensor_meta.
  destruct (node_op node) eqn:Hop.
  - destruct (node_meta node) as [tm|]; simpl; [|done].
    destruct (get_te_shapes _) as [shapes|e] eqn:Hshapes; simpl; [|done].
    destruct (get_nnc_type (tm_dtype tm)) as [dtype|e]; simpl; [|done].
    intros [= <-]. eapply env_grounded_insert;
      cbn [st_env st_inputs st_module_attrs st_compute_stmts]; try done.
    + by apply prefix_app_r.
    + left. cbn [st_inputs]. rewrite fmap_app. apply elem_of_app. right. left.
  - destruct (node_meta node) as [tm|] eqn:Hmeta; simpl.
    + case_decide; [done|].
      destruct (lookup_env _ _) as [nnc_args|e]; simpl; [|done].
      destruct (lower_function _ _ _ _ _ _) as [[buf stmt]|e] eqn:Hlow;
        simpl; [|done].
      intros [= <-]. eapply env_grounded_insert;
      cbn [st_env st_inputs st_module_attrs st_compute_stmts]; try done.
      * by apply prefix_app_r.
      * right. right. cbn [st_compute_stmts].
        destruct (lower_function_result _ _ _ _ _ _ _ _ Hlow)
          as [(t & -> & ->)|[(m & t & -> & ->)|(fn & bufs & es & ->)]].
        -- exists (Tensor_stmt t). split; [|done]. apply elem_of_app. right. left.
        -- exists (Tensor_stmt t). split; [|done].
           apply elem_of_app. right. right. left.
        -- exists (ExternalCall buf fn bufs es). split; [|done].
           apply elem_of_app. right. left.
    + case_decide; by intros [= <-].
  - done.
  - done.
  - destruct (node_meta node) as [tm|] eqn:Hmeta; simpl; [|done].
    destruct (get_te_shapes _) as [shapes|e] eqn:Hshapes; simpl; [|done].
    destruct (get_nnc_type (tm_dtype tm)) as [dtype|e] eqn:Hty; simpl; [|done].
    intros [= <-]. eapply env_grounded_insert;
      cbn [st_env st_inputs st_module_attrs st_compute_stmts]; try done.
    + by apply prefix_app_r.
    + right. left. exists node. cbn [st_module_attrs].
      split; [apply elem_of_app; right; left|].
      unfold captured_state_handle. rewrite Hmeta. simpl. by rewrite Hshapes, Hty.
  - destruct (node_args node) as [|a0 args]; [done|].
    destruct (lookup_env _ _) as [te_args|e]; simpl; [|done].
    destruct (mapM _ _) as [metas|e]; simpl; [|done].
    intros [= <-] Hg key b Hl. specialize (Hg key b Hl).
    by eapply buffer_origin_mono; [..|exact Hg].
Qed.

(** X11. Every buffer that the lowering binds in its environment is the
    buffer of an input placeholder, the buffer of a captured-state node, or
    the buffer written by one of the accumulated statements. *)
Theorem lowering_env_grounded g (nodes : list Node) st :
  lower_nodes nnc_has_lowering g nodes initial_state = Ok st ->
  env_grounded st.
Proof.
  assert (Hgen : forall st0 st1,
            lower_nodes nnc_has_lowering g nodes st0 = Ok st1 ->
            env_grounded st0 -> env_grounded st1).
  { induction nodes as [|node rest IH]; intros st0 st1; simpl.
    - by intros [= <-].
    - destruct (lower_node nnc_has_lowering g st0 node) as [st'|e] eqn:Hstep;
        simpl; [|done].
      intros Hrest Hg. eapply IH; [exact Hrest|]. by eapply step_env_grounded. }
  intros Hrun. eapply Hgen; [exact Hrun|]. intros key b.
  change (st_env initial_state) with (∅ : gmap string BufHandle).
  by rewrite lookup_empty.
Qed.

Lemma step_accepted g st node st' :
  lower_node nnc_has_lowering g st node = Ok st' ->
  accepted node /\
  (st_outs st' = st_outs st \/ node_op node = output).
Proof.
  unfold lower_node, accepted, get_te_type, tensor_meta.
  destruct (node_op node) eqn:Hop.
  - destruct (node_meta node) as [tm|]; simpl; [|done].
    destruct (get_te_shapes _) as [shapes|e] eqn:Hshapes; simpl; [|done].
    destruct (get_nnc_type (tm_dtype tm)) as [dtype|e] eqn:Hty; simpl; [|done].
    intros [= <-]. split; [by eauto|by left].
  - destruct (node_meta node) as [tm|] eqn:Hmeta; simpl.
    + case_decide as Hkw; [done|].
      destruct (lookup_env _ _) as [nnc_args|e]; simpl; [|done].
      destruct (lower_function _ _ _ _ _ _) as [[buf stmt]|e]; simpl; [|done].
      intros [= <-]. split; [|by left]. intros _.
      by destruct (node_kwargs node).
    + case_decide; intros [= <-]; (split; [by intros [? ?]|by left]).
  - done.
  - done.
  - destruct (node_meta node) as [tm|]; simpl; [|done].
    destruct (get_te_shapes _) as [shapes|e] eqn:Hshapes; simpl; [|done].
    destruct (get_nnc_type (tm_dtype tm)) as [dtype|e] eqn:Hty; simpl; [|done].
    intros [= <-]. split; [by eauto|by left].
  - destruct (node_args node) as [|a0 args]; [done|].
    intros _. split; [done|by right].
Qed.

Lemma steps_accepted g (nodes : list Node) : forall st st',
  lower_nodes nnc_has_lowering g nodes st = Ok st' ->
  Forall accepted nodes /\
  (st_outs st' = st_outs st \/ exists o, o ∈ nodes /\ node_op o = output).
Proof.
  induction nodes as [|node rest IH]; intros st st'; simpl.
  - intros [= <-]. split; [constructor|by left].
  - destruct (lower_node nnc_has_lowering g st node) as [st1|e] eqn:Hstep;
      simpl; [|done].
    intros Hrest. destruct (step_accepted _ _ _ _ Hstep) as [Hacc Houts].
    destruct (IH _ _ Hrest) as [Hall Houts'].
    split; [by constructor|].
    destruct Houts' as [Heq|(o & Ho & Hop)].
    + destruct Houts as [Heq'|Hop].
      * left. congruence.
      * right. exists node. split; [left|done].
    + right. exists o. split; [by right|done].
Qed.

End DriverInvariants.

(** ** Compilation and the compiled callable *)

Section CompileProperties.

Context (V : Type) (nnc_has_lowering :
  string -> list (Aggregate TeArg) -> list ExprHandle -> te_Dtype -> bool).
Context (empty_data : list Z -> torch_dtype -> V).
Context (kernel : CodeGen -> list V -> list V).
Context (module_attributes : gmap string loc).

Implicit Types (g : Graph) (st : lowering_state) (h : heap V) (c : compiled).

(** X12. A graph that compiles contains an output node, and each of its
    nodes is of a supported kind: placeholders and captured-state nodes
    carry metadata with a supported element type, calls with metadata have
    no keyword arguments, and there is no [call_method] or [call_module]
    node. *)
Theorem compiled_graph_accepted g h c h' :
  nnc_compile V nnc_has_lowering empty_data module_attributes g h = Ok (c, h') ->
  Forall accepted g /\ exists o, o ∈ g /\ node_op o = output.
Proof.
  intros Hc.
  destruct (nnc_compile_inv V nnc_has_lowering empty_data module_attributes
              g h c h' Hc)
    as (st & outs0 & outs1 & _ & _ & Hst & Houts & _).
  destruct (steps_accepted _ _ _ _ _ Hst) as [Hall [Heq|Hout]]; [|done].
  rewrite Houts in Heq. done.
Qed.

(** X13. A captured-state node whose target names no attribute of the
    module makes the compilation fail. *)
Theorem missing_attribute_raises g h n e :
  n ∈ g -> is_get_attr n ->
  fetch_attr module_attributes (node_target n) = Raise e ->
  raises (nnc_compile V nnc_has_lowering empty_data module_attributes g h).
Proof.
  intros Hn Hga Hfetch.
  destruct (nnc_compile V nnc_has_lowering empty_data module_attributes g h)
    as [[c h']|e'] eqn:Hc; [|by exists e'].
  exfalso.
  destruct (nnc_compile_inv V nnc_has_lowering empty_data module_attributes
              g h c h' Hc)
    as (st & outs0 & outs1 & _ & _ & Hst & _ & _ & _ & _ & _ & Hmod).
  destruct (steps_effect _ _ _ _ _ Hst) as (_ & Hattrs & _).
  change (st_module_attrs initial_state) with (@nil Node) in Hattrs.
  rewrite app_nil_l in Hattrs.
  apply mapM_result_Forall2 in Hmod. rewrite Hattrs in Hmod.
  assert (Hin : n ∈ filter is_get_attr g) by (by apply list_elem_of_filter).
  apply list_elem_of_lookup in Hin as [i Hi].
  destruct (Forall2_lookup_l _ _ _ _ _ Hmod Hi) as (l & _ & Hl).
  congruence.
Qed.

(** X15. There is one default output buffer per result of the output
    node, counted after the unwrapping of a single nested tuple; so the
    callable returns a bare tensor exactly when that count is one, also for
    a module that returns a tuple of one tensor. *)
Theorem default_buffers_match_outputs (pre : list Node) o h c h' :
  node_op o = output ->
  nnc_compile V nnc_has_lowering empty_data module_attributes (pre ++ [o]) h
    = Ok (c, h') ->
  length (f_alloc_results c) = length (output_args o) /\
  forall inps h1 ret h2,
    f V empty_data kernel c inps None h1 = Ok (ret, h2) ->
    ((exists r, ret = RetTensor r) <-> length (output_args o) = 1%nat).
Proof.
  intros Hop Hc.
  destruct (nnc_compile_inv V nnc_has_lowering empty_data module_attributes
              _ h c h' Hc)
    as (st & outs0 & outs1 & _ & _ & Hst & Houts & _ & _ & _ & Halloc & _).
  destruct (alloc_all_spec V empty_data _ _ _ _ Halloc) as (_ & Hall & _).
  apply Forall2_length in Hall.
  rewrite lower_nodes_app in Hst.
  destruct (lower_nodes nnc_has_lowering _ pre initial_state) as [st1|e];
    simpl in Hst; [|done].
  destruct (lower_node nnc_has_lowering _ st1 o) as [st2|e] eqn:Hstep;
    simpl in Hst; [|done].
  injection Hst as ->.
  assert (Hlen : length outs1 = length (output_args o)).
  { unfold lower_node in Hstep. rewrite Hop in Hstep. unfold output_args.
    destruct (node_args o) as [|a0 args]; [done|].
    destruct (lookup_env _ _) as [te_args|e]; simpl in Hstep; [|done].
    destruct (mapM (output_meta _) _) as [metas|e] eqn:Hm; simpl in Hstep; [|done].
    injection Hstep as <-. simpl in Houts. injection Houts as <- <-.
    apply mapM_result_length in Hm. by destruct a0. }
  split; [congruence|].
  intros inps h1 ret h2. unfold f.
  destruct (cg_call _ _ _ _ _ _) as [h2'|e]; simpl; [|done].
  rewrite <- Hlen, <- Hall.
  destruct (f_alloc_results c) as [|r [|r' rs]]; intros [= <- <-]; simpl.
  - split; [by intros [? ?]|done].
  - split; [done|by eauto].
  - split; [by intros [? ?]|done].
Qed.

(** X16. A call without an output list overwrites the default buffers in
    place: buffer [i] receives the [i]-th value computed by the kernel and
    keeps its shape and element type.  Every such call returns the same
    buffers, so a result kept from an earlier call is overwritten by the
    next one. *)
Theorem default_call_overwrites g h c h' inps h1 :
  nnc_compile V nnc_has_lowering empty_data module_attributes g h = Ok (c, h') ->
  length inps = length (filter is_placeholder g) ->
  exists ret h2,
    f V empty_data kernel c inps None h1 = Ok (ret, h2) /\
    (forall i l v t,
       f_alloc_results c !! i = Some l ->
       kernel (f_cg c) (read V empty_data h1 <$> (f_module_stuff c ++ inps)) !! i
         = Some v ->
       h1 !! l = Some t ->
       h2 !! l = Some (mkTensor V (t_shape V t) (t_dtype V t) v)) /\
    (forall inps' h1' ret' h2',
       f V empty_data kernel c inps' None h1' = Ok (ret', h2') -> ret' = ret).
Proof.
  intros Hc Hlen.
  destruct (compile_lengths V nnc_has_lowering empty_data module_attributes
              g h c h' Hc) as [Hargs Houts].
  destruct (nnc_compile_inv V nnc_has_lowering empty_data module_attributes
              g h c h' Hc)
    as (st & outs0 & outs1 & _ & _ & _ & _ & _ & _ & _ & Halloc & _).
  destruct (alloc_all_spec V empty_data _ _ _ _ Halloc) as (Hnd & _ & _).
  exists (match f_alloc_results c with [r] => RetTensor r | rs => RetList rs end).
  exists (foldl (store V) h1
            (zip (f_alloc_results c)
               (kernel (f_cg c)
                  (read V empty_data h1 <$> (f_module_stuff c ++ inps))))).
  split; [|split].
  - unfold f. rewrite (assoc_L (++)). rewrite cg_call_split.
    + simpl. by destruct (f_alloc_results c) as [|r [|r' rs]].
    + rewrite !length_app, Hargs. lia.
    + done.
  - intros i l v t Hl Hv Ht. by eapply foldl_store_lookup.
  - intros inps' h1' ret' h2'. unfold f.
    destruct (cg_call _ _ _ _ _ _) as [h2''|e]; simpl; [|done].
    by destruct (f_alloc_results c) as [|r [|r' rs]]; intros [= <- <-].
Qed.

End CompileProperties.

Lemma skipped_operand_raises_witness :
  exists ref',
    lower_node sample_lowering skipped_operand_graph skipped_operand_state
      mul_len_node = Raise (KeyError ref') /\
    ref' ∈ args_nodes (node_args mul_len_node) /\
    ref' ∉ node_name <$> filter binds (take 2 skipped_operand_graph).
Proof.
  apply (skipped_operand_raises sample_lowering skipped_operand_graph
           (take 2 skipped_operand_graph) skipped_operand_state mul_len_node
           "len_1").
  - vm_compute. reflexivity.
  - reflexivity.
  - by eexists.
  - reflexivity.
  - apply (bool_decide_unpack _). vm_compute. exact I.
  - apply (bool_decide_unpack _). vm_compute. exact I.
Defined.

Lemma lowering_env_grounded_witness : env_grounded skipped_operand_state.
Proof.
  apply (lowering_env_grounded sample_lowering skipped_operand_graph
           (take 2 skipped_operand_graph)).
  vm_compute. reflexivity.
Defined.

Lemma lowering_env_domain_witness :
  is_Some (st_env skipped_operand_state !! "len_1") <->
  is_Some (st_env initial_state !! "len_1") \/
  "len_1" ∈ node_name <$> filter binds (take 2 skipped_operand_graph).
Proof.
  apply (lowering_env_domain sample_lowering skipped_operand_graph
           (take 2 skipped_operand_graph) initial_state skipped_operand_state).
  vm_compute. reflexivity.
Defined.

Lemma tuple_output_compiles :
  nnc_compile Z sample_lowering (fun _ _ => 0%Z) param_attrs
    (take 3 param_graph ++ [tuple_output]) param_heap
  = Ok (param_compiled, param_heap').
Proof. vm_compute. reflexivity. Qed.

Lemma compiled_graph_accepted_witness :
  Forall accepted param_graph /\ exists o, o ∈ param_graph /\ node_op o = output.
Proof.
  exact (compiled_graph_accepted Z sample_lowering (fun _ _ => 0%Z) param_attrs
           param_graph param_heap param_compiled param_heap'
           param_graph_compiles).
Defined.

Lemma missing_attribute_raises_witness :
  raises (nnc_compile Z sample_lowering (fun _ _ => 0%Z) ∅ param_graph param_heap).
Proof.
  apply (missing_attribute_raises Z sample_lowering (fun _ _ => 0%Z) ∅
           param_graph param_heap
           (mkNode "w" get_attr (target_str "w") [] [] (meta_f32 []))
           (RuntimeError "Node referenced nonexistant target")).
  - right. left.
  - reflexivity.
  - reflexivity.
Defined.

Lemma default_buffers_match_outputs_witness :
  length (f_alloc_results param_compiled) = length (output_args tuple_output) /\
  forall inps h1 ret h2,
    f Z (fun _ _ => 0%Z) sum_kernel param_compiled inps None h1 = Ok (ret, h2) ->
    ((exists r, ret = RetTensor r) <-> length (output_args tuple_output) = 1%nat).
Proof.
  exact (default_buffers_match_outputs Z sample_lowering (fun _ _ => 0%Z)
           sum_kernel param_attrs (take 3 param_graph) tuple_output param_heap
           param_compiled param_heap' eq_refl tuple_output_compiles).
Defined.

Lemma default_call_overwrites_witness :
  let h1 := <[5%positive := mkTensor Z [3%Z] torch_float 40%Z]> param_heap' in
  exists ret h2,
    f Z (fun _ _ => 0%Z) sum_kernel param_compiled [5%positive] None h1
      = Ok (ret, h2) /\
    (forall i l v t,
       f_alloc_results param_compiled !! i = Some l ->
       sum_kernel (f_cg param_compiled)
         (read Z (fun _ _ => 0%Z) h1 <$>
            (f_module_stuff param_compiled ++ [5%positive])) !! i = Some v ->
       h1 !! l = Some t ->
       h2 !! l = Some (mkTensor Z (t_shape Z t) (t_dtype Z t) v)) /\
    (forall inps' h1' ret' h2',
       f Z (fun _ _ => 0%Z) sum_kernel param_compiled inps' None h1'
         = Ok (ret', h2') -> ret' = ret).
Proof.
  exact (default_call_overwrites Z sample_lowering (fun _ _ => 0%Z) sum_kernel
           param_attrs param_graph param_heap param_compiled param_heap'
           [5%positive] _ param_graph_compiles eq_refl).
Defined.

(** ** Graph utilities *)

Section GraphUtilities.

Implicit Types (env : gmap string Node) (g : Graph).

Lemma truncate_loop_all (nodes : list Node) :
  forall k cnt env g (seen : list string),
    (k <= cnt \/ cnt + Z.of_nat (length nodes) < k)%Z ->
    topological_from seen nodes ->
    (forall ref, ref ∈ seen -> is_Some (env !! ref)) ->
    NoDup (node_name <$> nodes) ->
    (forall n, n ∈ nodes -> env !! node_name n = None) ->
    exists copies env',
      truncate_loop nodes k cnt env g = Ok (g ++ copies, env') /\
      env ⊆ env' /\
      Forall2 (image env') nodes copies.
Proof.
  induction nodes as [|node rest IH]; intros k cnt env g seen Hk Htopo Hseen Hnd Hfresh.
  { exists [], env. simpl. rewrite app_nil_r. split; [done|]. split; [done|constructor]. }
  simpl in Htopo. destruct Htopo as [Hrefs Htopo].
  rewrite fmap_cons in Hnd. apply NoDup_cons in Hnd as [Hnotin Hnd].
  destruct (node_copy_spec g node env) as (c & Hcopy & Ho & Ht & Hm & Ha & Hkw).
  { intros ref Href. rewrite Forall_forall in Hrefs. apply Hseen, Hrefs, Href. }
  assert (Henv : env ⊆ <[node_name node := c]> env).
  { apply insert_subseteq, Hfresh. left. }
  simpl. rewrite Hcopy. simpl.
  rewrite decide_False by (simpl in Hk; lia).
  destruct (IH k (cnt + 1)%Z (<[node_name node := c]> env) (g ++ [c])
              (node_name node :: seen))
    as (copies & env' & Hloop & Hsub & Himgs).
  - simpl in Hk. lia.
  - exact Htopo.
  - intros ref [->|Href]%elem_of_cons.
    + rewrite lookup_insert_eq. by eexists.
    + destruct (Hseen ref Href) as [v Hv]. exists v. by eapply lookup_weaken.
  - exact Hnd.
  - intros n Hn. rewrite lookup_insert_ne.
    + apply Hfresh. by right.
    + intros Heq. apply Hnotin. rewrite Heq. by apply list_elem_of_fmap_2.
  - exists (c :: copies), env'. rewrite Hloop, <- app_assoc.
    assert (Hsub' : env ⊆ env') by (by trans (<[node_name node := c]> env)).
    split; [done|]. split; [done|].
    constructor; [|exact Himgs]. split.
    + eapply lookup_weaken; [apply lookup_insert_eq|exact Hsub].
    + eapply rewired_mono; [exact Hsub'|]. by repeat split.
Qed.

(** X17. For [k] outside [1 .. n] the loop of [truncate] never reaches its
    [break]: the result is a copy of the whole graph, node for node, and no
    output node is appended. *)
Theorem truncate_out_of_range g k :
  traced g -> (k <= 0 \/ Z.of_nat (length g) < k)%Z ->
  exists copies env,
    truncate g k = Ok copies /\
    length copies = length g /\
    Forall2 (image env) g copies.
Proof.
  intros [Hnd Htopo] Hk.
  destruct (truncate_loop_all g k 0%Z ∅ [] [])
    as (copies & env' & Hloop & _ & Himgs);
    [lia|done|by intros ref ?%elem_of_nil|done|by intros; apply lookup_empty|].
  exists copies, env'. unfold truncate. rewrite Hloop. simpl.
  split; [done|]. split; [|done]. symmetry. by eapply Forall2_length.
Qed.

Lemma topological_filter g0 (nodes : list Node) : forall seen seen',
  (forall m, m ∈ nodes -> m ∈ g0) ->
  topological_from seen nodes ->
  (forall ref, ref ∈ seen -> consumed g0 ref -> ref ∈ seen') ->
  topological_from seen' (filter (fun m => ¬ dead g0 m) nodes).
Proof.
  induction nodes as [|n rest IH]; intros seen seen' Hsub Htopo Hseen; [done|].
  destruct Htopo as [Hrefs Htopo].
  rewrite (filter_cons (fun m => ¬ dead g0 m)).
  assert (Hrest : forall m, m ∈ rest -> m ∈ g0)
    by (intros m Hm; apply Hsub; by right).
  destruct (decide (¬ dead g0 n)) as [Hlive|Hdead].
  - split.
    + rewrite Forall_forall in Hrefs. apply Forall_forall. intros ref Href.
      apply Hseen; [by apply Hrefs|]. exists n. split; [apply Hsub; left|done].
    + eapply IH; [done|exact Htopo|].
      intros ref [->|Href]%elem_of_cons Hcons; [left|right; by apply Hseen].
  - apply dec_stable in Hdead.
    eapply IH; [done|exact Htopo|].
    intros ref [->|Href]%elem_of_cons Hcons.
    + by apply dead_not_consumed in Hdead.
    + by apply Hseen.
Qed.

(** X18. On a traced graph [remove_args] returns a traced graph again:
    the surviving nodes keep their order and their unique names, and each of
    them still only consumes nodes defined before it.  Output nodes always
    survive, and a graph without dead nodes is returned unchanged. *)
Theorem remove_args_keeps_traced g :
  traced g ->
  exists g',
    remove_args g = Ok g' /\
    traced g' /\
    g' `sublist_of` g /\
    (forall n, n ∈ g -> node_op n = output -> n ∈ g') /\
    ((forall n, n ∈ g -> ¬ dead g n) -> g' = g).
Proof.
  intros Htr. exists (filter (fun m => ¬ dead g m) g).
  split; [by apply remove_args_filter|].
  pose proof (sublist_filter (fun m => ¬ dead g m) g) as Hsub.
  destruct Htr as [Hnd Htopo].
  split; [split|split; [done|split]].
  - eapply sublist_NoDup; [exact Hnd|]. by apply fmap_sublist.
  - eapply topological_filter; [done|exact Htopo|].
    by intros ref ?%elem_of_nil.
  - intros n Hn Hop. apply list_elem_of_filter. split; [|done].
    by intros [_ Hnot].
  - intros Hlive. by apply filter_id.
Qed.

End GraphUtilities.

Lemma truncate_out_of_range_witness :
  exists copies env,
    truncate relu_graph 7 = Ok copies /\
    length copies = length relu_graph /\
    Forall2 (image env) relu_graph copies.
Proof.
  apply truncate_out_of_range.
  - apply (bool_decide_unpack (traced relu_graph)). vm_compute. exact I.
  - right. simpl. lia.
Defined.

Lemma remove_args_keeps_traced_witness :
  exists g',
    remove_args dead_chain_graph = Ok g' /\
    traced g' /\
    g' `sublist_of` dead_chain_graph /\
    (forall n, n ∈ dead_chain_graph -> node_op n = output -> n ∈ g') /\
    ((forall n, n ∈ dead_chain_graph -> ¬ dead dead_chain_graph n) ->
     g' = dead_chain_graph).
Proof.
  apply remove_args_keeps_traced.
  apply (bool_decide_unpack (traced dead_chain_graph)). vm_compute. exact I.
Defined.

(** ** Outputs of the kernel *)

Section Outputs.

Context (V : Type) (nnc_has_lowering :
  string -> list (Aggregate TeArg) -> list ExprHandle -> te_Dtype -> bool).
Context (empty_data : list Z -> torch_dtype -> V).
Context (module_attributes : gmap string loc).

Implicit Types (g : Graph) (st : lowering_state) (h : heap V) (c : compiled).

Lemma step_grows g st node st' :
  lower_node nnc_has_lowering g st node = Ok st' ->
  st_inputs st `prefix_of` st_inputs st' /\
  st_module_attrs st `prefix_of` st_module_attrs st' /\
  st_compute_stmts st `prefix_of` st_compute_stmts st'.
Proof.
  unfold lower_node, get_te_type, tensor_meta.
  destruct (node_op node).
  - destruct (node_meta node) as [tm|]; simpl; [|done].
    destruct (get_te_shapes _) as [shapes|e] eqn:Hshapes; simpl; [|done].
    destruct (get_nnc_type (tm_dtype tm)) as [dtype|e]; simpl; [|done].
    intros [= <-]. cbn [st_inputs st_module_attrs st_compute_stmts].
    split; [by apply prefix_app_r|done].
  - destruct (node_meta node) as [tm|]; simpl.
    + case_decide; [done|].
      destruct (lookup_env _ _) as [nnc_args|e]; simpl; [|done].
      destruct (lower_function _ _ _ _ _ _) as [[buf stmt]|e]; simpl; [|done].
      intros [= <-]. cbn [st_inputs st_module_attrs st_compute_stmts].
      split; [done|]. split; [done|by apply prefix_app_r].
    + case_decide; by intros [= <-].
  - done.
  - done.
  - destruct (node_meta node) as [tm|]; simpl; [|done].
    destruct (get_te_shapes _) as [shapes|e] eqn:Hshapes; simpl; [|done].
    destruct (get_nnc_type (tm_dtype tm)) as [dtype|e]; simpl; [|done].
    intros [= <-]. cbn [st_inputs st_module_attrs st_compute_stmts].
    split; [done|]. split; [by apply prefix_app_r|done].
  - destruct (node_args node) as [|a0 args]; [done|].
    destruct (lookup_env _ _) as [te_args|e]; simpl; [|done].
    destruct (mapM _ _) as [metas|e]; simpl; [|done].
    by intros [= <-].
Qed.

Lemma lookup_env_leaf (env : gmap string BufHandle)
    (l : list (Aggregate FxArg)) r b :
  lookup_env env l = Ok r -> Leaf (TeBuf b) ∈ r ->
  exists key, env !! key = Some b.
Proof.
  intros Hr Hin. apply mapM_result_Forall2 in Hr.
  apply list_elem_of_lookup in Hin as [i Hi].
  destruct (Forall2_lookup_r _ _ _ _ _ Hr Hi) as (a & _ & Ha).
  destruct a as [[ref|c']|l'|l']; simpl in Ha.
  - destruct (env !! ref) as [b'|] eqn:Hb; simpl in Ha; [|done].
    injection Ha as <-. by exists ref.
  - done.
  - by destruct (mapM _ l').
  - by destruct (mapM _ l').
Qed.

Lemma step_outs_grounded g st node st' :
  lower_node nnc_has_lowering g st node = Ok st' ->
  env_grounded st -> outs_grounded st -> outs_grounded st'.
Proof.
  intros Hstep Henv Houts.
  destruct (step_grows _ _ _ _ Hstep) as (Hi & Ha & Hc).
  destruct (step_accepted nnc_has_lowering _ _ _ _ Hstep) as [_ [Heq|Hop]].
  - unfold outs_grounded in *. rewrite Heq.
    destruct (st_outs st) as [[outs0 outs1]|]; [|done].
    intros b Hb. by eapply buffer_origin_mono; [..|apply Houts].
  - unfold lower_node in Hstep. rewrite Hop in Hstep.
    destruct (node_args node) as [|a0 args]; [done|].
    destruct (lookup_env _ _) as [te_args|e] eqn:Hl; simpl in Hstep; [|done].
    destruct (mapM _ _) as [metas|e]; simpl in Hstep; [|done].
    injection Hstep as <-. unfold outs_grounded. simpl.
    intros b Hb. destruct (lookup_env_leaf _ _ _ _ Hl Hb) as [key Hkey].
    destruct (Henv key b Hkey) as [?|[?|?]]; [by left|right; by left|right; by right].
Qed.

Lemma steps_outs_grounded g (nodes : list Node) : forall st st',
  lower_nodes nnc_has_lowering g nodes st = Ok st' ->
  env_grounded st -> outs_grounded st -> outs_grounded st'.
Proof.
  induction nodes as [|node rest IH]; intros st st'; simpl.
  - by intros [= <-].
  - destruct (lower_node nnc_has_lowering g st node) as [st1|e] eqn:Hstep;
      simpl; [|done].
    intros Hrest Henv Houts. eapply IH; [exact Hrest| |].
    + by eapply step_env_grounded.
    + by eapply step_outs_grounded.
Qed.

(** X19. Every output buffer handed to the loop nest and the code
    generator is written by one of the loop nest's statements, or is the
    buffer of an input placeholder or of a captured-state node of the
    graph. *)
Theorem output_buffers_grounded g h c h' b :
  nnc_compile V nnc_has_lowering empty_data module_attributes g h = Ok (c, h') ->
  Leaf (TeBuf b) ∈ ln_output_bufs (cg_loopnest (f_cg c)) ->
  (exists s, s ∈ ln_stmts (cg_loopnest (f_cg c)) /\ stmt_defines s = b) \/
  (exists n ph, n ∈ g /\ is_placeholder n /\ input_placeholder n = Some ph /\
                b = Placeholder_data ph) \/
  (exists n, n ∈ g /\ is_get_attr n /\ captured_state_handle n = Some b).
Proof.
  intros Hc Hb.
  destruct (nnc_compile_inv V nnc_has_lowering empty_data module_attributes
              g h c h' Hc)
    as (st & outs0 & outs1 & bufs & buffer_args & Hst & Houts & _ & _ & Hcg & _).
  rewrite Hcg in Hb. rewrite Hcg.
  cbn [cg_loopnest ln_output_bufs ln_stmts] in Hb.
  cbn [cg_loopnest ln_output_bufs ln_stmts].
  assert (Hg : outs_grounded st).
  { eapply steps_outs_grounded; [exact Hst| |done].
    intros key b'. change (st_env initial_state) with (∅ : gmap string BufHandle).
    by rewrite lookup_empty. }
  unfold outs_grounded in Hg. rewrite Houts in Hg.
  destruct (steps_effect _ _ _ _ _ Hst) as (_ & Hattrs & (phs & Hin & Hphs) & _).
  change (st_module_attrs initial_state) with (@nil Node) in Hattrs.
  change (st_inputs initial_state) with (@nil te_Placeholder) in Hin.
  rewrite app_nil_l in Hattrs, Hin.
  destruct (Hg b Hb) as [Hph|[(n & Hn & Hcap)|Hs]].
  - right. left. rewrite Hin in Hph.
    apply list_elem_of_fmap in Hph as (ph & -> & Hph).
    apply list_elem_of_lookup in Hph as [i Hi].
    destruct (Forall2_lookup_r _ _ _ _ _ Hphs Hi) as (n & Hn & Hnph).
    apply list_elem_of_lookup_2, list_elem_of_filter in Hn as [Hp Hn].
    by exists n, ph.
  - right. right. rewrite Hattrs in Hn.
    apply list_elem_of_filter in Hn as [Hga Hn]. by exists n.
  - by left.
Qed.

(** X20. The [ones_like] rule never looks at the operands nor at the
    element type: whatever they are, a node of at most four axes whose
    inferred extents fit a C [int] is lowered to one computation of the
    constant [1.0] over one index per axis of its promoted shape, so over at
    least one index. *)
Theorem ones_like_lowering g node tm nnc_args args :
  node_meta node = Some tm ->
  (length (tm_shape tm) <= 4)%nat ->
  Forall int32 (tm_shape tm) ->
  exists dims,
    lower_function nnc_has_lowering g node (torch_ops_aten "ones_like")
      nnc_args args =
    Ok (Tensor_buf (Compute (node_name node) dims (ExprFloat (Qmake 1 1))),
        [Tensor_stmt (Compute (node_name node) dims (ExprFloat (Qmake 1 1)))]) /\
    get_dim_args (process_shape (tm_shape tm)) = Ok dims /\
    length dims = Nat.max 1 (length (tm_shape tm)).
Proof.
  intros Hmeta _ Hfit.
  assert (Hpromoted : Forall int32 (process_shape (tm_shape tm))).
  { destruct (tm_shape tm); [|done]. by apply Forall_singleton. }
  pose proof (get_dim_args_ok _ Hpromoted) as Hdims.
  eexists. split; [|split; [exact Hdims|]].
  - unfold lower_function, tensor_meta. rewrite Hmeta.
    destruct (mapM_result_total (map_aggregate (operand_shape g)) args)
      as [inp_shapes Hinp].
    { apply Forall_forall. intros a _.
      induction a as [x|l IH|l IH] using Aggregate_ind'; simpl.
      - destruct x as [ref|c']; simpl; [|by eexists].
        destruct (find_node g ref ≫= node_meta); by eexists.
      - destruct (mapM_result_total _ _ IH) as [l' ->]. by eexists.
      - destruct (mapM_result_total _ _ IH) as [l' ->]. by eexists. }
    rewrite Hinp. simpl. unfold ones_like_lower. rewrite Hdims. reflexivity.
  - rewrite length_imap. by destruct (tm_shape tm).
Qed.

End Outputs.

Lemma output_buffers_grounded_witness :
  (exists s, s ∈ ln_stmts (cg_loopnest (f_cg param_compiled)) /\
             stmt_defines s = Tensor_buf param_mul) \/
  (exists n ph, n ∈ param_graph /\ is_placeholder n /\
                input_placeholder n = Some ph /\
                Tensor_buf param_mul = Placeholder_data ph) \/
  (exists n, n ∈ param_graph /\ is_get_attr n /\
             captured_state_handle n = Some (Tensor_buf param_mul)).
Proof.
  apply (output_buffers_grounded Z sample_lowering (fun _ _ => 0%Z) param_attrs
           param_graph param_heap param_compiled param_heap' _
           param_graph_compiles).
  left.
Defined.

Lemma ones_like_lowering_witness :
  exists dims,
    lower_function (fun _ _ _ _ => false) [] ones_like_node
      (torch_ops_aten "ones_like") [] [] =
    Ok (Tensor_buf (Compute "ones_like" dims (ExprFloat (Qmake 1 1))),
        [Tensor_stmt (Compute "ones_like" dims (ExprFloat (Qmake 1 1)))]) /\
    get_dim_args (process_shape []) = Ok dims /\
    length dims = Nat.max 1 0.
Proof.
  apply (ones_like_lowering (fun _ _ _ _ => false) [] ones_like_node
           (mkTensorMeta [] torch_bool) [] [] eq_refl); [simpl; lia|constructor].
Defined.

Section DefaultBuffers.

Context (V : Type) (nnc_has_lowering :
  string -> list (Aggregate TeArg) -> list ExprHandle -> te_Dtype -> bool).
Context (empty_data : list Z -> torch_dtype -> V).
Context (module_attributes : gmap string loc).

(** X21. Each default output buffer is allocated with the shape and the
    element type that shape propagation recorded on the corresponding result
    node of the output node, exactly as recorded (a zero-rank result gets a
    zero-rank buffer); every result of a graph that compiles is a node with
    tensor metadata. *)
Theorem default_buffer_shapes (pre : list Node) o (h : heap V) c h' :
  node_op o = output ->
  nnc_compile V nnc_has_lowering empty_data module_attributes (pre ++ [o]) h
    = Ok (c, h') ->
  Forall2 (fun l a =>
             exists ref n tm,
               a = Leaf (ArgNode ref) /\
               find_node (pre ++ [o]) ref = Some n /\
               node_meta n = Some tm /\
               h' !! l = Some (mkTensor V (tm_shape tm) (tm_dtype tm)
                                 (empty_data (tm_shape tm) (tm_dtype tm))))
    (f_alloc_results c) (output_args o).
Proof.
  intros Hop Hc.
  destruct (nnc_compile_inv V nnc_has_lowering empty_data module_attributes
              _ h c h' Hc)
    as (st & outs0 & outs1 & bufs & buffer_args & Hst & Houts & _ & _ & _ &
        Halloc & _).
  destruct (alloc_all_spec V empty_data _ _ _ _ Halloc) as (_ & Hall & _).
  rewrite lower_nodes_app in Hst.
  destruct (lower_nodes nnc_has_lowering _ pre initial_state) as [st1|e];
    simpl in Hst; [|done].
  destruct (lower_node nnc_has_lowering _ st1 o) as [st2|e] eqn:Hstep;
    simpl in Hst; [|done].
  injection Hst as ->.
  assert (Hmetas : Forall2 (fun a sd => output_meta (pre ++ [o]) a = Ok sd)
                     (output_args o) outs1).
  { unfold lower_node in Hstep. rewrite Hop in Hstep. unfold output_args.
    destruct (node_args o) as [|a0 args]; [done|].
    destruct (lookup_env _ _) as [te_args|e]; simpl in Hstep; [|done].
    destruct (mapM (output_meta _) _) as [metas|e] eqn:Hm; simpl in Hstep; [|done].
    injection Hstep as <-. simpl in Houts. injection Houts as <- <-.
    apply mapM_result_Forall2 in Hm. by destruct a0. }
  apply Forall2_flip in Hmetas.
  eapply Forall2_trans; [|exact Hall|exact Hmetas].
  intros l sd a [_ Hl] Ha. unfold flip, output_meta, tensor_meta in Ha.
  destruct a as [[ref|c']|l'|l']; try done.
  destruct (find_node (pre ++ [o]) ref) as [n|] eqn:Hfind; [|done].
  destruct (node_meta n) as [tm|] eqn:Hmeta; simpl in Ha; [|done].
  injection Ha as <-. by exists ref, n, tm.
Qed.

End DefaultBuffers.

Lemma default_buffer_shapes_witness :
  Forall2 (fun l a =>
             exists ref n tm,
               a = Leaf (ArgNode ref) /\
               find_node (take 3 param_graph ++ [tuple_output]) ref = Some n /\
               node_meta n = Some tm /\
               param_heap' !! l = Some (mkTensor Z (tm_shape tm) (tm_dtype tm) 0%Z))
    (f_alloc_results param_compiled) (output_args tuple_output).
Proof.
  exact (default_buffer_shapes Z sample_lowering (fun _ _ => 0%Z) param_attrs
           (take 3 param_graph) tuple_output param_heap param_compiled
           param_heap' eq_refl tuple_output_compiles).
Defined.

